(** * OptiScaler manager: a shallow embedding of the Python sources

    The development follows the four source modules that carry the
    behaviour under study:

    - [steam_utils.py]          (module [SteamUtils])
    - [optiscaler_installer.py] (module [OptiScalerInstaller])
    - [fsr_manager.py]          (module [FSRManager])
    - [cli.py]                  (module [Cli])

    Python [str] values are lists of characters ([list ascii]); Python
    dictionaries with a fixed set of keys are records; Python lists are
    lists; everything the code asks of the operating system (directory
    walks, file contents, modification times, the network, the operator)
    is an explicit argument.  What the code relies on of the standard
    library is modelled with it: the strings in [PyStr], the joining of
    paths in [PathLib], the float that [stat] makes of a time stamp in
    [OsStat].  Part I holds the definitions, Part II the theorems. *)

From Stdlib Require Import Ascii String.
From Stdlib Require Import List Bool Arith ZArith Lia.
From Stdlib Require Import Permutation Sorted.
Import ListNotations.

(* ===================================================================== *)
(** * Part I: the model                                                    *)
(* ===================================================================== *)

(** ** Python strings *)

Module PyStr.

(** A string is the list of its characters; a character is a code point
    below 256. *)
Definition str := list ascii.

(** String literals of the sources. *)
Definition lit (s : string) : str := list_ascii_of_string s.

Definition eqb (a b : str) : bool :=
  if list_eq_dec ascii_dec a b then true else false.

(** [c.lower()]: the capital letters A to Z and, above the ASCII range, the
    capital letters 192 to 222 (215, the multiplication sign, is none). *)
Definition lower_char (c : ascii) : ascii :=
  let n := nat_of_ascii c in
  if ((65 <=? n) && (n <=? 90)) ||
     ((192 <=? n) && (n <=? 222) && negb (n =? 215))
  then ascii_of_nat (n + 32) else c.

(** [s.lower()] *)
Definition lower (s : str) : str := map lower_char s.

(** [s.startswith(p)] *)
Fixpoint startswith (p s : str) : bool :=
  match p, s with
  | [], _ => true
  | _ :: _, [] => false
  | a :: p', b :: s' => if ascii_dec a b then startswith p' s' else false
  end.

(** [s.endswith(p)] *)
Definition endswith (p s : str) : bool := startswith (rev p) (rev s).

(** [sub in s] *)
Fixpoint contains (sub s : str) : bool :=
  startswith sub s ||
  match s with
  | [] => false
  | _ :: s' => contains sub s'
  end.

(** [c.isspace()], the characters that [str.strip()] removes and that the
    pattern [\s] matches: TAB, LF, VT, FF, CR, FS, GS, RS, US, the space, the
    next-line control (133) and the no-break space (160). *)
Definition is_space (c : ascii) : bool :=
  let n := nat_of_ascii c in
  ((9 <=? n) && (n <=? 13)) || ((28 <=? n) && (n <=? 32)) ||
  (n =? 133) || (n =? 160).

Fixpoint lstrip (s : str) : str :=
  match s with
  | [] => []
  | c :: s' => if is_space c then lstrip s' else s
  end.

Definition rstrip (s : str) : str := rev (lstrip (rev s)).

(** [s.strip()] *)
Definition strip (s : str) : str := rstrip (lstrip s).

(** [s.split(sep)] for a one-character separator: every occurrence splits,
    empty pieces are kept. *)
Fixpoint split (sep : ascii) (s : str) : list str :=
  match s with
  | [] => [[]]
  | c :: s' =>
      if ascii_dec c sep then [] :: split sep s'
      else match split sep s' with
           | [] => [[c]]
           | piece :: rest => (c :: piece) :: rest
           end
  end.

Definition LF : ascii := ascii_of_nat 10.
Definition CR : ascii := ascii_of_nat 13.
Definition SLASH : ascii := ascii_of_nat 47.
Definition QUOTE : ascii := ascii_of_nat 34.

(** [str(Path(dir) / name)] for a path [dir] other than a root or the dot
    and a plain file name [name], where it is the text of both with a slash
    in between. *)
Definition join (dir name : str) : str := dir ++ SLASH :: name.

(** Text-mode reading with universal newlines (the default of [open(p, 'r')]):
    CR LF and a lone CR both arrive as LF.  The decoder remembers whether
    the character before was a CR. *)
Fixpoint decode_newlines (after_cr : bool) (s : str) : str :=
  match s with
  | [] => []
  | c :: s' =>
      if ascii_dec c CR then LF :: decode_newlines true s'
      else if ascii_dec c LF then
        if after_cr then decode_newlines false s'
        else LF :: decode_newlines false s'
      else c :: decode_newlines false s'
  end.

Definition universal_newlines (s : str) : str := decode_newlines false s.

(** [f.readlines()] on text already read: the pieces keep their LF, the last
    piece may lack one, no piece is empty. *)
Fixpoint readlines (s : str) : list str :=
  match s with
  | [] => []
  | c :: s' =>
      if ascii_dec c LF then [c] :: readlines s'
      else match readlines s' with
           | [] => [[c]]
           | line :: rest => (c :: line) :: rest
           end
  end.

(** [f.writelines(lines)] *)
Definition writelines (lines : list str) : str := concat lines.

(** Lexicographic order on code points, the order of [<] on [str]. *)
Definition compare (a b : str) : comparison := list_compare Ascii.compare a b.

Definition ltb (a b : str) : bool :=
  match compare a b with Lt => true | _ => false end.

End PyStr.

Import PyStr.

(** ** pathlib *)

Module PathLib.

(** The parts of a path below its root: empty components and "." are
    dropped when a [Path] is built. *)
Definition path_parts (s : str) : list str :=
  filter (fun c => negb (eqb c []) && negb (eqb c (lit "."))) (split SLASH s).

(** The root: exactly two leading slashes are kept, any other number of
    leading slashes is one. *)
Definition path_root (s : str) : str :=
  if startswith (lit "//") s && negb (startswith (lit "///") s) then lit "//"
  else if startswith (lit "/") s then lit "/"
  else [].

(** ["/".join(parts)] *)
Fixpoint join_parts (parts : list str) : str :=
  match parts with
  | [] => []
  | [c] => c
  | c :: rest => c ++ SLASH :: join_parts rest
  end.

(** [str(Path(s))] *)
Definition Path (s : str) : str :=
  match path_root s, path_parts s with
  | [], [] => lit "."
  | root, parts => root ++ join_parts parts
  end.

(** [str(Path(p) / segment)]: a segment with a root replaces the path; the
    parts of any other segment are added to those of the path. *)
Definition truediv (p segment : str) : str :=
  match path_root segment with
  | [] =>
      match path_root p, path_parts p ++ path_parts segment with
      | [], [] => lit "."
      | root, parts => root ++ join_parts parts
      end
  | _ :: _ => Path segment
  end.

End PathLib.

Import PathLib.

(** ** os.stat *)

Module OsStat.

(** A double is written as the number of units of 2^-82 it holds, which is
    an integer for every double of magnitude 2^-30 and above and for the
    product below.  [round53] rounds such a number to the nearest one with
    53 significant bits, ties to the even one: the rounding of every
    operation on doubles. *)
Definition round53 (x : Z) : Z :=
  let a := Z.abs x in
  let sh := (Z.log2 a + 1 - 53)%Z in
  if (sh <=? 0)%Z then x
  else
    let q := Z.shiftr a sh in
    let r := (a - Z.shiftl q sh)%Z in
    let half := Z.shiftl 1 (sh - 1) in
    let q' :=
      if (r <? half)%Z then q
      else if (half <? r)%Z then (q + 1)%Z
      else if Z.even q then q else (q + 1)%Z in
    (Z.sgn x * Z.shiftl q' sh)%Z.

(** The double [1e-9] is 4835703278458517 * 2^-82. *)
Definition NANO : Z := 4835703278458517.

(** [stat().st_mtime] for a time stamp of [ns] nanoseconds: the interpreter
    computes the double [sec + 1e-9*nsec] from the seconds and the
    nanoseconds of the time stamp. *)
Definition float_seconds (ns : Z) : Z :=
  let sec := (ns / 1000000000)%Z in
  let nsec := (ns mod 1000000000)%Z in
  round53 (round53 (Z.shiftl sec 82) + round53 (NANO * nsec)).

End OsStat.

Import OsStat.

(** ** steam_utils.py *)

Module SteamUtils.

(** *** find_game_executable_paths *)

Inductive ExeType :=
| MainGameDirectory      (* "Main Game Directory" *)
| ShippingExecutable     (* "Shipping Executable (UE)" *)
| CommonGameFolder       (* "Common Game Folder" *)
| OtherExe.              (* "Other" *)

(** The [location_info] dictionary. *)
Record Location := {
  path : str;
  exe_name : str;
  exe_type : ExeType;
  priority : nat;
  relative_path : str
}.

(** One entry met by the recursive walk below [game_dir]: the directory it
    sits in, as the components below [game_dir], its name, and whether
    [is_file()] holds for it. *)
Record DirEntry := {
  rel_dir : list str;
  entry_name : str;
  is_file : bool
}.

(** [str(exe_file.parent)] *)
Definition parent_str (game_dir : str) (e : DirEntry) : str :=
  game_dir ++ concat (map (fun c => SLASH :: c) (rel_dir e)).

(** [str(exe_file.parent.relative_to(game_dir))] *)
Definition relative_str (e : DirEntry) : str :=
  match rel_dir e with
  | [] => lit "."
  | c :: cs => c ++ concat (map (fun d => SLASH :: d) cs)
  end.

(** [exe_file.parent == game_dir] *)
Definition in_game_dir (e : DirEntry) : bool :=
  match rel_dir e with [] => true | _ :: _ => false end.

(** [len(Path(p).parts)]: the root counts as one part, empty and "."
    components are dropped by the path parser. *)
Definition parts_len (p : str) : nat :=
  (if startswith [SLASH] p then 1 else 0) +
  length (filter (fun c => negb (eqb c []) && negb (eqb c (lit "."))) (split SLASH p)).

Definition skip_paths : list str :=
  map lit ["engine"; "redist"; "directx"; "vcredist"; "_commonredist"; "tools"; "crash"]%string.

Definition skip_names : list str :=
  map lit ["unins"; "setup"; "launcher"; "redist"; "vcredist"; "directx"; "crash"]%string.

Definition common_folders : list str :=
  map lit ["bin/x64"; "retail"; "binaries/win64"]%string.

(** [any(skip in s for skip in skips)] *)
Definition any_in (skips : list str) (s : str) : bool :=
  existsb (fun skip => contains skip s) skips.

(** The body of the loop up to the construction of [location_info]:
    [None] for every [continue], otherwise the type and the priority. *)
Definition classify (game_dir : str) (e : DirEntry) : option (ExeType * nat) :=
  if negb (is_file e) then None
  else
    let path_str := lower (parent_str game_dir e) in
    let name_str := lower (entry_name e) in
    if any_in skip_paths path_str || any_in skip_names name_str then None
    else if in_game_dir e then Some (MainGameDirectory, 1)
    else if contains (lit "_shipping") name_str then Some (ShippingExecutable, 1)
    else if any_in common_folders (lower (parent_str game_dir e))
      then Some (CommonGameFolder, 2)
    else if contains (lit "ue4") name_str || contains (lit "ue5") name_str then None
    else Some (OtherExe, 3).

Definition location_info (game_dir : str) (e : DirEntry) (t : ExeType) (p : nat)
  : Location :=
  {| path := parent_str game_dir e;
     exe_name := entry_name e;
     exe_type := t;
     priority := p;
     relative_path := relative_str e |}.

(** [existing.update(location_info)]: [existing] is the first dictionary of
    [exe_locations] with that path, and it is updated in place, so the list
    sees the change. *)
Fixpoint update_existing (info : Location) (exe_locations : list Location)
  : list Location :=
  match exe_locations with
  | [] => []
  | loc :: rest =>
      if eqb (path loc) (path info) then info :: rest
      else loc :: update_existing info rest
  end.

(** One iteration of [for exe_file in game_dir.rglob("*.exe")], after the
    pattern has matched. *)
Definition visit (game_dir : str) (exe_locations : list Location) (e : DirEntry)
  : list Location :=
  match classify game_dir e with
  | None => exe_locations
  | Some (t, p) =>
      let info := location_info game_dir e t p in
      match find (fun loc => eqb (path loc) (path info)) exe_locations with
      | Some existing =>
          if p <? priority existing then update_existing info exe_locations
          else exe_locations
      | None => exe_locations ++ [info]
      end
  end.

(** [rglob("*.exe")]: of the entries the walk meets, in the order it meets
    them, those whose name matches the pattern. *)
Definition rglob_exe (walk : list DirEntry) : list DirEntry :=
  filter (fun e => endswith (lit ".exe") (entry_name e)) walk.

(** The sort key [(x["priority"], len(Path(x["path"]).parts), x["path"])]. *)
Definition sort_key (x : Location) : nat * nat * str :=
  (priority x, parts_len (path x), path x).

(** [<] on the key tuples. *)
Definition key_ltb (a b : nat * nat * str) : bool :=
  let '(p1, d1, s1) := a in
  let '(p2, d2, s2) := b in
  if p1 <? p2 then true
  else if p2 <? p1 then false
  else if d1 <? d2 then true
  else if d2 <? d1 then false
  else ltb s1 s2.

(** [list.sort(key=...)] is stable and compares keys with [<] only. *)
Section StableSort.
Variables (A K : Type) (key : A -> K) (lt : K -> K -> bool).

Fixpoint insert_sorted (x : A) (l : list A) : list A :=
  match l with
  | [] => [x]
  | y :: l' =>
      if lt (key y) (key x) then y :: insert_sorted x l'
      else x :: l
  end.

Definition sort_by (l : list A) : list A :=
  fold_right insert_sorted [] l.

(** No later element is smaller than an earlier one. *)
Definition no_inversion (x y : A) : Prop := lt (key y) (key x) = false.

(** Earlier elements are strictly smaller. *)
Definition ascending (x y : A) : Prop := lt (key x) (key y) = true.
End StableSort.

Arguments insert_sorted {A K} key lt x l.
Arguments sort_by {A K} key lt l.
Arguments no_inversion {A K} key lt x y.
Arguments ascending {A K} key lt x y.

Definition find_game_executable_paths (game_dir : str) (walk : list DirEntry)
  : list Location :=
  let exe_locations := fold_left (visit game_dir) (rglob_exe walk) [] in
  sort_by sort_key key_ltb exe_locations.

(** *** get_steam_games *)

(** The dictionary built for a game. *)
Record Game := {
  app_id : str;
  name : str;
  install_dir : str;
  game_path : str;          (* key "path" *)
  library_path : str
}.

(** What the enumeration asks of the disk: whether a path exists, the time
    stamp of the last modification of a path in nanoseconds ([None] when
    [stat] raises [OSError]), the manifest files matched below a [steamapps]
    directory in the order the glob returns them, and the text of a file
    ([None] when opening or decoding raises). *)
Record Disk := {
  disk_exists : str -> bool;
  st_mtime_ns : str -> option Z;
  manifest_files : str -> list str;
  read_text : str -> option str
}.

(** [Path(p).stat().st_mtime], the float the enumeration compares. *)
Definition st_mtime (d : Disk) (p : str) : option Z :=
  option_map float_seconds (st_mtime_ns d p).

(** The fourth piece of the line split at the double quotes; [None] stands
    for the [IndexError]. *)
Definition quoted_value (line : str) : option str :=
  nth_error (split QUOTE line) 3.

(** A key of the manifest between its double quotes. *)
Definition quoted (key : str) : str := QUOTE :: key ++ [QUOTE].

(** The loop over the lines of a manifest; [None] when an [IndexError]
    leaves it. *)
Fixpoint scan_manifest (lines : list str) (found : option str * option str * option str)
  : option (option str * option str * option str) :=
  match lines with
  | [] => Some found
  | raw_line :: rest =>
      let line := strip raw_line in
      let '(id, nm, dir) := found in
      if startswith (quoted (lit "appid")) line then
        match quoted_value line with
        | Some v => scan_manifest rest (Some v, nm, dir)
        | None => None
        end
      else if startswith (quoted (lit "name")) line then
        match quoted_value line with
        | Some v => scan_manifest rest (id, Some v, dir)
        | None => None
        end
      else if startswith (quoted (lit "installdir")) line then
        match quoted_value line with
        | Some v => scan_manifest rest (id, nm, Some v)
        | None => None
        end
      else scan_manifest rest found
  end.

(** Truthiness of an optional string: set and not empty. *)
Definition truthy (v : option str) : option str :=
  match v with
  | Some (c :: s) => Some (c :: s)
  | _ => None
  end.

(** The record a manifest file gives rise to, if any: the file is read and
    scanned, the three values must be truthy and the install path,
    [steamapps_path / "common" / install_dir], must exist.  Any exception
    skips the manifest.  [library] is the library as a path. *)
Definition manifest_game (d : Disk) (library : str) (manifest_file : str)
  : option Game :=
  let steamapps_path := truediv library (lit "steamapps") in
  match read_text d manifest_file with
  | None => None
  | Some content =>
      match scan_manifest (split LF (universal_newlines content)) (None, None, None) with
      | None => None
      | Some (id, nm, dir) =>
          match truthy id, truthy nm, truthy dir with
          | Some id', Some nm', Some dir' =>
              let path := truediv (truediv steamapps_path (lit "common")) dir' in
              if disk_exists d path then
                Some {| app_id := id'; name := nm'; install_dir := dir';
                        game_path := path; library_path := library |}
              else None
          | _, _, _ => None
          end
      end
  end.

(** [games[i] = {...}] for the first [i] with that [app_id]. *)
Fixpoint replace_game (g : Game) (games : list Game) : list Game :=
  match games with
  | [] => []
  | x :: rest =>
      if eqb (app_id x) (app_id g) then g :: rest
      else x :: replace_game g rest
  end.

(** What happens to [games] once a manifest has given a record. *)
Definition add_game (d : Disk) (games : list Game) (g : Game) : list Game :=
  match find (fun x => eqb (app_id x) (app_id g)) games with
  | None => games ++ [g]
  | Some existing_game =>
      match st_mtime d (game_path existing_game), st_mtime d (game_path g) with
      | Some existing_mtime, Some current_mtime =>
          if (existing_mtime <? current_mtime)%Z then replace_game g games
          else games
      | _, _ => games
      end
  end.

Definition visit_manifest (d : Disk) (library : str) (games : list Game)
  (manifest_file : str) : list Game :=
  match manifest_game d library manifest_file with
  | Some g => add_game d games g
  | None => games
  end.

Definition visit_library (d : Disk) (games : list Game) (library : str) : list Game :=
  let steamapps_path := truediv library (lit "steamapps") in
  if disk_exists d steamapps_path then
    fold_left (visit_manifest d library) (manifest_files d steamapps_path) games
  else games.

(** [get_steam_games], given [self.steam_path] and the list that
    [find_all_steam_libraries] returns. *)
Definition get_steam_games (d : Disk) (steam_path : option str)
  (steam_libraries : list str) : list Game :=
  match steam_path with
  | None => []
  | Some _ =>
      let games := fold_left (visit_library d) steam_libraries [] in
      sort_by name ltb games
  end.

(** [get_compatdata_path], given [self.steam_path] and the existence test. *)
Definition get_compatdata_path (exists_ : str -> bool) (steam_path : option str)
  (app : str) : option str :=
  match steam_path with
  | None => None
  | Some steam =>
      let compatdata_path :=
        truediv (truediv (truediv steam (lit "steamapps")) (lit "compatdata")) app in
      if exists_ compatdata_path then Some compatdata_path else None
  end.

(** *** Vocabulary for the statements about the enumeration *)

(** The records the manifests of the libraries give rise to. *)
Definition discovered (d : Disk) (steam_libraries : list str) (g : Game) : Prop :=
  exists library manifest_file,
    In library steam_libraries /\
    disk_exists d (truediv library (lit "steamapps")) = true /\
    In manifest_file (manifest_files d (truediv library (lit "steamapps"))) /\
    manifest_game d library manifest_file = Some g.

(** The install path of [g] was modified no later than that of [kept], by
    the floats that [stat] gives. *)
Definition not_newer (d : Disk) (g kept : Game) : Prop :=
  match st_mtime d (game_path g), st_mtime d (game_path kept) with
  | Some t, Some t_kept => (t <= t_kept)%Z
  | _, _ => False
  end.

(** The records given by the manifests [files] of a library. *)
Definition from_manifests (d : Disk) (library : str) (files : list str) (g : Game)
  : Prop :=
  exists manifest_file,
    In manifest_file files /\ manifest_game d library manifest_file = Some g.

(** Every record seen with the [app_id] of [c] has a readable time. *)
Definition times_readable (d : Disk) (seen : Game -> Prop) (c : Game) : Prop :=
  forall x, seen x -> app_id x = app_id c -> st_mtime d (game_path x) <> None.

(** What the loops maintain about [games] with respect to the records the
    manifests gave so far. *)
Record enumerated (d : Disk) (seen : Game -> Prop) (games : list Game) : Prop := {
  enumerated_nodup : NoDup (map app_id games);
  enumerated_from : forall g, In g games -> seen g;
  enumerated_newest : forall c, seen c ->
      exists g, In g games /\ app_id g = app_id c /\
                (times_readable d seen c -> not_newer d c g)
}.

(** *** Vocabulary for the statements about the ranker *)

(** The entry carries one of the two engine-version markers in its name. *)
Definition has_engine_marker (e : DirEntry) : bool :=
  contains (lit "ue4") (lower (entry_name e)) ||
  contains (lit "ue5") (lower (entry_name e)).

(** Some returned candidate is this very file: same directory, same name. *)
Definition listed (game_dir : str) (walk : list DirEntry) (e : DirEntry) : Prop :=
  exists loc, In loc (find_game_executable_paths game_dir walk) /\
              path loc = parent_str game_dir e /\ exe_name loc = entry_name e.

(** What the loop maintains about [exe_locations] with respect to the
    entries visited so far. *)
Record ranked (game_dir : str) (seen : DirEntry -> Prop) (acc : list Location) : Prop := {
  ranked_nodup : NoDup (map path acc);
  ranked_from : forall loc, In loc acc ->
      exists e t, seen e /\ classify game_dir e = Some (t, priority loc) /\
                  loc = location_info game_dir e t (priority loc);
  ranked_min : forall e t p, seen e -> classify game_dir e = Some (t, p) ->
      exists loc, In loc acc /\ path loc = parent_str game_dir e /\ priority loc <= p
}.




End SteamUtils.

(** ** The file system *)

Module Files.

(** The calls the sources make on the file system.  A call that raises
    returns [None]. *)
Class FileSystem (FS : Type) := {
  fs_exists : FS -> str -> bool;                 (* Path.exists() *)
  fs_is_dir : FS -> str -> bool;                 (* Path.is_dir() *)
  fs_unlink : str -> FS -> option FS;            (* Path.unlink() *)
  fs_rmtree : str -> FS -> option FS;            (* shutil.rmtree *)
  fs_mkdir_p : str -> FS -> option FS;           (* mkdir(parents=True, exist_ok=True) *)
  fs_copy2 : str -> str -> FS -> option FS;      (* shutil.copy2 *)
  fs_move : str -> str -> FS -> option FS;       (* shutil.move *)
  fs_write : str -> str -> FS -> option FS       (* open(p, 'wb').write(content) *)
}.

(** Code that runs against the file system and may raise. *)
Definition Run (FS A : Type) : Type := FS -> option (A * FS).

Definition ret {FS A : Type} (a : A) : Run FS A := fun fs => Some (a, fs).

Definition bind {FS A B : Type} (c : Run FS A) (k : A -> Run FS B) : Run FS B :=
  fun fs => match c fs with
            | Some (a, fs') => k a fs'
            | None => None
            end.

(** A call made for its effect. *)
Definition call {FS : Type} (op : FS -> option FS) : Run FS unit :=
  fun fs => match op fs with
            | Some fs' => Some (tt, fs')
            | None => None
            end.

(** [for x in l: body(x)] *)
Fixpoint for_each {FS A : Type} (l : list A) (body : A -> Run FS unit) : Run FS unit :=
  match l with
  | [] => ret tt
  | x :: rest => bind (body x) (fun _ => for_each rest body)
  end.

(** A store of regular files, from the full path to the bytes.  Directories
    are not represented: no path is a directory, creating one changes
    nothing, and a directory tree cannot be removed. *)
Definition FlatFS : Type := str -> option str.

Definition flat_set (fs : FlatFS) (p : str) (v : option str) : FlatFS :=
  fun q => if eqb q p then v else fs q.

Definition flat_exists (fs : FlatFS) (p : str) : bool :=
  match fs p with Some _ => true | None => false end.

Definition flat_unlink (p : str) (fs : FlatFS) : option FlatFS :=
  match fs p with
  | Some _ => Some (flat_set fs p None)
  | None => None
  end.

Definition flat_mkdir_p (p : str) (fs : FlatFS) : option FlatFS :=
  match fs p with
  | Some _ => None
  | None => Some fs
  end.

(** [shutil.copy2] of a regular file; copying a file onto itself raises
    [SameFileError]. *)
Definition flat_copy2 (src dst : str) (fs : FlatFS) : option FlatFS :=
  if eqb src dst then None
  else
    match fs src with
    | Some content => Some (flat_set fs dst (Some content))
    | None => None
    end.

(** [shutil.move] of a regular file is a rename: the destination is replaced. *)
Definition flat_move (src dst : str) (fs : FlatFS) : option FlatFS :=
  match fs src with
  | Some content => Some (flat_set (flat_set fs src None) dst (Some content))
  | None => None
  end.

Definition flat_write (p content : str) (fs : FlatFS) : option FlatFS :=
  Some (flat_set fs p (Some content)).

#[export] Instance FlatFileSystem : FileSystem FlatFS := {
  fs_exists := flat_exists;
  fs_is_dir := fun _ _ => false;
  fs_unlink := flat_unlink;
  fs_rmtree := fun _ _ => None;
  fs_mkdir_p := flat_mkdir_p;
  fs_copy2 := flat_copy2;
  fs_move := flat_move;
  fs_write := flat_write
}.

(** The store with no file. *)
Definition empty_fs : FlatFS := fun _ => None.

End Files.

Import Files.

(** ** fsr_manager.py *)

Module FSRManager.

(** The manager: [self.config_dir] and the cached [self.fsr4_dll_path]. *)
Record Manager := {
  config_dir : str;
  fsr4_dll_path : option str
}.

(** What the interactive selection meets: the versions found on disk
    ([find_available_fsr4_versions().items()], in order) and what the
    operator types. *)
Record Selection := {
  available_versions : list (str * str);
  version_choice : option Z;      (* int(input(...)); None for ValueError *)
  custom_answer : str;            (* "Do you want to specify a custom path?" *)
  custom_path : str               (* "Enter full path to amdxcffx64.dll" *)
}.

Definition DLL_NAME : str := lit "amdxcffx64.dll".

Section Manager.
Context {FS : Type} {HFS : FileSystem FS}.

(** [download_fsr4_dll]: a failed copy is caught and reported as [False]. *)
Definition download_fsr4_dll (sel : Selection) (m : Manager) (fs : FS)
  : bool * Manager * FS :=
  if eqb (lower (custom_answer sel)) (lit "y") then
    let source_dll := strip (custom_path sel) in
    if fs_exists fs source_dll then
      let target_dll := join (config_dir m) DLL_NAME in
      match fs_copy2 source_dll target_dll fs with
      | Some fs' =>
          (true, {| config_dir := config_dir m; fsr4_dll_path := Some target_dll |}, fs')
      | None => (false, m, fs)
      end
    else (false, m, fs)
  else (false, m, fs).

(** [select_fsr4_version]: [None] when the copy of the selected version
    raises, which the function does not catch. *)
Definition select_fsr4_version (sel : Selection) (m : Manager) (fs : FS)
  : option (bool * Manager * FS) :=
  match available_versions sel with
  | [] => Some (download_fsr4_dll sel m fs)
  | version_list =>
      match version_choice sel with
      | None => Some (false, m, fs)
      | Some choice =>
          let n := Z.of_nat (length version_list) in
          if ((1 <=? choice) && (choice <=? n))%Z then
            match nth_error version_list (Z.to_nat (choice - 1)) with
            | Some (_, selected_path) =>
                let target_dll := join (config_dir m) DLL_NAME in
                match fs_copy2 selected_path target_dll fs with
                | Some fs' =>
                    Some (true,
                          {| config_dir := config_dir m; fsr4_dll_path := Some target_dll |},
                          fs')
                | None => None
                end
            | None => Some (false, m, fs)
            end
          else if (choice =? n + 1)%Z then Some (download_fsr4_dll sel m fs)
          else Some (false, m, fs)
      end
  end.

(** [not self.fsr4_dll_path or not self.fsr4_dll_path.exists()] *)
Definition asset_missing (m : Manager) (fs : FS) : bool :=
  match fsr4_dll_path m with
  | None => true
  | Some p => negb (fs_exists fs p)
  end.

(** [compatdata_path / "pfx" / "drive_c" / "windows" / "system32"] *)
Definition system32_path (compatdata_path : str) : str :=
  join (join (join (join compatdata_path (lit "pfx")) (lit "drive_c"))
             (lit "windows")) (lit "system32").

(** The [try] around [shutil.copy2(self.fsr4_dll_path, target_dll)]: any
    exception is caught and gives [False]; with no path at all the call
    raises before it touches the disk. *)
Definition copy_active_asset (m : Manager) (target_dll : str) (fs : FS) : bool * FS :=
  match fsr4_dll_path m with
  | Some src =>
      match fs_copy2 src target_dll fs with
      | Some fs' => (true, fs')
      | None => (false, fs)
      end
  | None => (false, fs)
  end.

(** [copy_fsr4_dll_to_compatdata]: [None] when an exception leaves the
    function (from the selection or from [mkdir]). *)
Definition copy_fsr4_dll_to_compatdata (sel : Selection) (m : Manager)
  (app : str) (compatdata_path : str) (fs : FS) : option (bool * Manager * FS) :=
  let after_selection :=
    if asset_missing m fs then select_fsr4_version sel m fs
    else Some (true, m, fs) in
  match after_selection with
  | None => None
  | Some (false, m1, fs1) => Some (false, m1, fs1)
  | Some (true, m1, fs1) =>
      let system32 := system32_path compatdata_path in
      match fs_mkdir_p system32 fs1 with
      | None => None
      | Some fs2 =>
          let target_dll := join system32 DLL_NAME in
          let '(copied, fs3) := copy_active_asset m1 target_dll fs2 in
          Some (copied, m1, fs3)
      end
  end.

(** [remove_fsr4_dll_from_compatdata]: every exception is caught. *)
Definition remove_fsr4_dll_from_compatdata (app : str) (compatdata_path : str)
  : Run FS bool :=
  fun fs =>
    let target_dll := join (system32_path compatdata_path) DLL_NAME in
    if fs_exists fs target_dll then
      match fs_unlink target_dll fs with
      | Some fs' => Some (true, fs')
      | None => Some (false, fs)
      end
    else Some (true, fs).

(** *** Vocabulary for the statements about the copy *)



End Manager.

End FSRManager.

(** ** optiscaler_installer.py *)

Module OptiScalerInstaller.

Import SteamUtils FSRManager.

(** *** download_latest_nightly *)

(** An entry of ["assets"]. *)
Record Asset := {
  asset_name : str;               (* key "name" *)
  browser_download_url : str
}.

(** A release of the listing. *)
Record Release := {
  prerelease : bool;
  tag_name : str;
  assets : list Asset
}.

(** The two GET requests: the listing, and the content behind a download
    URL.  [None] stands for any exception ([requests.get], [raise_for_status],
    [json]). *)
Record Network := {
  get_releases : option (list Release);
  get_download : str -> option str
}.

(** [asset["name"].endswith((".zip", ".7z"))] *)
Definition is_archive (asset : Asset) : bool :=
  endswith (lit ".zip") (asset_name asset) || endswith (lit ".7z") (asset_name asset).

(** [release.get("prerelease", False) or release.get("tag_name") == "nightly"] *)
Definition is_nightly (release : Release) : bool :=
  prerelease release || eqb (tag_name release) (lit "nightly").

(** [for asset in release["assets"]]: the asset at which the loop returns. *)
Fixpoint scan_assets (l : list Asset) : option Asset :=
  match l with
  | [] => None
  | asset :: rest => if is_archive asset then Some asset else scan_assets rest
  end.

(** [for release in releases]: the asset at which the first loop returns. *)
Fixpoint scan_releases (releases : list Release) : option Asset :=
  match releases with
  | [] => None
  | release :: rest =>
      if is_nightly release then
        match scan_assets (assets release) with
        | Some asset => Some asset
        | None => scan_releases rest
        end
      else scan_releases rest
  end.

Section Installer.
Context {FS : Type} {HFS : FileSystem FS}.

(** The download of the chosen asset and the [return str(download_path)];
    an exception on the way ends in the [except] and gives [None]. *)
Definition download_asset (net : Network) (config_dir : str) (asset : Asset) (fs : FS)
  : option str * FS :=
  match get_download net (browser_download_url asset) with
  | None => (None, fs)
  | Some content =>
      let download_path := truediv config_dir (asset_name asset) in
      match fs_write download_path content fs with
      | Some fs' => (Some download_path, fs')
      | None => (None, fs)
      end
  end.

Definition download_latest_nightly (net : Network) (config_dir : str) (fs : FS)
  : option str * FS :=
  match get_releases net with
  | None => (None, fs)
  | Some releases =>
      match scan_releases releases with
      | Some asset => download_asset net config_dir asset fs
      | None =>
          match releases with
          | [] => (None, fs)
          | latest_release :: _ =>
              match scan_assets (assets latest_release) with
              | Some asset => download_asset net config_dir asset fs
              | None => (None, fs)
              end
          end
      end
  end.

(** The selection as the specification words it: one release is chosen,
    the first pre-release or nightly one, or else the first of the listing,
    and the archive is looked for within that release only. *)
Definition chosen_release (releases : list Release) : option Release :=
  match find is_nightly releases with
  | Some release => Some release
  | None => hd_error releases
  end.

Definition fetch_latest_build_as_specified (net : Network) (config_dir : str) (fs : FS)
  : option str * FS :=
  match get_releases net with
  | None => (None, fs)
  | Some releases =>
      match chosen_release releases with
      | None => (None, fs)
      | Some release =>
          match find is_archive (assets release) with
          | Some asset => download_asset net config_dir asset fs
          | None => (None, fs)
          end
      end
  end.

(** *** backup_original_files *)

Definition files_to_backup : list str :=
  map lit ["nvngx.dll"; "libxess.dll"; "amd_fidelityfx_fsr2.dll";
           "amd_fidelityfx_fsr3.dll"; "ffx_fsr2_api_x64.dll"]%string.

Definition BACKUP_SUFFIX : str := lit ".optiscaler_backup".

(** [backup_map[filename] = backup]: the value of an existing key is
    replaced, a new key goes to the end. *)
Fixpoint dict_set (d : list (str * str)) (k v : str) : list (str * str) :=
  match d with
  | [] => [(k, v)]
  | (k', v') :: rest =>
      if eqb k' k then (k, v) :: rest else (k', v') :: dict_set rest k v
  end.

Fixpoint backup_loop (target_dir : str) (names : list str) (backup_map : list (str * str))
  : Run FS (list (str * str)) :=
  match names with
  | [] => ret backup_map
  | filename :: rest =>
      let original_file := join target_dir filename in
      fun fs =>
        if fs_exists fs original_file then
          let backup_file := join target_dir (filename ++ BACKUP_SUFFIX) in
          bind (call (fs_copy2 original_file backup_file))
               (fun _ => backup_loop target_dir rest (dict_set backup_map filename backup_file))
               fs
        else backup_loop target_dir rest backup_map fs
  end.

Definition backup_original_files (target_dir : str) : Run FS (list (str * str)) :=
  backup_loop target_dir files_to_backup [].

(** The path of an original file and of its backup. *)
Definition original_path (target_dir filename : str) : str :=
  join target_dir filename.

Definition backup_path (target_dir filename : str) : str :=
  join target_dir (filename ++ BACKUP_SUFFIX).

(** *** uninstall_optiscaler *)

(** The persisted installation record. *)
Record InstallationRecord := {
  game : Game;
  install_path : str;
  exe_location : Location;
  timestamp : str;
  backup_files : list (str * str);
  zip_source : str;
  fsr4_dll_copied : bool
}.

Definition removal_scripts : list str :=
  map lit ["remove_optiscaler.sh"; "uninstall_optiscaler.sh"; "remove.sh";
           "uninstall.sh"]%string.

(** [run_optiscaler_removal_script]: the first script that exists is handed
    to a terminal (or to the operator), whose doings are [launch]; the
    function itself catches what it can raise. *)
Definition run_optiscaler_removal_script (launch : str -> FS -> FS)
  (install_dir : str) (fs : FS) : FS :=
  match find (fun script => fs_exists fs (join install_dir script)) removal_scripts with
  | Some script => launch (join install_dir script) fs
  | None => fs
  end.

Definition optiscaler_files : list str :=
  map lit ["OptiScaler.dll"; "OptiScaler.ini"; "OptiScaler.log"; "OptiScaler Setup.bat";
           "setup_linux.sh"; "setup_windows.bat"; "remove_optiscaler.sh";
           "dxgi.dll"; "winmm.dll"; "version.dll"; "dbghelp.dll";
           "d3d12.dll"; "wininet.dll"; "winhttp.dll"; "OptiScaler.asi";
           "nvngx.dll"; "libxess.dll"; "amd_fidelityfx_fsr2.dll";
           "amd_fidelityfx_fsr3.dll"; "ffx_fsr2_api_x64.dll"]%string.

Definition optiscaler_dirs : list str :=
  map lit ["D3D12_Optiscaler"; "DlssOverrides"; "Licenses"]%string.

(** The first clean-up loop. *)
Definition remove_files (install_dir : str) : Run FS unit :=
  for_each optiscaler_files (fun filename fs =>
    let file_path := join install_dir filename in
    if fs_exists fs file_path then call (fs_unlink file_path) fs
    else ret tt fs).

(** The second clean-up loop. *)
Definition remove_dirs (install_dir : str) : Run FS unit :=
  for_each optiscaler_dirs (fun dirname fs =>
    let dir_path := join install_dir dirname in
    if fs_exists fs dir_path && fs_is_dir fs dir_path then call (fs_rmtree dir_path) fs
    else ret tt fs).

(** The restore loop: every recorded backup that still exists is moved back
    to its original name. *)
Definition restore_backups (install_dir : str) (backups : list (str * str))
  : Run FS unit :=
  for_each backups (fun '(original_name, backup_path) fs =>
    let original_file := join install_dir original_name in
    if fs_exists fs backup_path then call (fs_move backup_path original_file) fs
    else ret tt fs).

(** The removal of the auxiliary asset; the result of the manager is not
    looked at. *)
Definition remove_asset (steam_path : option str) (install_info : InstallationRecord)
  : Run FS unit :=
  fun fs =>
    if fsr4_dll_copied install_info then
      match get_compatdata_path (fs_exists fs) steam_path (app_id (game install_info)) with
      | Some compatdata_path =>
          bind (remove_fsr4_dll_from_compatdata (app_id (game install_info)) compatdata_path)
               (fun _ => ret tt) fs
      | None => ret tt fs
      end
    else ret tt fs.

Definition uninstall_optiscaler (launch : str -> FS -> FS) (steam_path : option str)
  (install_info : InstallationRecord) : Run FS bool :=
  fun fs =>
    let dir := install_path install_info in
    bind (remove_files dir) (fun _ =>
    bind (remove_dirs dir) (fun _ =>
    bind (restore_backups dir (backup_files install_info)) (fun _ =>
    bind (remove_asset steam_path install_info) (fun _ =>
    ret true))))
    (run_optiscaler_removal_script launch dir fs).

End Installer.

(** *** configure_optiscaler_ini *)

(** ['Fsr4Update='] *)
Definition KEY_PREFIX : str := lit "Fsr4Update=".

(** ['Fsr4Update=true\n'] *)
Definition KEY_LINE : str := lit "Fsr4Update=true" ++ [LF].

(** ['[OptiScaler]'] *)
Definition SECTION_HEADER : str := lit "[OptiScaler]".

(** ['\n[OptiScaler]\nFsr4Update=true\n'], appended as one list element. *)
Definition NEW_SECTION : str :=
  [LF] ++ SECTION_HEADER ++ [LF] ++ KEY_LINE.

(** The content written when the file does not exist. *)
Definition ini_content : str :=
  SECTION_HEADER ++ [LF] ++
  KEY_LINE ++
  lit "Dx12Upscaler=auto" ++ [LF] ++
  lit "ColorResourceBarrier=auto" ++ [LF] ++
  lit "MotionVectorResourceBarrier=auto" ++ [LF] ++
  lit "OverrideNvapiDll=auto" ++ [LF].

(** [line.strip().startswith('Fsr4Update=')] *)
Definition is_key_line (line : str) : bool :=
  startswith KEY_PREFIX (strip line).

(** The first loop: the first key line becomes [KEY_LINE]; [None] when the
    loop ends with [fsr4_found] still false. *)
Fixpoint set_first_key (lines : list str) : option (list str) :=
  match lines with
  | [] => None
  | line :: rest =>
      if is_key_line line then Some (KEY_LINE :: rest)
      else option_map (cons line) (set_first_key rest)
  end.

(** The second loop, from the line at hand on: [None] when it ends without
    [break] (the [else] of the [for]).  [i == len(lines) - 1] holds exactly
    when no line follows. *)
Fixpoint insert_key (in_optiscaler_section : bool) (lines : list str)
  : option (list str) :=
  match lines with
  | [] => None
  | line :: rest =>
      if eqb (strip line) SECTION_HEADER then
        option_map (cons line) (insert_key true rest)
      else if in_optiscaler_section &&
              (startswith (lit "[") line ||
               match rest with [] => true | _ :: _ => false end) then
        if startswith (lit "[") line then Some (KEY_LINE :: line :: rest)
        else Some (line :: KEY_LINE :: rest)
      else option_map (cons line) (insert_key in_optiscaler_section rest)
  end.

(** The [else] branch of [ini_path.exists()], on the list of lines. *)
Definition update_lines (lines : list str) : list str :=
  match set_first_key lines with
  | Some lines' => lines'
  | None =>
      match insert_key false lines with
      | Some lines' => lines'
      | None => lines ++ [NEW_SECTION]
      end
  end.

(** [configure_optiscaler_ini]: from the content of [OptiScaler.ini]
    ([None] when the file does not exist) to its content afterwards. *)
Definition configure_optiscaler_ini (ini : option str) : str :=
  match ini with
  | None => ini_content
  | Some raw => writelines (update_lines (readlines (universal_newlines raw)))
  end.

(** Two calls in a row. *)
Definition configure_twice (ini : option str) : str :=
  configure_optiscaler_ini (Some (configure_optiscaler_ini ini)).

(** *** Vocabulary for the statements about the config file *)

(** The lines of a document as the step reads them. *)
Definition lines_of (doc : str) : list str := readlines (universal_newlines doc).

(** The lines that set the key, whatever the value. *)
Definition key_lines (doc : str) : list str := filter is_key_line (lines_of doc).

(** The lines that read [Fsr4Update=true] once stripped. *)
Definition true_lines (doc : str) : list str :=
  filter (fun line => eqb (strip line) (lit "Fsr4Update=true")) (lines_of doc).

(** A complete line: one LF, at the end. *)
Definition terminated (line : str) : Prop :=
  exists body, line = body ++ [LF] /\ ~ In LF body.

(** The shape of what [readlines] returns. *)
Inductive lines_ok : list str -> Prop :=
| ok_nil : lines_ok []
| ok_open line : line <> [] -> ~ In LF line -> lines_ok [line]
| ok_cons line rest : terminated line -> lines_ok rest -> lines_ok (line :: rest).

(** What the file reads as after a key line was inserted: at most one key
    line; if the merged last line hides the key, every line is complete; and
    if every line was complete, the key line is there. *)
Definition inserted_well (lines lines' : list str) : Prop :=
  let after := readlines (concat lines') in
  length (filter is_key_line after) <= 1 /\
  (filter is_key_line after = [] -> Forall terminated after) /\
  (Forall terminated lines -> filter is_key_line after = [KEY_LINE]).

(** What the backup loop maintains: only backup paths differ from the
    directory as it was, and every recorded backup holds the bytes of its
    original. *)
Record backed_up (target_dir : str) (fs0 fs : FlatFS) (backup_map : list (str * str)) : Prop := {
  backed_elsewhere : forall q, (forall n, q <> backup_path target_dir n) -> fs q = fs0 q;
  backed_entries : forall n b, In (n, b) backup_map ->
      b = backup_path target_dir n /\ fs b = fs0 (original_path target_dir n) /\ fs0 (original_path target_dir n) <> None;
  backed_changes : forall q, fs q = fs0 q \/ exists n, In (n, q) backup_map
}.

End OptiScalerInstaller.

(** ** cli.py *)

Module Cli.

Import SteamUtils FSRManager OptiScalerInstaller.

(** Python list indexing: the position an index stands for, [None] for the
    [IndexError]. *)
Definition py_index {A : Type} (l : list A) (i : Z) : option nat :=
  let n := Z.of_nat (length l) in
  if ((0 <=? i) && (i <? n))%Z then Some (Z.to_nat i)
  else if ((- n <=? i) && (i <? 0))%Z then Some (Z.to_nat (n + i))
  else None.

(** [l[i]] *)
Definition py_get {A : Type} (l : list A) (i : Z) : option A :=
  match py_index l i with
  | Some k => nth_error l k
  | None => None
  end.

Fixpoint remove_nth {A : Type} (k : nat) (l : list A) : list A :=
  match l, k with
  | [], _ => []
  | _ :: rest, O => rest
  | x :: rest, S k' => x :: remove_nth k' rest
  end.

(** [l.pop(i)], the list that is left. *)
Definition py_pop {A : Type} (l : list A) (i : Z) : option (list A) :=
  match py_index l i with
  | Some k => Some (remove_nth k l)
  | None => None
  end.

(** The disk and the ledger document ([installations.json], [None] while it
    does not exist). *)
Record World (FS : Type) := {
  disk : FS;
  ledger : option (list InstallationRecord)
}.

Arguments disk {FS} w.
Arguments ledger {FS} w.

(** [load_installations] *)
Definition load_installations {FS : Type} (w : World FS) : list InstallationRecord :=
  match ledger w with
  | Some installs => installs
  | None => []
  end.

Inductive Outcome :=
| NoInstallations        (* "No installations to uninstall" *)
| InvalidSelection       (* "Invalid selection" *)
| UninstallCancelled     (* "Uninstall cancelled" *)
| Uninstalled            (* "OptiScaler uninstalled successfully!" *)
| UninstallFailed.       (* "Uninstallation failed" *)

Section Menu.
Context {FS : Type} {HFS : FileSystem FS}.

(** Choice 4 of the menu.  [typed_number] is [int(input(...))] ([None] for
    the [ValueError]), [confirmation] the answer to "Are you sure".  The
    result is [None] when an exception of [uninstall_optiscaler] leaves the
    menu. *)
Definition uninstall_choice (launch : str -> FS -> FS) (steam_path : option str)
  (typed_number : option Z) (confirmation : str) (w : World FS)
  : option (Outcome * World FS) :=
  let installs := load_installations w in
  match installs with
  | [] => Some (NoInstallations, w)
  | _ :: _ =>
      match typed_number with
      | None => Some (InvalidSelection, w)
      | Some number =>
          let install_idx := (number - 1)%Z in
          match py_get installs install_idx with
          | None => Some (InvalidSelection, w)
          | Some selected_install =>
              if negb (eqb (lower confirmation) (lit "y")) then
                Some (UninstallCancelled, w)
              else
                match uninstall_optiscaler launch steam_path selected_install (disk w) with
                | None => None
                | Some (true, fs') =>
                    match py_pop installs install_idx with
                    | Some installs' =>
                        Some (Uninstalled, {| disk := fs'; ledger := Some installs' |})
                    | None => Some (InvalidSelection, {| disk := fs'; ledger := ledger w |})
                    end
                | Some (false, fs') =>
                    Some (UninstallFailed, {| disk := fs'; ledger := ledger w |})
                end
          end
      end
  end.

End Menu.

End Cli.

(** ** Concrete inputs used in the examples *)

Module Examples.

Import SteamUtils FSRManager OptiScalerInstaller Cli.

(** A game root with two executables, one of them named after the engine
    version, and a sub-directory with two more. *)
Definition game_dir : str := lit "/games/Foo".

Definition root_game : DirEntry :=
  {| rel_dir := []; entry_name := lit "Game.exe"; is_file := true |}.
Definition root_ue4 : DirEntry :=
  {| rel_dir := []; entry_name := lit "UE4Game.exe"; is_file := true |}.
Definition sub_ue4 : DirEntry :=
  {| rel_dir := [lit "Sub"]; entry_name := lit "ue4thing.exe"; is_file := true |}.
Definition sub_tool : DirEntry :=
  {| rel_dir := [lit "Sub"]; entry_name := lit "thing.exe"; is_file := true |}.

(** A config file whose last line has no newline, and one with the key set
    to false in a section of its own. *)
Definition ini_open_last_line : str :=
  lit "[OptiScaler]" ++ [LF] ++ lit "Dx12Upscaler=auto".

Definition ini_key_in_other_section : str :=
  lit "[Other]" ++ [LF] ++ lit "Fsr4Update=false" ++ [LF] ++
  lit "[OptiScaler]" ++ [LF] ++ lit "Dx12Upscaler=auto" ++ [LF].

(** A listing whose first entry is a stable release with an archive and
    whose second entry is a pre-release without any. *)
Definition stable_release : Release :=
  {| prerelease := false;
     tag_name := lit "v0.7.7";
     assets := [ {| asset_name := lit "OptiScaler_0.7.7.7z";
                    browser_download_url := lit "https://example.org/OptiScaler_0.7.7.7z" |} ] |}.

Definition bare_nightly : Release :=
  {| prerelease := true;
     tag_name := lit "nightly";
     assets := [ {| asset_name := lit "notes.txt";
                    browser_download_url := lit "https://example.org/notes.txt" |} ] |}.

Definition network : Network :=
  {| get_releases := Some [stable_release; bare_nightly];
     get_download := fun _ => Some (lit "archive bytes") |}.

Definition user_config_dir : str := lit "/home/user/.config/optiscaler_manager".

(** A manager without an asset, and an operator who finds no version on
    disk and declines to give a path. *)
Definition manager_without_asset : Manager :=
  {| config_dir := user_config_dir; fsr4_dll_path := None |}.


(** A ledger entry. *)
Definition tf2 : Game :=
  {| app_id := lit "440";
     name := lit "Team Fortress 2";
     install_dir := lit "Team Fortress 2";
     game_path := lit "/steam/steamapps/common/Team Fortress 2";
     library_path := lit "/steam" |}.

Definition tf2_record : InstallationRecord :=
  {| game := tf2;
     install_path := lit "/steam/steamapps/common/Team Fortress 2";
     exe_location :=
       {| path := lit "/steam/steamapps/common/Team Fortress 2";
          exe_name := lit "hl2.exe";
          exe_type := MainGameDirectory;
          priority := 1;
          relative_path := lit "." |};
     timestamp := lit "2025-01-01T12:00:00.000000";
     backup_files := [];
     zip_source := lit "/home/user/.config/optiscaler_manager/OptiScaler.7z";
     fsr4_dll_copied := false |}.

(** A terminal that changes nothing. *)
Definition idle_terminal (script : str) (fs : FlatFS) : FlatFS := fs.

(** A game directory that holds one of the vendor DLLs. *)
Definition vendor_dir : FlatFS :=
  fun p => if eqb p (lit "/games/Foo/nvngx.dll") then Some (lit "vendor bytes")
           else None.

End Examples.

(** ** Manifest files as Steam writes them *)

Module Manifests.

Import SteamUtils.

Definition TAB : ascii := ascii_of_nat 9.

(** One key/value line: a tab, the key and the value between double quotes
    with two tabs in between, and a line feed. *)
Definition acf_line (key value : str) : str :=
  TAB :: quoted key ++ [TAB; TAB] ++ quoted value ++ [LF].

(** A manifest with the three values the enumeration reads. *)
Definition acf_manifest (id nm dir : str) : str :=
  quoted (lit "AppState") ++ [LF] ++
  lit "{" ++ [LF] ++
  acf_line (lit "appid") id ++
  acf_line (lit "name") nm ++
  acf_line (lit "installdir") dir ++
  lit "}" ++ [LF].

(** The text of a key/value line once stripped. *)
Definition stripped_line (key value : str) : str :=
  quoted key ++ [TAB; TAB] ++ quoted value.

(** A value that can stand between double quotes on one line. *)
Definition plain (v : str) : Prop :=
  v <> [] /\ ~ In QUOTE v /\ ~ In LF v /\ ~ In CR v.

(** A line that names one of the three keys but has fewer than four pieces
    between double quotes. *)
Definition malformed_key_line (raw_line : str) : Prop :=
  let line := strip raw_line in
  (startswith (quoted (lit "appid")) line ||
   startswith (quoted (lit "name")) line ||
   startswith (quoted (lit "installdir")) line) = true /\
  quoted_value line = None.

End Manifests.

(** ** steam_utils.py: the libraries *)

Module Libraries.

Import SteamUtils.

(** *** The pattern of the library folders file *)

(** The characters of [s] before its first double quote, when there is one. *)
Fixpoint until_quote (s : str) : option str :=
  match s with
  | [] => None
  | c :: s' =>
      if ascii_dec c QUOTE then Some []
      else match until_quote s' with
           | Some v => Some (c :: v)
           | None => None
           end
  end.

(** A match of the pattern: the key "path" between double quotes, any white
    space, and a non-empty run of characters other than the double quote
    between double quotes.  The result is the run and the number of
    characters matched. *)
Definition match_path (s : str) : option (str * nat) :=
  if startswith (quoted (lit "path")) s then
    let after_key := skipn 6 s in
    let blanks := length after_key - length (lstrip after_key) in
    match lstrip after_key with
    | c :: rest =>
        if ascii_dec c QUOTE then
          match until_quote rest with
          | Some (v :: value) =>
              Some (v :: value, 6 + blanks + 1 + length (v :: value) + 1)
          | _ => None
          end
        else None
    | [] => None
    end
  else None.

(** [re.findall]: the text is scanned from left to right; after a match the
    scan goes on behind it ([skip] counts the characters of the match still
    to pass). *)
Fixpoint findall_from (s : str) (skip : nat) : list str :=
  match s with
  | [] => []
  | c :: s' =>
      match skip with
      | S k => findall_from s' k
      | O =>
          match match_path s with
          | Some (value, n) => value :: findall_from s' (n - 1)
          | None => findall_from s' 0
          end
      end
  end.

Definition findall_paths (content : str) : list str := findall_from content 0.

(** *** find_all_steam_libraries *)

(** [lib in libraries] *)
Definition listed_in (libraries : list str) (lib : str) : bool :=
  existsb (eqb lib) libraries.

(** The loop over the paths of the library folders file. *)
Definition add_registered (d : Disk) (libraries : list str) (path_str : str)
  : list str :=
  let library_path := Path path_str in
  if disk_exists d library_path && negb (listed_in libraries library_path)
  then libraries ++ [library_path]
  else libraries.

(** The loop over the libraries found on the drives. *)
Definition add_scanned (libraries : list str) (lib : str) : list str :=
  if listed_in libraries lib then libraries else libraries ++ [lib].

(** The paths the library folders file of the Steam root registers; none
    when the file is missing or cannot be read. *)
Definition registered_paths (d : Disk) (steam : str) : list str :=
  let library_config :=
    truediv (truediv steam (lit "steamapps")) (lit "libraryfolders.vdf") in
  if disk_exists d library_config then
    match read_text d library_config with
    | Some content => findall_paths (universal_newlines content)
    | None => []
    end
  else [].

(** [find_all_steam_libraries], given [self.steam_path] and what
    [_scan_all_drives_for_steam] returns. *)
Definition find_all_steam_libraries (d : Disk) (steam_path : option str)
  (additional_libraries : list str) : list str :=
  let libraries :=
    match steam_path with
    | Some steam => fold_left (add_registered d) (registered_paths d steam) [steam]
    | None => []
    end in
  fold_left add_scanned additional_libraries libraries.

(** *** Vocabulary for the statements about the pattern *)

(** An entry of the library folders file as Steam writes it. *)
Definition vdf_entry (value : str) : str :=
  [ascii_of_nat 9; ascii_of_nat 9] ++ quoted (lit "path") ++
  [ascii_of_nat 9; ascii_of_nat 9] ++ quoted value ++ [LF].

(** The text has, somewhere, the key "path" between double quotes, white
    space, and [value] between double quotes. *)
Definition registers (content value : str) : Prop :=
  exists before blanks after,
    content = before ++ quoted (lit "path") ++ blanks ++ quoted value ++ after /\
    forallb is_space blanks = true.

End Libraries.

(** ** The ledger of installations *)

Module Ledger.

Import OptiScalerInstaller Cli.

(** [save_installation]: the ledger is loaded, the record appended, and the
    list written back. *)
Definition save_installation {FS : Type} (install_info : InstallationRecord)
  (w : World FS) : World FS :=
  {| disk := disk w; ledger := Some (load_installations w ++ [install_info]) |}.

End Ledger.

(** ** More concrete inputs *)

Module Inputs.

Import SteamUtils FSRManager OptiScalerInstaller Cli Manifests Libraries.

(** A game root whose own name trips the path filter. *)
Definition marked_game_dir : str := lit "/games/Crash Bandicoot".

(** A library with one manifest and the game it points to. *)
Definition tf2_manifest_file : str := lit "/steam/steamapps/appmanifest_440.acf".

Definition steam_disk : Disk :=
  {| disk_exists := fun p =>
       eqb p (lit "/steam/steamapps") ||
       eqb p (lit "/steam/steamapps/common/Team Fortress 2");
     st_mtime_ns := fun _ => Some 0%Z;
     manifest_files := fun p =>
       if eqb p (lit "/steam/steamapps") then [tf2_manifest_file] else [];
     read_text := fun p =>
       if eqb p tf2_manifest_file then
         Some (acf_manifest (lit "440") (lit "Team Fortress 2") (lit "Team Fortress 2"))
       else None |}.

(** The same library with a manifest cut short after the key. *)
Definition cut_manifest : str := quoted (lit "appid") ++ [LF].

Definition broken_disk : Disk :=
  {| disk_exists := disk_exists steam_disk;
     st_mtime_ns := st_mtime_ns steam_disk;
     manifest_files := manifest_files steam_disk;
     read_text := fun p => if eqb p tf2_manifest_file then Some cut_manifest else None |}.

(** Two library folders. *)
Definition mnt_games : str := lit "/mnt/games".
Definition data_library : str := lit "/data/SteamLibrary".

(** The same game in two libraries: the copy of the first library was
    modified 10 ns after 14 November 2023 22:13:20 UTC, the copy of the
    second one 100 ns after it. *)
Definition second_manifest_file : str :=
  lit "/mnt/games/steamapps/appmanifest_440.acf".

Definition second_copy : Game :=
  {| app_id := lit "440";
     name := lit "Team Fortress 2";
     install_dir := lit "Team Fortress 2";
     game_path := lit "/mnt/games/steamapps/common/Team Fortress 2";
     library_path := mnt_games |}.

Definition two_copies_disk : Disk :=
  {| disk_exists := fun p =>
       existsb (eqb p)
         [lit "/steam/steamapps"; lit "/mnt/games/steamapps";
          game_path Examples.tf2; game_path second_copy];
     st_mtime_ns := fun p =>
       if eqb p (game_path Examples.tf2) then Some 1700000000000000010%Z
       else if eqb p (game_path second_copy) then Some 1700000000000000100%Z
       else None;
     manifest_files := fun p =>
       if eqb p (lit "/steam/steamapps") then [tf2_manifest_file]
       else if eqb p (lit "/mnt/games/steamapps") then [second_manifest_file]
       else [];
     read_text := fun p =>
       if eqb p tf2_manifest_file || eqb p second_manifest_file then
         Some (acf_manifest (lit "440") (lit "Team Fortress 2") (lit "Team Fortress 2"))
       else None |}.

(** An operator who picks the first version found on disk, and the store
    that holds it. *)
Definition bundled_dll : str := lit "/home/user/Downloads/FSR 4.0.1/amdxcffx64.dll".

Definition picking_operator : Selection :=
  {| available_versions := [(lit "FSR 4.0.1", bundled_dll)];
     version_choice := Some 1%Z;
     custom_answer := lit "n";
     custom_path := [] |}.

Definition downloads : FlatFS :=
  fun p => if eqb p bundled_dll then Some (lit "asset bytes") else None.

Definition selected_dll : str := join Examples.user_config_dir DLL_NAME.

Definition manager_with_asset : Manager :=
  {| config_dir := Examples.user_config_dir; fsr4_dll_path := Some selected_dll |}.

Definition after_selection : FlatFS :=
  flat_set downloads selected_dll (Some (lit "asset bytes")).

Definition tf2_compatdata : str := lit "/steam/steamapps/compatdata/440".

Definition after_copy : FlatFS :=
  flat_set after_selection (join (system32_path tf2_compatdata) DLL_NAME)
    (Some (lit "asset bytes")).

(** The archive of the stable release, once written. *)
Definition stable_archive : str :=
  truediv Examples.user_config_dir (lit "OptiScaler_0.7.7.7z").

Definition after_fetch : FlatFS :=
  flat_set empty_fs stable_archive (Some (lit "archive bytes")).

(** An installation over a vendor DLL: the record names its backup, and the
    directory holds the backup and the shim under the vendor's name. *)
Definition foo_record : InstallationRecord :=
  {| game := Examples.tf2;
     install_path := Examples.game_dir;
     exe_location := exe_location Examples.tf2_record;
     timestamp := timestamp Examples.tf2_record;
     backup_files :=
       [(lit "nvngx.dll", backup_path Examples.game_dir (lit "nvngx.dll"))];
     zip_source := zip_source Examples.tf2_record;
     fsr4_dll_copied := false |}.

Definition installed_dir : FlatFS :=
  fun p =>
    if eqb p (backup_path Examples.game_dir (lit "nvngx.dll")) then
      Some (lit "vendor bytes")
    else if eqb p (join Examples.game_dir (lit "nvngx.dll")) then
      Some (lit "shim bytes")
    else None.

(** Config files: a section followed by another one, and a file that ends
    with the header of the section. *)
Definition ini_two_sections : str :=
  lit "[OptiScaler]" ++ [LF] ++ lit "Dx12Upscaler=auto" ++ [LF] ++
  lit "[Other]" ++ [LF] ++ lit "Foo=1" ++ [LF].

Definition ini_header_last : str :=
  lit "[Other]" ++ [LF] ++ lit "Foo=1" ++ [LF] ++ lit "[OptiScaler]" ++ [LF].

(** A second ledger entry, and a ledger of two. *)
Definition foo_entry : InstallationRecord :=
  {| game := Examples.tf2;
     install_path := Examples.game_dir;
     exe_location := exe_location Examples.tf2_record;
     timestamp := timestamp Examples.tf2_record;
     backup_files := [];
     zip_source := zip_source Examples.tf2_record;
     fsr4_dll_copied := false |}.

Definition two_entries : World FlatFS :=
  {| disk := empty_fs; ledger := Some [Examples.tf2_record; foo_entry] |}.

Definition one_entry : World FlatFS :=
  {| disk := empty_fs; ledger := Some [Examples.tf2_record] |}.

End Inputs.

(* ===================================================================== *)
(** * Part II: properties                                                  *)
(* ===================================================================== *)

(** ** Strings *)

Section PyStrFacts.

Lemma eqb_eq (a b : str) : eqb a b = true <-> a = b.
Proof.
  unfold eqb. destruct (list_eq_dec ascii_dec a b); split; congruence.
Qed.

Lemma eqb_neq (a b : str) : eqb a b = false <-> a <> b.
Proof.
  unfold eqb. destruct (list_eq_dec ascii_dec a b); split; congruence.
Qed.

Lemma eqb_refl (a : str) : eqb a a = true.
Proof. now apply eqb_eq. Qed.

Lemma ascii_compare_eq (x y : ascii) : Ascii.compare x y = Eq <-> x = y.
Proof.
  split; [apply Ascii.compare_eq_iff|].
  intros ->. unfold Ascii.compare. apply N.compare_refl.
Qed.

Lemma ascii_compare_opp (x y : ascii) :
  Ascii.compare y x = CompOpp (Ascii.compare x y).
Proof. apply Ascii.compare_antisym. Qed.

Lemma ascii_compare_trans (x y z : ascii) (c : comparison) :
  Ascii.compare x y = c -> Ascii.compare y z = c -> Ascii.compare x z = c.
Proof.
  unfold Ascii.compare. destruct c; intros H1 H2.
  - apply N.compare_eq_iff in H1, H2. apply N.compare_eq_iff. congruence.
  - rewrite N.compare_lt_iff in *. lia.
  - rewrite N.compare_gt_iff in *. lia.
Qed.

Lemma ltb_irrefl (a : str) : ltb a a = false.
Proof.
  unfold ltb, compare.
  now rewrite (proj2 (list_compare_refl _ ascii_compare_eq a a) eq_refl).
Qed.

Lemma ltb_trans (a b c : str) : ltb a b = true -> ltb b c = true -> ltb a c = true.
Proof.
  unfold ltb, compare. intros H1 H2.
  destruct (list_compare Ascii.compare a b) eqn:E1; try discriminate.
  destruct (list_compare Ascii.compare b c) eqn:E2; try discriminate.
  now rewrite (list_compare_trans _ ascii_compare_eq a b c
                 ascii_compare_trans ascii_compare_opp E1 E2).
Qed.

Lemma ltb_total (a b : str) : ltb a b = false -> ltb b a = false -> a = b.
Proof.
  unfold ltb, compare. intros H1 H2.
  rewrite (list_compare_antisym _ ascii_compare_eq a b ascii_compare_opp) in H2.
  destruct (list_compare Ascii.compare a b) eqn:E; simpl in *; try discriminate.
  now apply (list_compare_refl _ ascii_compare_eq).
Qed.

End PyStrFacts.

(** ** The executable ranker *)

Section Ranker.

Import SteamUtils.

Variable game_dir : str.

#[local] Abbreviation ranked := (SteamUtils.ranked game_dir).

(** *** The record kept for a directory *)

Lemma update_existing_paths info l :
  In (path info) (map path l) ->
  map path (update_existing info l) = map path l.
Proof.
  induction l as [|a l IH]; simpl; intros H; [easy|].
  destruct (eqb (path a) (path info)) eqn:E.
  - apply eqb_eq in E. simpl. now rewrite E.
  - simpl. f_equal. apply IH. destruct H as [H|H]; [|easy].
    apply eqb_neq in E. congruence.
Qed.

Lemma update_existing_in info l x :
  In x (update_existing info l) -> x = info \/ In x l.
Proof.
  induction l as [|a l IH]; simpl; [easy|].
  destruct (eqb (path a) (path info)); simpl; intuition.
Qed.

Lemma update_existing_has info l :
  In (path info) (map path l) -> In info (update_existing info l).
Proof.
  induction l as [|a l IH]; simpl; [easy|].
  destruct (eqb (path a) (path info)) eqn:E; simpl; [now left|].
  intros [H|H]; [apply eqb_neq in E; congruence | right; auto].
Qed.

Lemma update_existing_other info l x :
  In x l -> path x <> path info -> In x (update_existing info l).
Proof.
  induction l as [|a l IH]; simpl; [easy|].
  intros [->|H] Hne.
  - apply eqb_neq in Hne. rewrite Hne. now left.
  - destruct (eqb (path a) (path info)); simpl; auto.
Qed.

Lemma find_path_some (p : str) l x :
  find (fun loc => eqb (path loc) p) l = Some x -> In x l /\ path x = p.
Proof.
  intros H. apply find_some in H. now rewrite eqb_eq in H.
Qed.

Lemma find_path_none (p : str) l :
  find (fun loc => eqb (path loc) p) l = None -> ~ In p (map path l).
Proof.
  intros H Hin. apply in_map_iff in Hin as (x & Hx & Hin).
  apply (find_none _ _ H) in Hin. apply eqb_neq in Hin. congruence.
Qed.

Lemma NoDup_path_inj l (a b : Location) :
  NoDup (map path l) -> In a l -> In b l -> path a = path b -> a = b.
Proof.
  induction l as [|x l IH]; simpl; [easy|].
  intros Hnd [->|Ha] [->|Hb] E; inversion Hnd; subst; auto.
  - exfalso. apply H1. rewrite E. now apply in_map.
  - exfalso. apply H1. rewrite <- E. now apply in_map.
Qed.


Lemma ranked_nil : ranked (fun _ => False) [].
Proof. split; simpl; [constructor | easy | easy]. Qed.

Lemma ranked_visit seen acc e :
  ranked seen acc ->
  ranked (fun x => seen x \/ x = e) (visit game_dir acc e).
Proof.
  intros [Hnd Hfrom Hmin]. unfold visit.
  destruct (classify game_dir e) as [[t p]|] eqn:Hc.
  2:{ split; auto.
      - intros loc Hin. destruct (Hfrom loc Hin) as (e' & t' & ? & ? & ?).
        exists e', t'. auto.
      - intros e' t' p' [Hs| ->] Hc'; [eauto | congruence]. }
  cbn zeta.
  set (info := location_info game_dir e t p).
  assert (Hinfo : exists e0 t0, (seen e0 \/ e0 = e) /\
             classify game_dir e0 = Some (t0, priority info) /\
             info = location_info game_dir e0 t0 (priority info)).
  { exists e, t. simpl. auto. }
  assert (Hold : forall loc, In loc acc ->
             exists e0 t0, (seen e0 \/ e0 = e) /\
               classify game_dir e0 = Some (t0, priority loc) /\
               loc = location_info game_dir e0 t0 (priority loc)).
  { intros loc Hin. destruct (Hfrom loc Hin) as (e' & t' & ? & ? & ?).
    exists e', t'. auto. }
  destruct (find _ acc) as [existing|] eqn:Hf.
  - apply find_path_some in Hf as [Hex Hpath].
    assert (Hinp : In (path info) (map path acc)).
    { rewrite <- Hpath. now apply in_map. }
    destruct (p <? priority existing) eqn:Hlt.
    + apply Nat.ltb_lt in Hlt. split.
      * now rewrite update_existing_paths.
      * intros loc Hin. apply update_existing_in in Hin as [->|Hin]; auto.
      * intros e' t' p' [Hs| ->] Hc'.
        -- destruct (Hmin _ _ _ Hs Hc') as (loc & Hin & Hp & Hle).
           destruct (list_eq_dec ascii_dec (path loc) (path info)) as [E|E].
           ++ exists info. split; [now apply update_existing_has|].
              split; [congruence|].
              assert (loc = existing) as -> by
                (apply (NoDup_path_inj acc); auto; congruence).
              simpl. lia.
           ++ exists loc. split; [now apply update_existing_other|]. auto.
        -- exists info. split; [now apply update_existing_has|].
           rewrite Hc in Hc'. inversion Hc'; subst. simpl. auto.
    + apply Nat.ltb_ge in Hlt. split; auto.
      intros e' t' p' [Hs| ->] Hc'; [eauto|].
      rewrite Hc in Hc'. inversion Hc'; subst.
      exists existing. auto.
  - apply find_path_none in Hf. split.
    + rewrite map_app. simpl.
      apply NoDup_app; [assumption| repeat constructor; easy |].
      intros x Hx [<-|[]]. contradiction.
    + intros loc Hin. apply in_app_iff in Hin as [Hin|[<-|[]]]; auto.
    + intros e' t' p' [Hs| ->] Hc'.
      * destruct (Hmin _ _ _ Hs Hc') as (loc & Hin & Hp & Hle).
        exists loc. rewrite in_app_iff. auto.
      * rewrite Hc in Hc'. inversion Hc'; subst.
        exists info. rewrite in_app_iff. simpl. auto.
Qed.

Lemma ranked_ext (seen seen' : DirEntry -> Prop) acc :
  (forall x, seen x <-> seen' x) -> ranked seen acc -> ranked seen' acc.
Proof.
  intros Hext [Hnd Hfrom Hmin]. split; auto.
  - intros loc Hin. destruct (Hfrom loc Hin) as (e & t & ? & ? & ?).
    exists e, t. rewrite <- Hext. auto.
  - intros e t p Hs. apply Hmin. now apply Hext.
Qed.

Lemma ranked_fold l : forall seen acc,
  ranked seen acc ->
  ranked (fun x => seen x \/ In x l) (fold_left (visit game_dir) l acc).
Proof.
  induction l as [|e l IH]; simpl; intros seen acc H.
  - eapply ranked_ext; [|exact H]. intuition.
  - eapply ranked_ext; [|apply IH, ranked_visit, H].
    simpl. intuition.
Qed.

Lemma ranked_walk l :
  ranked (fun x => In x l) (fold_left (visit game_dir) l []).
Proof.
  eapply ranked_ext; [|apply ranked_fold, ranked_nil]. simpl. intuition.
Qed.

(** *** The final sort *)

Lemma key_ltb_irrefl k : key_ltb k k = false.
Proof.
  destruct k as [[p d] s]. simpl.
  rewrite !Nat.ltb_irrefl. apply ltb_irrefl.
Qed.

Lemma key_ltb_trans a b c :
  key_ltb a b = true -> key_ltb b c = true -> key_ltb a c = true.
Proof.
  destruct a as [[p1 d1] s1], b as [[p2 d2] s2], c as [[p3 d3] s3]. simpl.
  destruct (Nat.ltb_spec p1 p2), (Nat.ltb_spec p2 p1),
           (Nat.ltb_spec p2 p3), (Nat.ltb_spec p3 p2),
           (Nat.ltb_spec p1 p3), (Nat.ltb_spec p3 p1);
    try lia; try easy;
  destruct (Nat.ltb_spec d1 d2), (Nat.ltb_spec d2 d1),
           (Nat.ltb_spec d2 d3), (Nat.ltb_spec d3 d2),
           (Nat.ltb_spec d1 d3), (Nat.ltb_spec d3 d1);
    try lia; try easy.
  apply ltb_trans.
Qed.

Lemma key_ltb_total a b :
  key_ltb a b = false -> key_ltb b a = false -> a = b.
Proof.
  destruct a as [[p1 d1] s1], b as [[p2 d2] s2]. simpl.
  destruct (Nat.ltb_spec p1 p2), (Nat.ltb_spec p2 p1); try lia; try easy.
  destruct (Nat.ltb_spec d1 d2), (Nat.ltb_spec d2 d1); try lia; try easy.
  intros Hab Hba. rewrite (ltb_total _ _ Hab Hba).
  repeat f_equal; lia.
Qed.

Section SortFacts.
Variables (A K : Type) (key : A -> K) (lt : K -> K -> bool).

Lemma insert_sorted_perm x l :
  Permutation (insert_sorted key lt x l) (x :: l).
Proof.
  induction l as [|y l IH]; simpl; [reflexivity|].
  destruct (lt (key y) (key x)); [|reflexivity].
  rewrite IH. apply perm_swap.
Qed.

Lemma sort_by_perm l : Permutation (sort_by key lt l) l.
Proof.
  induction l as [|x l IH]; simpl; [reflexivity|].
  rewrite insert_sorted_perm. now constructor.
Qed.

Hypothesis lt_irrefl : forall k, lt k k = false.
Hypothesis lt_trans : forall a b c, lt a b = true -> lt b c = true -> lt a c = true.
Hypothesis lt_total : forall a b, lt a b = false -> lt b a = false -> a = b.

Lemma lt_asym a b : lt a b = true -> lt b a = false.
Proof.
  intros H. destruct (lt b a) eqn:E; [|reflexivity].
  rewrite <- (lt_irrefl a). symmetry. eapply lt_trans; eauto.
Qed.

Lemma not_lt_trans a b c : lt b a = false -> lt c b = false -> lt c a = false.
Proof.
  intros H1 H2. destruct (lt c a) eqn:E; [|reflexivity].
  destruct (lt b c) eqn:E2.
  - rewrite <- H1. symmetry. eapply lt_trans; eauto.
  - rewrite (lt_total _ _ E2 H2) in H1. congruence.
Qed.

Lemma insert_sorted_sorted x l :
  StronglySorted (no_inversion key lt) l ->
  StronglySorted (no_inversion key lt) (insert_sorted key lt x l).
Proof.
  induction 1 as [|y l Hs IH Hall]; simpl.
  - repeat constructor.
  - destruct (lt (key y) (key x)) eqn:E.
    + constructor; [exact IH|].
      eapply Permutation_Forall; [symmetry; apply insert_sorted_perm|].
      constructor; [|exact Hall]. now apply lt_asym.
    + constructor; [now constructor|].
      constructor; [exact E|].
      eapply Forall_impl; [|exact Hall]. intros z Hz.
      unfold no_inversion in *. eapply not_lt_trans; eauto.
Qed.

Lemma sort_by_sorted l : StronglySorted (no_inversion key lt) (sort_by key lt l).
Proof.
  induction l; simpl; [constructor | now apply insert_sorted_sorted].
Qed.

Lemma sorted_distinct_ascending l :
  NoDup (map key l) ->
  StronglySorted (no_inversion key lt) l -> StronglySorted (ascending key lt) l.
Proof.
  induction 2 as [|y l Hs IH Hall]; [constructor|].
  simpl in H. inversion H as [|? ? Hnin Hnd]; subst.
  constructor; [auto|].
  rewrite Forall_forall in *. intros z Hz.
  unfold ascending, no_inversion in *.
  destruct (lt (key y) (key z)) eqn:E; [reflexivity|].
  exfalso. apply Hnin. rewrite (lt_total _ _ E (Hall z Hz)).
  now apply in_map.
Qed.

End SortFacts.

Lemma ranked_perm seen acc acc' :
  Permutation acc acc' -> ranked seen acc -> ranked seen acc'.
Proof.
  intros HP [Hnd Hfrom Hmin]. split.
  - eapply Permutation_NoDup; [|exact Hnd]. now apply Permutation_map.
  - intros loc Hin. apply Hfrom. eapply Permutation_in; [|exact Hin].
    now symmetry.
  - intros e t p Hs Hc. destruct (Hmin e t p Hs Hc) as (loc & Hin & ?).
    exists loc. split; auto. eapply Permutation_in; eauto.
Qed.

Lemma ranked_output walk :
  ranked (fun x => In x (rglob_exe walk))
         (find_game_executable_paths game_dir walk).
Proof.
  unfold find_game_executable_paths.
  eapply ranked_perm; [symmetry; apply sort_by_perm | apply ranked_walk].
Qed.

(** C5. The list returned by [find_game_executable_paths] has at most one
    entry per containing directory (no two entries share a [path]); the
    priority of the entry kept for a directory is attained by one of the
    non-skipped executables of that directory and is no larger than the
    priority of any of them, that is, it is their minimum. *)
Theorem rank_candidates_one_entry_per_directory (walk : list DirEntry) :
  let out := find_game_executable_paths game_dir walk in
  NoDup (map path out) /\
  forall loc, In loc out ->
    (exists e t, In e (rglob_exe walk) /\
                 parent_str game_dir e = path loc /\
                 classify game_dir e = Some (t, priority loc)) /\
    (forall e t p, In e (rglob_exe walk) ->
                   parent_str game_dir e = path loc ->
                   classify game_dir e = Some (t, p) ->
                   priority loc <= p).
Proof.
  intros out. destruct (ranked_output walk) as [Hnd Hfrom Hmin].
  fold out in Hnd, Hfrom, Hmin. split; [exact Hnd|].
  intros loc Hin. split.
  - destruct (Hfrom loc Hin) as (e & t & He & Hc & Hloc).
    exists e, t. repeat split; auto. now rewrite Hloc.
  - intros e t p He Hp Hc.
    destruct (Hmin e t p He Hc) as (loc' & Hin' & Hp' & Hle).
    assert (loc' = loc) as -> by
      (apply (NoDup_path_inj out); auto; congruence).
    exact Hle.
Qed.

(** *** What a directory determines *)

Lemma same_parent_rel e e' :
  parent_str game_dir e = parent_str game_dir e' ->
  concat (map (fun c => SLASH :: c) (rel_dir e)) =
  concat (map (fun c => SLASH :: c) (rel_dir e')).
Proof. unfold parent_str. apply app_inv_head. Qed.

Lemma same_parent_in_game_dir e e' :
  parent_str game_dir e = parent_str game_dir e' ->
  in_game_dir e = in_game_dir e'.
Proof.
  intros H. apply same_parent_rel in H. unfold in_game_dir.
  destruct (rel_dir e), (rel_dir e'); simpl in H; congruence.
Qed.








(** *** Engine-version markers *)

(** C2, as amended.  An entry whose name carries an engine-version marker
    ("ue4" or "ue5") and that matches none of the three priority rules (it
    is not directly in the game root, its name has no "_shipping", and its
    directory has none of the conventional binary-folder markers) is the
    file of no returned candidate. *)
Theorem engine_marker_skipped_when_no_rule_matches (walk : list DirEntry) (e : DirEntry) :
  has_engine_marker e = true ->
  in_game_dir e = false ->
  contains (lit "_shipping") (lower (entry_name e)) = false ->
  any_in common_folders (lower (parent_str game_dir e)) = false ->
  ~ listed game_dir walk e.
Proof.
  intros Hm Hroot Hship Hcommon (loc & Hin & Hp & Hn).
  destruct (ranked_from _ _ _ (ranked_output walk) loc Hin) as (e' & t & _ & Hc & Hloc).
  rewrite Hloc in Hp, Hn. simpl in Hp, Hn.
  rewrite <- (same_parent_in_game_dir _ _ Hp) in Hroot.
  unfold has_engine_marker in Hm. rewrite <- Hn in Hm, Hship.
  rewrite <- Hp in Hcommon.
  unfold classify in Hc. rewrite Hroot, Hship, Hcommon in Hc.
  unfold has_engine_marker in Hm. rewrite Hm in Hc.
  destruct (negb (is_file e')); [discriminate|].
  destruct (any_in skip_paths _ || _); discriminate.
Qed.

End Ranker.

(** C2: an executable named after the engine version that sits directly in
    the game root is returned as a candidate, so the exclusion does not hold
    regardless of the priority rules. *)
Lemma engine_marker_in_game_root_is_listed :
  ~ (forall game_dir walk e,
       In e walk -> SteamUtils.has_engine_marker e = true ->
       ~ SteamUtils.listed game_dir walk e).
Proof.
  intros H.
  apply (H Examples.game_dir [Examples.root_ue4] Examples.root_ue4).
  - now left.
  - reflexivity.
  - eexists. split; [left; reflexivity|]. split; reflexivity.
Qed.

Lemma engine_marker_skipped_witness :
  ~ SteamUtils.listed Examples.game_dir
      [Examples.sub_tool; Examples.sub_ue4] Examples.sub_ue4.
Proof.
  apply engine_marker_skipped_when_no_rule_matches; reflexivity.
Defined.



(** ** The config file *)

Section ConfigFile.

Import OptiScalerInstaller.

(** *** Reading and writing lines *)

Lemma decode_newlines_no_cr s : forall b, ~ In CR (decode_newlines b s).
Proof.
  induction s as [|c s IH]; intros b; simpl; [easy|].
  destruct (ascii_dec c CR) as [->|Hc].
  - simpl. intros [H|H]; [discriminate | now apply IH in H].
  - destruct (ascii_dec c LF) as [->|Hl].
    + destruct b; simpl; [apply IH|].
      intros [H|H]; [discriminate | now apply IH in H].
    + simpl. intros [H|H]; [congruence | now apply IH in H].
Qed.

Lemma decode_newlines_id s : ~ In CR s -> decode_newlines false s = s.
Proof.
  induction s as [|c s IH]; simpl; intros H; [reflexivity|].
  destruct (ascii_dec c CR) as [->|Hc]; [exfalso; auto|].
  destruct (ascii_dec c LF); f_equal; auto.
Qed.

Lemma readlines_line body s :
  ~ In LF body -> readlines (body ++ LF :: s) = (body ++ [LF]) :: readlines s.
Proof.
  induction body as [|c body IH]; simpl; intros H.
  - destruct (ascii_dec LF LF); [reflexivity | congruence].
  - destruct (ascii_dec c LF) as [->|Hc]; [exfalso; auto|].
    rewrite IH by auto. reflexivity.
Qed.

Lemma readlines_open line :
  line <> [] -> ~ In LF line -> readlines line = [line].
Proof.
  induction line as [|c line IH]; [easy|]. intros _ H. simpl.
  destruct (ascii_dec c LF) as [->|Hc]; [exfalso; apply H; now left|].
  destruct line as [|d line]; [reflexivity|].
  rewrite IH; [reflexivity | easy | intros Hin; apply H; now right].
Qed.

Lemma readlines_ok s : lines_ok (readlines s).
Proof.
  induction s as [|c s IH]; simpl; [constructor|].
  destruct (ascii_dec c LF) as [->|Hc].
  - apply ok_cons; [|exact IH]. exists []. now split.
  - destruct (readlines s) as [|line rest].
    + apply ok_open; [easy|]. intros [H|[]]. congruence.
    + inversion IH as [|? Hne Hno|? ? (body & -> & Hno) Hrest]; subst.
      * apply ok_open; [easy|]. intros [H|H]; [congruence|auto].
      * apply ok_cons; [|exact Hrest]. exists (c :: body). split; [reflexivity|].
        intros [H|H]; [congruence|auto].
Qed.

Lemma readlines_concat lines : lines_ok lines -> readlines (concat lines) = lines.
Proof.
  induction 1 as [|line Hne Hno|line rest (body & -> & Hno) Hrest IH]; simpl.
  - reflexivity.
  - rewrite app_nil_r. now apply readlines_open.
  - rewrite <- app_assoc. simpl. rewrite readlines_line by exact Hno.
    now rewrite IH.
Qed.

Lemma concat_readlines s : concat (readlines s) = s.
Proof.
  induction s as [|c s IH]; simpl; [reflexivity|].
  destruct (ascii_dec c LF) as [->|Hc]; simpl; [now rewrite IH|].
  destruct (readlines s) as [|line rest] eqn:E; simpl in *; now rewrite <- IH.
Qed.

Lemma readlines_chunks lines s :
  Forall terminated lines -> readlines (concat lines ++ s) = lines ++ readlines s.
Proof.
  induction 1 as [|line rest (body & -> & Hno) Hrest IH]; simpl; [reflexivity|].
  rewrite <- !app_assoc. simpl. rewrite readlines_line by exact Hno.
  now rewrite IH.
Qed.

(** Writing the lines and reading the file again. *)
Lemma lines_of_writelines lines :
  (forall line, In line lines -> ~ In CR line) ->
  lines_of (writelines lines) = readlines (concat lines).
Proof.
  intros H. unfold lines_of, writelines, universal_newlines.
  rewrite decode_newlines_id; [reflexivity|].
  intros Hin. apply in_concat in Hin as (line & Hl & Hc). now apply (H line).
Qed.

Lemma lines_of_no_cr doc line : In line (lines_of doc) -> ~ In CR line.
Proof.
  intros Hl Hc. apply (decode_newlines_no_cr doc false).
  fold (universal_newlines doc). rewrite <- (concat_readlines (universal_newlines doc)).
  apply in_concat. exists line. now split.
Qed.

(** *** Stripping *)

Lemma lstrip_app_space x c :
  is_space c = true ->
  lstrip (x ++ [c]) = match lstrip x with [] => [] | _ :: _ => lstrip x ++ [c] end.
Proof.
  intros Hc. induction x as [|a x IH]; simpl.
  - now rewrite Hc.
  - destruct (is_space a); [exact IH | reflexivity].
Qed.

Lemma rstrip_app_space y c : is_space c = true -> rstrip (y ++ [c]) = rstrip y.
Proof.
  intros Hc. unfold rstrip. rewrite rev_app_distr. simpl. now rewrite Hc.
Qed.

Lemma strip_app_space x c : is_space c = true -> strip (x ++ [c]) = strip x.
Proof.
  intros Hc. unfold strip. rewrite lstrip_app_space by exact Hc.
  destruct (lstrip x) as [|a y]; [reflexivity|].
  now apply rstrip_app_space.
Qed.

Lemma is_key_line_lf line : is_key_line (line ++ [LF]) = is_key_line line.
Proof. unfold is_key_line. now rewrite strip_app_space. Qed.

Lemma key_line_is_key : is_key_line KEY_LINE = true.
Proof. reflexivity. Qed.

Lemma key_line_terminated : terminated KEY_LINE.
Proof.
  exists (lit "Fsr4Update=true"). split; [reflexivity|].
  intros H. vm_compute in H. intuition discriminate.
Qed.

(** *** The first loop *)

Lemma set_first_key_none lines :
  filter is_key_line lines = [] -> set_first_key lines = None.
Proof.
  induction lines as [|line rest IH]; simpl; [reflexivity|].
  destruct (is_key_line line); [discriminate|].
  intros H. now rewrite IH.
Qed.

Lemma set_first_key_split lines :
  filter is_key_line lines <> [] ->
  exists pre line post,
    lines = pre ++ line :: post /\
    is_key_line line = true /\
    (forall l, In l pre -> is_key_line l = false) /\
    set_first_key lines = Some (pre ++ KEY_LINE :: post).
Proof.
  induction lines as [|line rest IH]; simpl; [easy|].
  destruct (is_key_line line) eqn:E.
  - intros _. exists [], line, rest. repeat split; auto. intros l [].
  - intros H. destruct (IH H) as (pre & l & post & -> & Hl & Hpre & Hs).
    exists (line :: pre), l, post. rewrite Hs. repeat split; auto.
    intros x [<-|Hx]; auto.
Qed.

Lemma set_first_key_ok lines lines' :
  lines_ok lines -> set_first_key lines = Some lines' -> lines_ok lines'.
Proof.
  intros Hok. revert lines'.
  induction Hok as [|line Hne Hno|line rest Ht Hrest IH]; simpl; intros lines' H.
  - discriminate.
  - destruct (is_key_line line); [|discriminate].
    inversion H. apply ok_cons; [apply key_line_terminated | constructor].
  - destruct (is_key_line line).
    + inversion H. apply ok_cons; [apply key_line_terminated | exact Hrest].
    + destruct (set_first_key rest) as [r|]; [|discriminate].
      inversion H. apply ok_cons; auto.
Qed.

Lemma set_first_key_filter lines lines' :
  set_first_key lines = Some lines' ->
  filter is_key_line lines' = KEY_LINE :: tl (filter is_key_line lines).
Proof.
  revert lines'. induction lines as [|line rest IH]; intros lines' H.
  - discriminate.
  - cbn [set_first_key filter] in *. destruct (is_key_line line) eqn:E.
    + injection H as <-. cbn [filter tl]. now rewrite key_line_is_key.
    + destruct (set_first_key rest) as [r|]; [|discriminate].
      injection H as <-. cbn [filter]. rewrite E. now apply IH.
Qed.

(** C10.  When some line of the file, once stripped, starts with
    "Fsr4Update=", the step writes back the lines it read with the first
    such line replaced by "Fsr4Update=true" and nothing else changed: the
    line is rewritten where it stands, whatever section it is in, and no
    other key line is added. *)
Theorem existing_key_rewritten_in_place (raw : str) :
  key_lines raw <> [] ->
  exists pre line post,
    lines_of raw = pre ++ line :: post /\
    is_key_line line = true /\
    (forall l, In l pre -> is_key_line l = false) /\
    configure_optiscaler_ini (Some raw) = writelines (pre ++ KEY_LINE :: post).
Proof.
  intros H. apply set_first_key_split in H as (pre & line & post & Hl & Hk & Hpre & Hs).
  exists pre, line, post. repeat split; auto.
  unfold configure_optiscaler_ini, update_lines.
  fold (lines_of raw). now rewrite Hs.
Qed.

(** *** The second loop *)

Lemma terminated_has_lf line : terminated line -> In LF line.
Proof. intros (body & -> & _). apply in_or_app. right. now left. Qed.

Lemma filter_nil_cons (line : str) rest :
  filter is_key_line (line :: rest) = [] ->
  is_key_line line = false /\ filter is_key_line rest = [].
Proof. simpl. destruct (is_key_line line); [discriminate | auto]. Qed.


Lemma inserted_well_cons line rest rest' :
  terminated line -> is_key_line line = false ->
  inserted_well rest rest' -> inserted_well (line :: rest) (line :: rest').
Proof.
  intros Ht Hk (Hlen & Hnil & Hall). unfold inserted_well in *.
  destruct Ht as (body & -> & Hno). cbn [concat]. rewrite <- app_assoc.
  cbn [app]. rewrite readlines_line by exact Hno.
  cbn [filter]. rewrite Hk. repeat split.
  - exact Hlen.
  - intros H. constructor; [now exists body | auto].
  - intros H. inversion H; subst. auto.
Qed.

Lemma inserted_well_exact lines lines' :
  lines_ok lines' -> filter is_key_line lines' = [KEY_LINE] ->
  inserted_well lines lines'.
Proof.
  intros Hok Hf. unfold inserted_well. rewrite readlines_concat by exact Hok.
  rewrite Hf. repeat split; auto. discriminate.
Qed.

Lemma insert_key_well lines :
  lines_ok lines -> filter is_key_line lines = [] ->
  forall b lines', insert_key b lines = Some lines' -> inserted_well lines lines'.
Proof.
  induction 1 as [|line Hne Hno|line rest Ht Hrest IH]; intros Hf b lines' H.
  - discriminate.
  - apply filter_nil_cons in Hf as [Hk _]. cbn [insert_key option_map] in H.
    destruct (eqb (strip line) SECTION_HEADER); [discriminate|].
    rewrite orb_true_r, andb_true_r in H. destruct b; [|discriminate].
    destruct (startswith (lit "[") line); injection H as <-.
    + apply inserted_well_exact.
      * apply ok_cons; [apply key_line_terminated | now apply ok_open].
      * cbn [filter]. now rewrite key_line_is_key, Hk.
    + unfold inserted_well. cbn [concat]. rewrite app_nil_r.
      change KEY_LINE with (lit "Fsr4Update=true" ++ [LF]).
      rewrite app_assoc.
      assert (Hbody : ~ In LF (line ++ lit "Fsr4Update=true")).
      { intros Hin. apply in_app_or in Hin as [Hin|Hin]; [auto|].
        vm_compute in Hin. intuition discriminate. }
      rewrite <- (app_nil_r ((line ++ _) ++ [LF])), <- app_assoc.
      cbn [app]. rewrite readlines_line by exact Hbody. cbn [readlines].
      repeat split.
      * cbn [filter]. destruct (is_key_line ((_ ++ _) ++ _)); simpl; lia.
      * intros _. constructor; [|constructor]. eexists. split; [reflexivity | exact Hbody].
      * intros Hall. inversion Hall as [|? ? Hterm _]; subst.
        apply terminated_has_lf in Hterm. contradiction.
  - apply filter_nil_cons in Hf as [Hk Hf]. cbn [insert_key] in H.
    destruct (eqb (strip line) SECTION_HEADER).
    { destruct (insert_key true rest) as [r|] eqn:E; [|discriminate].
      injection H as <-. apply inserted_well_cons; eauto. }
    destruct (b && _) eqn:Hcond.
    + destruct (startswith (lit "[") line); injection H as <-.
      * apply inserted_well_exact.
        -- apply ok_cons; [apply key_line_terminated | now apply ok_cons].
        -- cbn [filter]. now rewrite key_line_is_key, Hk, Hf.
      * destruct rest as [|next rest]; [|now rewrite andb_false_r in Hcond].
        apply inserted_well_exact.
        -- apply ok_cons; [exact Ht|].
           apply ok_cons; [apply key_line_terminated | constructor].
        -- cbn [filter]. now rewrite key_line_is_key, Hk.
    + destruct (insert_key b rest) as [r|] eqn:E; [|discriminate].
      injection H as <-. apply inserted_well_cons; eauto.
Qed.

Lemma append_section_well lines :
  lines_ok lines -> filter is_key_line lines = [] ->
  filter is_key_line (readlines (concat (lines ++ [NEW_SECTION]))) = [KEY_LINE].
Proof.
  induction 1 as [|line Hne Hno|line rest (body & -> & Hno) Hrest IH]; intros Hf.
  - reflexivity.
  - apply filter_nil_cons in Hf as [Hk _].
    cbn [app concat]. rewrite app_nil_r.
    change NEW_SECTION with (LF :: (SECTION_HEADER ++ [LF] ++ KEY_LINE)).
    rewrite readlines_line by exact Hno.
    cbn [filter]. rewrite is_key_line_lf, Hk. reflexivity.
  - apply filter_nil_cons in Hf as [Hk Hf].
    cbn [app concat]. rewrite <- app_assoc. cbn [app].
    rewrite readlines_line by exact Hno.
    cbn [filter]. rewrite Hk. auto.
Qed.

(** *** One call, on the lines *)

Lemma short_filter_tail (lines : list str) :
  length (filter is_key_line lines) <= 1 -> tl (filter is_key_line lines) = [].
Proof.
  destruct (filter is_key_line lines) as [|a [|b l]]; simpl; auto. lia.
Qed.

Lemma update_lines_once lines :
  lines_ok lines -> length (filter is_key_line lines) <= 1 ->
  let after := readlines (concat (update_lines lines)) in
  length (filter is_key_line after) <= 1 /\
  (filter is_key_line after = [] -> Forall terminated after) /\
  ((filter is_key_line lines = [] -> Forall terminated lines) ->
   filter is_key_line after = [KEY_LINE]).
Proof.
  intros Hok Hlen. unfold update_lines.
  destruct (set_first_key lines) as [lines'|] eqn:Hs.
  - cbn zeta. rewrite (readlines_concat _ (set_first_key_ok _ _ Hok Hs)).
    rewrite (set_first_key_filter _ _ Hs), short_filter_tail by exact Hlen.
    repeat split; auto. discriminate.
  - assert (Hf : filter is_key_line lines = []).
    { destruct (filter is_key_line lines) eqn:E; [reflexivity|].
      destruct (set_first_key_split lines) as (? & ? & ? & _ & _ & _ & Hs');
        [rewrite E; discriminate | congruence]. }
    destruct (insert_key false lines) as [lines'|] eqn:Hi.
    + destruct (insert_key_well _ Hok Hf _ _ Hi) as (H1 & H2 & H3).
      repeat split; auto.
    + cbn zeta. rewrite (append_section_well _ Hok Hf).
      repeat split; auto. discriminate.
Qed.

Lemma update_lines_no_cr lines line :
  (forall l, In l lines -> ~ In CR l) ->
  In line (update_lines lines) -> ~ In CR line.
Proof.
  intros Hall. unfold update_lines.
  assert (Hkey : ~ In CR KEY_LINE) by (intros H; vm_compute in H; intuition discriminate).
  assert (Hnew : ~ In CR NEW_SECTION) by (intros H; vm_compute in H; intuition discriminate).
  destruct (set_first_key lines) as [lines'|] eqn:Hs.
  - destruct (set_first_key_split lines) as (pre & l & post & -> & _ & _ & Hs').
    { intros E. apply set_first_key_none in E. congruence. }
    rewrite Hs in Hs'. injection Hs' as ->.
    intros Hin. apply in_app_or in Hin as [Hin|[<-|Hin]]; auto.
    + apply Hall. apply in_or_app. now left.
    + apply Hall. apply in_or_app. right. now right.
  - destruct (insert_key false lines) as [lines'|] eqn:Hi.
    + revert lines' Hi. generalize false.
      induction lines as [|x rest IH]; intros b lines' Hi Hin; [discriminate|].
      assert (Hrest : forall l, In l rest -> ~ In CR l) by (intros; apply Hall; now right).
      assert (Hx : ~ In CR x) by (apply Hall; now left).
      assert (Hrec : forall b', set_first_key rest = None ->
                 option_map (cons x) (insert_key b' rest) = Some lines' -> ~ In CR line).
      { intros b' Hn Ho. destruct (insert_key b' rest) as [r|] eqn:E; [|discriminate].
        injection Ho as <-. destruct Hin as [<-|Hin]; [exact Hx|].
        eapply IH; eauto. }
      assert (Hn : set_first_key rest = None).
      { cbn [set_first_key] in Hs. destruct (is_key_line x); [discriminate|].
        destruct (set_first_key rest); [discriminate | reflexivity]. }
      cbn [insert_key] in Hi.
      destruct (eqb (strip x) SECTION_HEADER); [now apply (Hrec true)|].
      destruct (b && _); [|now apply (Hrec b)].
      destruct (startswith (lit "[") x); injection Hi as <-.
      * destruct Hin as [<-|[<-|Hin]]; auto.
      * destruct Hin as [<-|[<-|Hin]]; auto.
    + intros Hin. apply in_app_or in Hin as [Hin|[<-|[]]]; auto.
Qed.

(** Two calls leave exactly one key line, and it reads [Fsr4Update=true]. *)
Lemma configure_twice_key_lines raw :
  length (key_lines raw) <= 1 ->
  key_lines (configure_twice (Some raw)) = [KEY_LINE].
Proof.
  intros Hlen. unfold configure_twice, configure_optiscaler_ini.
  fold (lines_of raw).
  set (first := writelines (update_lines (lines_of raw))).
  assert (Hfirst : lines_of first = readlines (concat (update_lines (lines_of raw)))).
  { apply lines_of_writelines. intros line. apply update_lines_no_cr.
    intros l. apply lines_of_no_cr. }
  fold (lines_of first).
  destruct (update_lines_once (lines_of raw) (readlines_ok _) Hlen) as (H1 & H2 & _).
  rewrite <- Hfirst in H1, H2.
  destruct (update_lines_once (lines_of first) (readlines_ok _) H1) as (_ & _ & H3).
  unfold key_lines. rewrite lines_of_writelines.
  - apply H3, H2.
  - intros line. apply update_lines_no_cr. intros l. apply lines_of_no_cr.
Qed.

Lemma true_line_is_key line :
  eqb (strip line) (lit "Fsr4Update=true") = true -> is_key_line line = true.
Proof.
  intros H. apply eqb_eq in H. unfold is_key_line. now rewrite H.
Qed.

Lemma true_lines_of_key_lines doc :
  key_lines doc = [KEY_LINE] -> true_lines doc = [KEY_LINE].
Proof.
  unfold key_lines, true_lines. induction (lines_of doc) as [|line rest IH]; simpl.
  - discriminate.
  - destruct (is_key_line line) eqn:E.
    + intros H. injection H as -> Hrest.
      change (eqb (strip KEY_LINE) (lit "Fsr4Update=true")) with true. f_equal.
      clear IH E. induction rest as [|l rest IH]; [reflexivity|]. simpl in *.
      destruct (eqb (strip l) _) eqn:El.
      * apply true_line_is_key in El. rewrite El in Hrest. discriminate.
      * destruct (is_key_line l); [discriminate | auto].
    + destruct (eqb (strip line) _) eqn:El; [|exact IH].
      apply true_line_is_key in El. congruence.
Qed.

(** X30.  From a missing file and from every file with at most one line
    that sets the key, two calls in a row leave a file with exactly one line
    that sets the key, and that line is [Fsr4Update=true]: it is the only
    line of the file that reads [Fsr4Update=true] once stripped. *)
Theorem two_calls_leave_one_key_line (ini : option str) :
  (forall raw, ini = Some raw -> length (key_lines raw) <= 1) ->
  key_lines (configure_twice ini) = [KEY_LINE] /\
  true_lines (configure_twice ini) = [KEY_LINE].
Proof.
  intros Hs.
  assert (H : key_lines (configure_twice ini) = [KEY_LINE]).
  { destruct ini as [raw|]; [|reflexivity].
    apply configure_twice_key_lines. now apply Hs. }
  split; [exact H | now apply true_lines_of_key_lines].
Qed.

End ConfigFile.

(** ** Fetching the latest build *)

Section Fetch.

Import OptiScalerInstaller.
Context {FS : Type} {HFS : FileSystem FS}.

Lemma scan_assets_find l : scan_assets l = find is_archive l.
Proof. induction l as [|a l IH]; simpl; [reflexivity | now rewrite IH]. Qed.

Lemma find_app_first (A : Type) (f : A -> bool) (l1 l2 : list A) :
  find f (l1 ++ l2) = match find f l1 with Some x => Some x | None => find f l2 end.
Proof.
  induction l1 as [|a l1 IH]; simpl; [reflexivity|].
  destruct (f a); [reflexivity | exact IH].
Qed.

Lemma scan_releases_find releases :
  scan_releases releases = find is_archive (flat_map assets (filter is_nightly releases)).
Proof.
  induction releases as [|r rest IH]; simpl; [reflexivity|].
  destruct (is_nightly r); [|exact IH].
  simpl. rewrite find_app_first, scan_assets_find, IH. reflexivity.
Qed.

Lemma download_asset_path net config_dir asset (fs : FS) path fs' :
  download_asset net config_dir asset fs = (Some path, fs') ->
  path = truediv config_dir (asset_name asset) /\
  exists content,
    get_download net (browser_download_url asset) = Some content /\
    fs_write path content fs = Some fs'.
Proof.
  unfold download_asset.
  destruct (get_download net _) as [content|]; [|discriminate].
  destruct (fs_write _ content fs) as [fs1|] eqn:E; [|discriminate].
  intros H. injection H as <- <-. split; [reflexivity|]. now exists content.
Qed.

(** C3, as amended.  With no listing (a network error) the result is empty.
    Otherwise the archive fetched is the first asset ending in .zip or .7z
    met when going through the releases that are flagged pre-release or
    tagged "nightly", in the order of the listing: a pre-release without
    such an asset is passed over.  Only when none of these releases has such
    an asset is the first entry of the listing searched instead; the result
    is empty when that fails too.  A successful result is the path
    [config_dir / name] for the asset's name, where its content was
    written. *)
Theorem fetch_latest_build_selection (net : Network) (config_dir : str) (fs : FS) :
  download_latest_nightly net config_dir fs =
    match get_releases net with
    | None => (None, fs)
    | Some releases =>
        match find is_archive (flat_map assets (filter is_nightly releases)) with
        | Some asset => download_asset net config_dir asset fs
        | None =>
            match releases with
            | [] => (None, fs)
            | latest_release :: _ =>
                match find is_archive (assets latest_release) with
                | Some asset => download_asset net config_dir asset fs
                | None => (None, fs)
                end
            end
        end
    end /\
  (forall asset path fs',
     download_asset net config_dir asset fs = (Some path, fs') ->
     path = truediv config_dir (asset_name asset)).
Proof.
  split.
  - unfold download_latest_nightly.
    destruct (get_releases net) as [releases|]; [|reflexivity].
    rewrite scan_releases_find.
    destruct (find is_archive _); [reflexivity|].
    destruct releases as [|latest rest]; [reflexivity|].
    now rewrite scan_assets_find.
  - intros asset path fs' H. now apply download_asset_path in H.
Qed.

End Fetch.

(** ** The auxiliary asset *)

Section Asset.

Import FSRManager.
Context {FS : Type} {HFS : FileSystem FS}.





End Asset.

(** ** Uninstalling *)

Section Uninstall.

Import OptiScalerInstaller Cli.
Context {FS : Type} {HFS : FileSystem FS}.

Lemma uninstall_returns_true launch steam_path install_info (fs : FS) b fs' :
  uninstall_optiscaler launch steam_path install_info fs = Some (b, fs') -> b = true.
Proof.
  unfold uninstall_optiscaler, bind, ret.
  destruct (remove_files _ _) as [[[] fs1]|]; [|discriminate].
  destruct (remove_dirs _ _) as [[[] fs2]|]; [|discriminate].
  destruct (restore_backups _ _ _) as [[[] fs3]|]; [|discriminate].
  destruct (remove_asset _ _ _) as [[[] fs4]|]; [|discriminate].
  intros H. now injection H as <- _.
Qed.

Lemma remove_nth_split (A : Type) (before : list A) x after :
  remove_nth (length before) (before ++ x :: after) = before ++ after.
Proof. induction before as [|a l IH]; simpl; [reflexivity | now rewrite IH]. Qed.

Lemma py_get_pop (A : Type) (l : list A) i x :
  py_get l i = Some x ->
  exists before after,
    l = before ++ x :: after /\ py_pop l i = Some (before ++ after).
Proof.
  unfold py_get, py_pop. destruct (py_index l i) as [k|]; [|discriminate].
  intros H. apply nth_error_split in H as (before & after & -> & <-).
  exists before, after. now rewrite remove_nth_split.
Qed.

(** C1, as amended.  When the menu runs the uninstall of the record [r]
    selected in the ledger and [uninstall_optiscaler] comes back, it comes
    back with success, and the ledger written afterwards is the one loaded
    before with the selected entry taken out, the other entries untouched
    and in order.  A subsequent load therefore no longer contains [r] when
    no other entry of the ledger equals it. *)
Theorem uninstall_removes_selected_record launch steam_path (number : Z)
  (w : World FS) (r : InstallationRecord) (b : bool) (fs' : FS) :
  py_get (load_installations w) (number - 1) = Some r ->
  uninstall_optiscaler launch steam_path r (disk w) = Some (b, fs') ->
  b = true /\
  exists before after,
    load_installations w = before ++ r :: after /\
    uninstall_choice launch steam_path (Some number) (lit "y") w =
      Some (Uninstalled, {| disk := fs'; ledger := Some (before ++ after) |}) /\
    (NoDup (load_installations w) ->
     ~ In r (load_installations {| disk := fs'; ledger := Some (before ++ after) |})).
Proof.
  intros Hget Hun.
  pose proof (uninstall_returns_true _ _ _ _ _ _ Hun) as ->.
  split; [reflexivity|].
  destruct (py_get_pop _ _ _ _ Hget) as (before & after & Hl & Hpop).
  exists before, after. split; [exact Hl|]. split.
  - unfold uninstall_choice. rewrite Hget, Hun, Hpop.
    destruct (load_installations w); [destruct before; discriminate|].
    reflexivity.
  - rewrite Hl. intros Hnd. apply NoDup_remove_2 in Hnd. exact Hnd.
Qed.

End Uninstall.

(** On a store of regular files no clean-up step can raise:
    [uninstall_optiscaler] always comes back, with success. *)
Section UninstallFlat.

Import OptiScalerInstaller.

Lemma for_each_total (A : Type) (body : A -> Run FlatFS unit) (l : list A) :
  (forall x fs, exists fs', body x fs = Some (tt, fs')) ->
  forall fs, exists fs', for_each l body fs = Some (tt, fs').
Proof.
  intros Hbody. induction l as [|x l IH]; intros fs; simpl.
  - now exists fs.
  - unfold bind. destruct (Hbody x fs) as (fs1 & ->). apply IH.
Qed.

Lemma uninstall_flat_total launch steam_path install_info (fs : FlatFS) :
  exists fs', uninstall_optiscaler launch steam_path install_info fs = Some (true, fs').
Proof.
  set (dir := install_path install_info).
  assert (H1 : forall f : FlatFS, exists f', remove_files dir f = Some (tt, f')).
  { apply for_each_total. intros x f. simpl.
    unfold flat_exists, call, ret. simpl. unfold flat_unlink.
    destruct (f _); eauto. }
  assert (H2 : forall f : FlatFS, exists f', remove_dirs dir f = Some (tt, f')).
  { apply for_each_total. intros x f. simpl. rewrite andb_false_r.
    unfold ret. eauto. }
  assert (H3 : forall f : FlatFS,
             exists f', restore_backups dir (backup_files install_info) f = Some (tt, f')).
  { apply for_each_total. intros [o bk] f. simpl.
    unfold flat_exists, call, ret. simpl. unfold flat_move.
    destruct (f bk); eauto. }
  assert (H4 : forall f : FlatFS,
             exists f', remove_asset steam_path install_info f = Some (tt, f')).
  { intros f. unfold remove_asset, ret.
    destruct (fsr4_dll_copied install_info); [|eauto].
    destruct (SteamUtils.get_compatdata_path _ _ _); [|eauto].
    unfold bind, FSRManager.remove_fsr4_dll_from_compatdata.
    destruct (fs_exists f _); [|eauto].
    destruct (fs_unlink _ f); eauto. }
  unfold uninstall_optiscaler, bind, ret. fold dir.
  destruct (H1 (run_optiscaler_removal_script launch dir fs)) as (f1 & ->).
  destruct (H2 f1) as (f2 & ->).
  destruct (H3 f2) as (f3 & ->).
  destruct (H4 f3) as (f4 & ->).
  eauto.
Qed.

End UninstallFlat.

(** ** The enumeration of games *)

Section Games.

Import SteamUtils.

Variable d : Disk.

#[local] Abbreviation enumerated := (SteamUtils.enumerated d).

Lemma replace_game_ids g l :
  In (app_id g) (map app_id l) -> map app_id (replace_game g l) = map app_id l.
Proof.
  induction l as [|a l IH]; simpl; intros H; [easy|].
  destruct (eqb (app_id a) (app_id g)) eqn:E.
  - apply eqb_eq in E. simpl. now rewrite E.
  - simpl. f_equal. apply IH. destruct H as [H|H]; [|easy].
    apply eqb_neq in E. congruence.
Qed.

Lemma replace_game_in g l x : In x (replace_game g l) -> x = g \/ In x l.
Proof.
  induction l as [|a l IH]; simpl; [easy|].
  destruct (eqb (app_id a) (app_id g)); simpl; intuition.
Qed.

Lemma replace_game_has g l :
  In (app_id g) (map app_id l) -> In g (replace_game g l).
Proof.
  induction l as [|a l IH]; simpl; [easy|].
  destruct (eqb (app_id a) (app_id g)) eqn:E; simpl; [now left|].
  intros [H|H]; [apply eqb_neq in E; congruence | right; auto].
Qed.

Lemma replace_game_other g l x :
  In x l -> app_id x <> app_id g -> In x (replace_game g l).
Proof.
  induction l as [|a l IH]; simpl; [easy|].
  intros [->|H] Hne.
  - apply eqb_neq in Hne. rewrite Hne. now left.
  - destruct (eqb (app_id a) (app_id g)); simpl; auto.
Qed.

Lemma NoDup_app_id_inj l (a b : Game) :
  NoDup (map app_id l) -> In a l -> In b l -> app_id a = app_id b -> a = b.
Proof.
  induction l as [|x l IH]; simpl; [easy|].
  intros Hnd [->|Ha] [->|Hb] E; inversion Hnd; subst; auto.
  - exfalso. apply H1. rewrite E. now apply in_map.
  - exfalso. apply H1. rewrite <- E. now apply in_map.
Qed.


Lemma enumerated_ext (seen seen' : Game -> Prop) games :
  (forall x, seen x <-> seen' x) -> enumerated seen games -> enumerated seen' games.
Proof.
  intros Hext [Hnd Hfrom Hnew]. split; auto.
  - intros g Hg. apply Hext. auto.
  - intros c Hc. apply Hext in Hc. destruct (Hnew c Hc) as (g & Hg & Hid & Ht).
    exists g. repeat split; auto. intros Hr. apply Ht.
    intros x Hx. apply Hr. now apply Hext.
Qed.

Lemma not_newer_refl g : st_mtime d (game_path g) <> None -> not_newer d g g.
Proof.
  unfold not_newer. destruct (st_mtime d (game_path g)); [lia | congruence].
Qed.

Lemma enumerated_add seen games g :
  enumerated seen games ->
  enumerated (fun x => seen x \/ x = g) (add_game d games g).
Proof.
  intros [Hnd Hfrom Hnew].
  assert (Hweak : forall c, times_readable d (fun x => seen x \/ x = g) c ->
                            times_readable d seen c).
  { intros c Hr x Hx. apply Hr. now left. }
  assert (Hself : times_readable d (fun x => seen x \/ x = g) g -> not_newer d g g).
  { intros Hr. apply not_newer_refl. apply (Hr g); auto. }
  unfold add_game.
  destruct (find _ games) as [existing|] eqn:Hf.
  - apply find_some in Hf as [Hex Hid]. apply eqb_eq in Hid.
    assert (Hing : In (app_id g) (map app_id games)).
    { rewrite <- Hid. now apply in_map. }
    assert (Hunchanged :
      (times_readable d (fun x => seen x \/ x = g) g -> not_newer d g existing) ->
      enumerated (fun x => seen x \/ x = g) games).
    { intros Hg. split; auto.
      intros c [Hc| ->].
      - destruct (Hnew c Hc) as (k & Hk & Hkid & Ht). exists k. auto.
      - exists existing. auto. }
    destruct (st_mtime d (game_path existing)) as [te|] eqn:Ete.
    2:{ apply Hunchanged. intros Hr. exfalso.
        apply (Hr existing); auto. }
    destruct (st_mtime d (game_path g)) as [tg|] eqn:Etg.
    2:{ apply Hunchanged. intros Hr. exfalso. apply (Hr g); auto. }
    destruct (te <? tg)%Z eqn:Hlt.
    + apply Z.ltb_lt in Hlt. split.
      * now rewrite replace_game_ids.
      * intros x Hx. apply replace_game_in in Hx as [->|Hx]; auto.
      * intros c [Hc| ->].
        -- destruct (Hnew c Hc) as (k & Hk & Hkid & Ht).
           destruct (list_eq_dec ascii_dec (app_id k) (app_id g)) as [E|E].
           ++ exists g. split; [now apply replace_game_has|].
              split; [congruence|]. intros Hr.
              assert (k = existing) as -> by
                (apply (NoDup_app_id_inj games); auto; congruence).
              specialize (Ht (Hweak _ Hr)). unfold not_newer in *.
              rewrite Ete in Ht. rewrite Etg.
              destruct (st_mtime d (game_path c)); [lia | easy].
           ++ exists k. split; [now apply replace_game_other|]. auto.
        -- exists g. split; [now apply replace_game_has|]. auto.
    + apply Z.ltb_ge in Hlt. apply Hunchanged. intros _.
      unfold not_newer. now rewrite Etg, Ete.
  - assert (Hnin : ~ In (app_id g) (map app_id games)).
    { intros Hin. apply in_map_iff in Hin as (x & Hx & Hin).
      apply (find_none _ _ Hf) in Hin. apply eqb_neq in Hin. congruence. }
    split.
    + rewrite map_app. simpl.
      apply NoDup_app; [assumption | repeat constructor; easy |].
      intros x Hx [<-|[]]. contradiction.
    + intros x Hx. apply in_app_iff in Hx as [Hx|[<-|[]]]; auto.
    + intros c [Hc| ->].
      * destruct (Hnew c Hc) as (k & Hk & Hkid & Ht).
        exists k. rewrite in_app_iff. auto.
      * exists g. rewrite in_app_iff. simpl. auto.
Qed.

Lemma enumerated_manifests library files : forall seen games,
  enumerated seen games ->
  enumerated (fun x => seen x \/ from_manifests d library files x)
             (fold_left (visit_manifest d library) files games).
Proof.
  induction files as [|f files IH]; simpl; intros seen games H.
  - eapply enumerated_ext; [|exact H].
    intros x. split; [auto|]. intros [Hx|(? & [] & _)]. exact Hx.
  - unfold visit_manifest at 2.
    destruct (manifest_game d library f) as [g|] eqn:E.
    + eapply enumerated_ext; [|apply IH, enumerated_add, H].
      intros x. split.
      * intros [[Hx|Hx]|(mf & Hmf & Hg)].
        -- now left.
        -- subst x. right. exists f. split; [now left | exact E].
        -- right. exists mf. split; [now right | exact Hg].
      * intros [Hx|(mf & [Hf|Hmf] & Hg)].
        -- left. now left.
        -- subst mf. left. right. congruence.
        -- right. exists mf. split; assumption.
    + eapply enumerated_ext; [|apply IH, H].
      intros x. split.
      * intros [Hx|(mf & Hmf & Hg)]; [now left|].
        right. exists mf. split; [now right | exact Hg].
      * intros [Hx|(mf & [Hf|Hmf] & Hg)]; [now left | subst mf; congruence |].
        right. exists mf. split; assumption.
Qed.

Lemma enumerated_libraries libraries : forall seen games,
  enumerated seen games ->
  enumerated (fun x => seen x \/ discovered d libraries x)
             (fold_left (visit_library d) libraries games).
Proof.
  induction libraries as [|l libraries IH]; simpl; intros seen games H.
  - eapply enumerated_ext; [|exact H].
    intros x. split; [auto|]. intros [Hx|(? & ? & [] & _)]. exact Hx.
  - unfold visit_library at 2.
    destruct (disk_exists d (truediv l (lit "steamapps"))) eqn:E.
    + eapply enumerated_ext; [|apply IH, enumerated_manifests, H].
      intros x. split.
      * intros [[Hx|(mf & Hmf & Hg)]|(l' & mf & Hl & He & Hmf & Hg)].
        -- now left.
        -- right. exists l, mf. repeat split; auto. now left.
        -- right. exists l', mf. repeat split; auto. now right.
      * intros [Hx|(l' & mf & [Hl|Hl] & He & Hmf & Hg)].
        -- left. now left.
        -- subst l'. left. right. exists mf. split; assumption.
        -- right. exists l', mf. repeat split; auto.
    + eapply enumerated_ext; [|apply IH, H].
      intros x. split.
      * intros [Hx|(l' & mf & Hl & He & Hmf & Hg)]; [now left|].
        right. exists l', mf. repeat split; auto. now right.
      * intros [Hx|(l' & mf & [Hl|Hl] & He & Hmf & Hg)];
          [now left | subst l'; congruence |].
        right. exists l', mf. repeat split; auto.
Qed.

Lemma enumerated_perm seen games games' :
  Permutation games games' -> enumerated seen games -> enumerated seen games'.
Proof.
  intros HP [Hnd Hfrom Hnew]. split.
  - eapply Permutation_NoDup; [|exact Hnd]. now apply Permutation_map.
  - intros g Hg. apply Hfrom. eapply Permutation_in; [|exact Hg]. now symmetry.
  - intros c Hc. destruct (Hnew c Hc) as (g & Hg & ?).
    exists g. split; auto. eapply Permutation_in; eauto.
Qed.

(** C6, as amended.  [get_steam_games] returns one record per [app_id] met
    in the manifests of the libraries: no two returned records share an
    [app_id], every returned record comes from a manifest, and every record
    a manifest gives has a returned record with its [app_id].  When the
    modification times of the install paths recorded for that [app_id] can
    all be read, the returned record is one whose install path has the
    greatest [st_mtime], the float of seconds that [stat] gives: no install
    path found for that [app_id] has a greater one.  Time stamps that give
    the same float are not told apart. *)
Theorem enumerate_games_one_record_per_app_id (steam_path : str)
  (steam_libraries : list str) :
  let games := get_steam_games d (Some steam_path) steam_libraries in
  NoDup (map app_id games) /\
  (forall g, In g games -> discovered d steam_libraries g) /\
  (forall c, discovered d steam_libraries c ->
     exists g, In g games /\ app_id g = app_id c /\
       (times_readable d (discovered d steam_libraries) c -> not_newer d c g)).
Proof.
  intros games.
  assert (H : enumerated (discovered d steam_libraries) games).
  { unfold games, get_steam_games.
    eapply enumerated_perm; [symmetry; apply sort_by_perm|].
    eapply enumerated_ext; [|apply enumerated_libraries with (seen := fun _ => False)].
    - intros x. split; [intros [[]|Hx]; exact Hx | auto].
    - split; simpl; [constructor | easy | easy]. }
  destruct H as [Hnd Hfrom Hnew]. auto.
Qed.

End Games.

(** ** Backup and restore *)

Section BackupRestore.

Import OptiScalerInstaller.

Variable target_dir : str.
Variable fs0 : FlatFS.

#[local] Abbreviation original := (original_path target_dir).
#[local] Abbreviation backup := (backup_path target_dir).
#[local] Abbreviation backed_up := (OptiScalerInstaller.backed_up target_dir fs0).

Lemma join_inj (a b : str) : join target_dir a = join target_dir b -> a = b.
Proof. unfold join. intros H. apply app_inv_head in H. now injection H. Qed.

Lemma backup_inj (a b : str) : backup a = backup b -> a = b.
Proof.
  unfold backup_path. intros H. apply join_inj in H. now apply app_inv_tail in H.
Qed.

Lemma startswith_app (p x : str) : startswith p (p ++ x) = true.
Proof.
  induction p as [|c p IH]; simpl; [reflexivity|].
  destruct (ascii_dec c c); [exact IH | congruence].
Qed.

Lemma endswith_app (x suffix : str) : endswith suffix (x ++ suffix) = true.
Proof. unfold endswith. rewrite rev_app_distr. apply startswith_app. Qed.

Lemma original_not_backup (n n' : str) :
  endswith BACKUP_SUFFIX n = false -> original n <> backup n'.
Proof.
  unfold original_path, backup_path.
  intros He H. apply join_inj in H. subst n.
  now rewrite endswith_app in He.
Qed.

Lemma dict_set_in d k v k' v' :
  In (k', v') (dict_set d k v) -> (k', v') = (k, v) \/ In (k', v') d.
Proof.
  induction d as [|[a b] d IH]; simpl.
  - intros [H|[]]. left. congruence.
  - destruct (eqb a k); simpl; intuition.
Qed.

Lemma dict_set_has d k v : In (k, v) (dict_set d k v).
Proof.
  induction d as [|[a b] d IH]; simpl; [now left|].
  destruct (eqb a k); simpl; auto.
Qed.

Lemma dict_set_keeps d k v k' v' :
  In (k', v') d -> k' <> k -> In (k', v') (dict_set d k v).
Proof.
  induction d as [|[a b] d IH]; simpl; [easy|].
  intros [H|H] Hne.
  - injection H as -> ->. apply eqb_neq in Hne. rewrite Hne. now left.
  - destruct (eqb a k); simpl; auto.
Qed.


Lemma backup_loop_backed_up names : forall fs backup_map,
  Forall (fun n => endswith BACKUP_SUFFIX n = false) names ->
  backed_up fs backup_map ->
  exists backup_map' fs',
    backup_loop target_dir names backup_map fs = Some (backup_map', fs') /\
    backed_up fs' backup_map'.
Proof.
  induction names as [|n names IH]; intros fs m Hnames Hinv.
  - exists m, fs. split; [reflexivity | exact Hinv].
  - inversion Hnames as [|? ? Hn Hrest]; subst.
    destruct Hinv as [Ha Hb Hc].
    assert (Horig : fs (original n) = fs0 (original n)).
    { apply Ha. intros n'. now apply original_not_backup. }
    cbn [backup_loop].
    change (join target_dir n) with (original n).
    change (join target_dir (n ++ BACKUP_SUFFIX)) with (backup n).
    change (fs_exists fs (original n)) with (flat_exists fs (original n)).
    unfold flat_exists. rewrite Horig.
    destruct (fs0 (original n)) as [content|] eqn:E.
    2:{ apply IH; [exact Hrest | now split]. }
    unfold bind, call. change (fs_copy2 (original n) (backup n) fs)
      with (flat_copy2 (original n) (backup n) fs).
    unfold flat_copy2.
    rewrite (proj2 (eqb_neq _ _) (original_not_backup n n Hn)), Horig.
    apply IH; [exact Hrest|]. split.
    + intros q Hq. unfold flat_set.
      destruct (eqb q (backup n)) eqn:Eq; [|auto].
      apply eqb_eq in Eq. now apply Hq in Eq.
    + intros n' b Hin. unfold flat_set.
      apply dict_set_in in Hin as [Hin|Hin].
      * injection Hin as -> ->. rewrite eqb_refl. rewrite E.
        repeat split; congruence.
      * destruct (Hb _ _ Hin) as (-> & Hfs & Hne).
        destruct (eqb (backup n') (backup n)) eqn:Eq.
        -- apply eqb_eq, backup_inj in Eq. subst n'. rewrite E.
           repeat split; congruence.
        -- auto.
    + intros q. unfold flat_set.
      destruct (eqb q (backup n)) eqn:Eq.
      * apply eqb_eq in Eq. subst q. right. exists n. apply dict_set_has.
      * destruct (Hc q) as [H|(n' & Hin)]; [now left|].
        right. exists n'. apply dict_set_keeps; [exact Hin|].
        intros ->. destruct (Hb _ _ Hin) as (-> & _). now rewrite eqb_refl in Eq.
Qed.

Lemma restore_backups_restores todo : forall fs,
  (forall n, fs0 (backup n) = None) ->
  (forall n b, In (n, b) todo -> b = backup n /\ fs0 (original n) <> None) ->
  (forall q, fs q = fs0 q \/ exists n, In (n, q) todo /\ fs q = fs0 (original n)) ->
  exists fs', restore_backups target_dir todo fs = Some (tt, fs') /\
              forall q, fs' q = fs0 q.
Proof.
  induction todo as [|[n b] todo IH]; intros fs H0 Htodo Hfs.
  - exists fs. split; [reflexivity|].
    intros q. destruct (Hfs q) as [H|(n & [] & _)]. exact H.
  - destruct (Htodo n b (or_introl eq_refl)) as (-> & Hne).
    assert (Htodo' : forall n' b', In (n', b') todo ->
                       b' = backup n' /\ fs0 (original n') <> None).
    { intros n' b' Hin. apply Htodo. now right. }
    unfold restore_backups in *. cbn [for_each]. unfold bind at 1.
    change (join target_dir n) with (original n).
    change (fs_exists fs (backup n)) with (flat_exists fs (backup n)).
    unfold flat_exists.
    destruct (fs (backup n)) as [content|] eqn:E.
    + assert (Hcontent : fs0 (original n) = Some content).
      { destruct (Hfs (backup n)) as [H|(n' & Hin & H)].
        - rewrite H0 in H. congruence.
        - destruct (Htodo _ _ Hin) as (Hb & _). apply backup_inj in Hb.
          subst n'. congruence. }
      unfold call. change (fs_move (backup n) (original n) fs)
        with (flat_move (backup n) (original n) fs).
      unfold flat_move. rewrite E. apply IH; auto.
      intros q. unfold flat_set.
      destruct (eqb q (original n)) eqn:Eo.
      { apply eqb_eq in Eo. subst q. left. congruence. }
      destruct (eqb q (backup n)) eqn:Eb.
      { apply eqb_eq in Eb. subst q. left. now rewrite H0. }
      destruct (Hfs q) as [H|(n' & [Hin|Hin] & H)]; [now left | |].
      * injection Hin as -> <-. now rewrite eqb_refl in Eb.
      * right. exists n'. auto.
    + unfold ret. apply IH; auto.
      intros q. destruct (Hfs q) as [H|(n' & [Hin|Hin] & H)]; [now left | |].
      * injection Hin as -> <-. congruence.
      * right. exists n'. auto.
Qed.

Lemma files_to_backup_are_originals :
  Forall (fun n => endswith BACKUP_SUFFIX n = false) files_to_backup.
Proof. repeat constructor. Qed.

(** C8.  In a directory with no file ending in ".optiscaler_backup",
    whichever of the five vendor DLLs it holds and whatever their bytes,
    [backup_original_files] followed by the restore loop of the uninstall
    both succeed and leave every file of the directory as it was: the bytes
    at each of the five original names are the same, and no file ending in
    ".optiscaler_backup" is left. *)
Theorem backup_restore_round_trip :
  (forall name, endswith BACKUP_SUFFIX name = true ->
                fs0 (join target_dir name) = None) ->
  exists backup_map fs1 fs2,
    backup_original_files target_dir fs0 = Some (backup_map, fs1) /\
    restore_backups target_dir backup_map fs1 = Some (tt, fs2) /\
    (forall name, In name files_to_backup ->
                  fs2 (join target_dir name) = fs0 (join target_dir name)) /\
    (forall name, endswith BACKUP_SUFFIX name = true ->
                  fs2 (join target_dir name) = None) /\
    (forall p, fs2 p = fs0 p).
Proof.
  intros Hclean.
  assert (H0 : forall n, fs0 (backup n) = None).
  { intros n. unfold backup_path. apply Hclean, endswith_app. }
  destruct (backup_loop_backed_up files_to_backup fs0 []
              files_to_backup_are_originals) as (m & fs1 & Hb & [Ha Hm Hc]).
  { split; [auto | intros ? ? [] | auto]. }
  destruct (restore_backups_restores m fs1 H0) as (fs2 & Hr & Hsame).
  { intros n b Hin. destruct (Hm _ _ Hin) as (? & ? & ?). auto. }
  { intros q. destruct (Hc q) as [H|(n & Hin)]; [now left|].
    right. exists n. split; [exact Hin|].
    destruct (Hm _ _ Hin) as (-> & ? & ?). assumption. }
  exists m, fs1, fs2. split; [exact Hb|]. split; [exact Hr|].
  split; [|split]; auto.
  intros name Hs. rewrite Hsame. auto.
Qed.

End BackupRestore.

(** ** Examples *)

Section Worked.

Import SteamUtils FSRManager OptiScalerInstaller Cli.

(** C1: with two equal entries in the ledger, uninstalling one of them
    leaves the other, so the ledger loaded afterwards still contains the
    record. *)
Lemma duplicate_record_stays_in_ledger :
  ~ (forall (launch : str -> FlatFS -> FlatFS) (steam_path : option str)
            (number : Z) (w w' : World FlatFS) (r : InstallationRecord),
       py_get (load_installations w) (number - 1) = Some r ->
       uninstall_choice launch steam_path (Some number) (lit "y") w
         = Some (Uninstalled, w') ->
       ~ In r (load_installations w')).
Proof.
  intros H.
  apply (H Examples.idle_terminal None 1%Z
           {| disk := empty_fs;
              ledger := Some [Examples.tf2_record; Examples.tf2_record] |}
           {| disk := empty_fs; ledger := Some [Examples.tf2_record] |}
           Examples.tf2_record).
  - reflexivity.
  - reflexivity.
  - now left.
Qed.

Lemma uninstall_removes_selected_record_witness :
  true = true /\
  exists before after,
    load_installations {| disk := empty_fs; ledger := Some [Examples.tf2_record] |}
      = before ++ Examples.tf2_record :: after /\
    uninstall_choice Examples.idle_terminal None (Some 1%Z) (lit "y")
      {| disk := empty_fs; ledger := Some [Examples.tf2_record] |}
      = Some (Uninstalled, {| disk := empty_fs; ledger := Some (before ++ after) |}) /\
    (NoDup (load_installations
              {| disk := empty_fs; ledger := Some [Examples.tf2_record] |}) ->
     ~ In Examples.tf2_record
          (load_installations {| disk := empty_fs; ledger := Some (before ++ after) |})).
Proof.
  apply (uninstall_removes_selected_record Examples.idle_terminal None 1%Z
           {| disk := empty_fs; ledger := Some [Examples.tf2_record] |}
           Examples.tf2_record true empty_fs); reflexivity.
Defined.

(** C3: the listing starts with a stable release that has an archive and
    goes on with a pre-release that has none.  The code falls back to the
    stable archive; choosing the pre-release and looking no further gives
    nothing. *)
Lemma fetch_latest_build_passes_over_bare_nightly :
  ~ (forall (net : Network) (config_dir : str) (fs : FlatFS),
       download_latest_nightly net config_dir fs =
       fetch_latest_build_as_specified net config_dir fs).
Proof.
  intros H.
  specialize (H Examples.network Examples.user_config_dir empty_fs).
  apply (f_equal fst) in H. vm_compute in H. discriminate H.
Qed.

(** C6: the two copies were modified 90 ns apart, which is less than the
    step of the floats at that date; the floats tie and the copy met first,
    the older one, is kept. *)
Lemma enumerate_games_keeps_older_copy_on_float_tie :
  ~ (forall (d : Disk) (steam_path : str) (steam_libraries : list str)
            (kept other : Game) (t t_kept : Z),
       In kept (get_steam_games d (Some steam_path) steam_libraries) ->
       discovered d steam_libraries other ->
       app_id other = app_id kept ->
       st_mtime_ns d (game_path other) = Some t ->
       st_mtime_ns d (game_path kept) = Some t_kept ->
       (t <= t_kept)%Z).
Proof.
  intros H.
  specialize (H Inputs.two_copies_disk (lit "/steam")
                [lit "/steam"; Inputs.mnt_games]
                Examples.tf2 Inputs.second_copy
                1700000000000000100%Z 1700000000000000010%Z).
  assert (Hle : (1700000000000000100 <= 1700000000000000010)%Z); [|lia].
  apply H.
  - vm_compute. left. reflexivity.
  - exists Inputs.mnt_games, Inputs.second_manifest_file.
    repeat split; [right; now left | now left].
  - reflexivity.
  - reflexivity.
  - reflexivity.
Qed.

(** At a file whose last line is not terminated. *)
Lemma two_calls_leave_one_key_line_witness :
  key_lines (configure_twice (Some Examples.ini_open_last_line)) = [KEY_LINE] /\
  true_lines (configure_twice (Some Examples.ini_open_last_line)) = [KEY_LINE].
Proof.
  apply two_calls_leave_one_key_line.
  intros raw H. injection H as <-. vm_compute. lia.
Defined.

(** C7.  The file has the section, no key, and a last line without its
    newline.  The first call writes the key behind that line with nothing in
    between: afterwards no line of the file sets the key.  The second call
    does not leave the file as the first call wrote it: it adds the key
    line, and the text [Fsr4Update=true] then stands on two lines. *)
Theorem open_last_line_is_glued_to_the_key :
  configure_optiscaler_ini (Some Examples.ini_open_last_line) =
    lit "[OptiScaler]" ++ [LF] ++ lit "Dx12Upscaler=autoFsr4Update=true" ++ [LF] /\
  key_lines (configure_optiscaler_ini (Some Examples.ini_open_last_line)) = [] /\
  configure_twice (Some Examples.ini_open_last_line) <>
    configure_optiscaler_ini (Some Examples.ini_open_last_line) /\
  lines_of (configure_twice (Some Examples.ini_open_last_line)) =
    [lit "[OptiScaler]" ++ [LF];
     lit "Dx12Upscaler=autoFsr4Update=true" ++ [LF];
     KEY_LINE] /\
  length (filter (contains (lit "Fsr4Update=true"))
            (lines_of (configure_twice (Some Examples.ini_open_last_line)))) = 2.
Proof.
  repeat split; try reflexivity.
  intros H. vm_compute in H. discriminate H.
Qed.

(** C8 at a directory that holds nvngx.dll. *)
Lemma backup_restore_witness :
  exists backup_map fs1 fs2,
    backup_original_files Examples.game_dir Examples.vendor_dir
      = Some (backup_map, fs1) /\
    restore_backups Examples.game_dir backup_map fs1 = Some (tt, fs2) /\
    (forall name, In name files_to_backup ->
       fs2 (join Examples.game_dir name) = Examples.vendor_dir (join Examples.game_dir name)) /\
    (forall name, endswith BACKUP_SUFFIX name = true ->
       fs2 (join Examples.game_dir name) = None) /\
    (forall p, fs2 p = Examples.vendor_dir p).
Proof.
  apply backup_restore_round_trip.
  intros name He. unfold Examples.vendor_dir.
  destruct (eqb _ _) eqn:E; [|reflexivity].
  apply eqb_eq in E. vm_compute in E. injection E as ->.
  vm_compute in He. discriminate He.
Defined.


(** C10 at a file that sets the key to false in another section. *)
Lemma existing_key_rewritten_witness :
  exists pre line post,
    lines_of Examples.ini_key_in_other_section = pre ++ line :: post /\
    is_key_line line = true /\
    (forall l, In l pre -> is_key_line l = false) /\
    configure_optiscaler_ini (Some Examples.ini_key_in_other_section)
      = writelines (pre ++ KEY_LINE :: post).
Proof.
  apply existing_key_rewritten_in_place. vm_compute. discriminate.
Defined.

End Worked.

(** ** More on the executable ranker *)

Section RankerMore.

Import SteamUtils.

Variable game_dir : str.

(** X1.  The returned list is in strictly ascending order of the sort key
    (priority, then number of path parts, then path). *)
Theorem rank_candidates_ascending (walk : list DirEntry) :
  StronglySorted (ascending sort_key key_ltb)
    (find_game_executable_paths game_dir walk).
Proof.
  assert (Hnd : NoDup (map sort_key (find_game_executable_paths game_dir walk))).
  { apply (NoDup_map_inv snd). rewrite map_map. simpl.
    apply (ranked_nodup _ _ _ (ranked_output game_dir walk)). }
  apply sorted_distinct_ascending; [exact key_ltb_total | exact Hnd |].
  apply sort_by_sorted;
    [exact key_ltb_irrefl | exact key_ltb_trans | exact key_ltb_total].
Qed.

(** X2.  No directory that holds an executable the loop accepts is left out. *)
Theorem rank_candidates_covers_every_directory (walk : list DirEntry) (e : DirEntry)
  (t : ExeType) (p : nat) :
  In e walk ->
  endswith (lit ".exe") (entry_name e) = true ->
  classify game_dir e = Some (t, p) ->
  exists loc, In loc (find_game_executable_paths game_dir walk) /\
              path loc = parent_str game_dir e /\ priority loc <= p.
Proof.
  intros Hin Hexe Hc.
  apply (ranked_min _ _ _ (ranked_output game_dir walk) e t p); [|exact Hc].
  unfold rglob_exe. apply filter_In. now split.
Qed.

Lemma classify_accepts e t p :
  classify game_dir e = Some (t, p) ->
  is_file e = true /\
  any_in skip_paths (lower (parent_str game_dir e)) = false /\
  any_in skip_names (lower (entry_name e)) = false.
Proof.
  unfold classify. destruct (is_file e); [|discriminate]. cbn [negb].
  destruct (any_in skip_paths (lower (parent_str game_dir e))); [discriminate|].
  destruct (any_in skip_names (lower (entry_name e))); [discriminate|]. auto.
Qed.

(** X3.  Every candidate is a regular file of the walk whose name ends in
    ".exe"; neither its directory path nor its name, in lower case, contains
    one of the markers to skip. *)
Theorem rank_candidates_only_accepted_files (walk : list DirEntry) (loc : Location) :
  In loc (find_game_executable_paths game_dir walk) ->
  exists e, In e walk /\
            path loc = parent_str game_dir e /\
            exe_name loc = entry_name e /\
            relative_path loc = relative_str e /\
            is_file e = true /\
            endswith (lit ".exe") (exe_name loc) = true /\
            any_in skip_paths (lower (path loc)) = false /\
            any_in skip_names (lower (exe_name loc)) = false.
Proof.
  intros Hin.
  destruct (ranked_from _ _ _ (ranked_output game_dir walk) loc Hin)
    as (e & t & He & Hc & ->).
  unfold rglob_exe in He. apply filter_In in He as [He Hexe].
  destruct (classify_accepts _ _ _ Hc) as (Hf & Hp & Hn).
  exists e. simpl. repeat split; auto.
Qed.

Lemma in_game_dir_path e :
  in_game_dir e = true <-> parent_str game_dir e = game_dir.
Proof.
  unfold in_game_dir, parent_str. destruct (rel_dir e) as [|c cs]; simpl.
  - rewrite app_nil_r. tauto.
  - split; [discriminate|]. intros H.
    rewrite <- (app_nil_r game_dir) in H at 2.
    apply app_inv_head in H. discriminate.
Qed.

Lemma classify_table e t p :
  classify game_dir e = Some (t, p) ->
  In (t, p) [(MainGameDirectory, 1); (ShippingExecutable, 1);
             (CommonGameFolder, 2); (OtherExe, 3)] /\
  (t = MainGameDirectory <-> in_game_dir e = true).
Proof.
  unfold classify.
  repeat match goal with
         | |- context [if ?b then _ else _] => destruct b eqn:?
         end; intros H; inversion H; subst; simpl; split; auto 6;
    split; congruence.
Qed.

(** X4.  Type and priority go together: the main game directory and a shipping
    executable have priority 1, a common game folder 2, anything else 3; and
    a candidate is typed as the main game directory exactly when its path is
    the game root. *)
Theorem rank_candidates_type_and_priority (walk : list DirEntry) (loc : Location) :
  In loc (find_game_executable_paths game_dir walk) ->
  In (exe_type loc, priority loc)
     [(MainGameDirectory, 1); (ShippingExecutable, 1);
      (CommonGameFolder, 2); (OtherExe, 3)] /\
  (exe_type loc = MainGameDirectory <-> path loc = game_dir).
Proof.
  intros Hin.
  destruct (ranked_from _ _ _ (ranked_output game_dir walk) loc Hin)
    as (e & t & _ & Hc & ->).
  destruct (classify_table _ _ _ Hc) as [Htab Hmain]. simpl.
  split; [exact Htab|]. rewrite Hmain. apply in_game_dir_path.
Qed.

(** *** A game root that carries a marker *)

Lemma startswith_app_l p s t : startswith p s = true -> startswith p (s ++ t) = true.
Proof.
  revert s. induction p as [|a p IH]; intros [|b s]; simpl; auto; [discriminate|].
  destruct (ascii_dec a b); [apply IH | discriminate].
Qed.

Lemma contains_app_l sub s t : contains sub s = true -> contains sub (s ++ t) = true.
Proof.
  induction s as [|c s IH]; simpl.
  - rewrite orb_false_r. intros H. destruct sub; [|discriminate].
    destruct t; reflexivity.
  - intros H. apply orb_true_iff in H as [H|H]; apply orb_true_iff.
    + left. now apply (startswith_app_l sub (c :: s) t).
    + right. auto.
Qed.

Lemma any_in_app_l skips s t : any_in skips s = true -> any_in skips (s ++ t) = true.
Proof.
  unfold any_in. rewrite !existsb_exists. intros (x & Hx & Hc).
  exists x. split; [exact Hx | now apply contains_app_l].
Qed.

Lemma lower_app s t : lower (s ++ t) = lower s ++ lower t.
Proof. apply map_app. Qed.

Lemma fold_visit_all_skipped l :
  (forall e, In e l -> classify game_dir e = None) ->
  fold_left (visit game_dir) l [] = [].
Proof.
  induction l as [|e l IH]; simpl; intros H; [reflexivity|].
  unfold visit at 2. rewrite (H e (or_introl eq_refl)). apply IH.
  intros x Hx. apply H. now right.
Qed.

(** X5.  The directory test looks at the whole path, game root included: when the
    path of the game root itself contains one of the directory markers
    ("engine", "redist", "directx", "vcredist", "_commonredist", "tools",
    "crash"), every executable is skipped and the result is empty. *)
Theorem rank_candidates_empty_under_marked_root (walk : list DirEntry) :
  any_in skip_paths (lower game_dir) = true ->
  find_game_executable_paths game_dir walk = [].
Proof.
  intros Hroot. unfold find_game_executable_paths.
  rewrite fold_visit_all_skipped; [reflexivity|].
  intros e _. unfold classify. destruct (negb (is_file e)); [reflexivity|].
  unfold parent_str. rewrite lower_app, (any_in_app_l _ _ _ Hroot). reflexivity.
Qed.

End RankerMore.

(** ** More on the enumeration of games *)

Section GamesMore.

Import SteamUtils Manifests.

Variable d : Disk.

Lemma enumerated_games steam_path steam_libraries :
  enumerated d (discovered d steam_libraries)
             (get_steam_games d (Some steam_path) steam_libraries).
Proof.
  unfold get_steam_games.
  eapply enumerated_perm; [symmetry; apply sort_by_perm|].
  eapply enumerated_ext; [|apply enumerated_libraries with (seen := fun _ => False)].
  - intros x. split; [intros [[]|Hx]; exact Hx | auto].
  - split; simpl; [constructor | easy | easy].
Qed.

(** X6.  The games come back ordered by name: no game is followed by one whose
    name is smaller in the order of Python strings. *)
Theorem enumerate_games_sorted_by_name (steam_path : option str)
  (steam_libraries : list str) :
  StronglySorted (no_inversion name ltb)
    (get_steam_games d steam_path steam_libraries).
Proof.
  unfold get_steam_games. destruct steam_path; [|constructor].
  apply sort_by_sorted; [exact ltb_irrefl | exact ltb_trans | exact ltb_total].
Qed.

Lemma truthy_some v v' : truthy v = Some v' -> v = Some v' /\ v' <> [].
Proof.
  destruct v as [[|c s]|]; simpl; intros H; try discriminate.
  injection H as <-. split; [reflexivity | discriminate].
Qed.

Lemma manifest_game_some library manifest_file g :
  manifest_game d library manifest_file = Some g ->
  app_id g <> [] /\ name g <> [] /\ install_dir g <> [] /\
  library_path g = library /\
  game_path g =
    truediv (truediv (truediv library (lit "steamapps")) (lit "common")) (install_dir g) /\
  disk_exists d (game_path g) = true.
Proof.
  unfold manifest_game.
  destruct (read_text d manifest_file) as [content|]; [|discriminate].
  destruct (scan_manifest _ _) as [[[id nm] dir]|]; [|discriminate].
  destruct (truthy id) as [id'|] eqn:Eid; [|discriminate].
  destruct (truthy nm) as [nm'|] eqn:Enm; [|discriminate].
  destruct (truthy dir) as [dir'|] eqn:Edir; [|discriminate].
  destruct (disk_exists d _) eqn:Eex; [|discriminate].
  intros H. injection H as <-. simpl.
  apply truthy_some in Eid as [_ ?], Enm as [_ ?], Edir as [_ ?].
  repeat split; auto.
Qed.

(** X7.  Every returned record has a non-empty id, name and install
    directory, belongs to one of the libraries, whose steamapps directory
    exists, and its path is [library / "steamapps" / "common" / install_dir],
    a path that exists. *)
Theorem enumerate_games_records_well_formed (steam_path : option str)
  (steam_libraries : list str) (g : Game) :
  In g (get_steam_games d steam_path steam_libraries) ->
  app_id g <> [] /\ name g <> [] /\ install_dir g <> [] /\
  In (library_path g) steam_libraries /\
  disk_exists d (truediv (library_path g) (lit "steamapps")) = true /\
  game_path g =
    truediv (truediv (truediv (library_path g) (lit "steamapps")) (lit "common"))
         (install_dir g) /\
  disk_exists d (game_path g) = true.
Proof.
  destruct steam_path as [sp|]; [|intros []].
  intros Hin.
  destruct (enumerated_from _ _ _ (enumerated_games sp steam_libraries) g Hin)
    as (library & mf & Hl & Hs & _ & Hg).
  destruct (manifest_game_some _ _ _ Hg) as (H1 & H2 & H3 & H4 & H5 & H6).
  rewrite H4. repeat split; auto.
Qed.

(** *** Manifests that are skipped, manifests that are read *)

Lemma scan_manifest_malformed lines : forall found,
  Exists malformed_key_line lines -> scan_manifest lines found = None.
Proof.
  induction lines as [|raw rest IH]; intros [[id nm] dir] H.
  - inversion H.
  - cbn [scan_manifest].
    destruct (startswith (quoted (lit "appid")) (strip raw)) eqn:E1.
    { destruct (quoted_value (strip raw)) eqn:Eq.
      - apply IH. inversion H as [? ? [_ Hq]|]; subst; [congruence | assumption].
      - reflexivity. }
    destruct (startswith (quoted (lit "name")) (strip raw)) eqn:E2.
    { destruct (quoted_value (strip raw)) eqn:Eq.
      - apply IH. inversion H as [? ? [_ Hq]|]; subst; [congruence | assumption].
      - reflexivity. }
    destruct (startswith (quoted (lit "installdir")) (strip raw)) eqn:E3.
    { destruct (quoted_value (strip raw)) eqn:Eq.
      - apply IH. inversion H as [? ? [_ Hq]|]; subst; [congruence | assumption].
      - reflexivity. }
    apply IH. inversion H as [? ? [Hk _]|]; subst; [|assumption].
    rewrite E1, E2, E3 in Hk. discriminate.
Qed.

(** X8.  A manifest with a line that names "appid", "name" or "installdir" but
    lacks the quoted value gives no game, whatever its other lines say: the
    [IndexError] skips the whole manifest. *)
Theorem malformed_manifest_is_skipped (library manifest_file content : str) :
  read_text d manifest_file = Some content ->
  Exists malformed_key_line (split LF (universal_newlines content)) ->
  manifest_game d library manifest_file = None.
Proof.
  intros Hr Hm. unfold manifest_game. rewrite Hr.
  now rewrite (scan_manifest_malformed _ _ Hm).
Qed.

Lemma split_at_sep sep a b :
  ~ In sep a -> split sep (a ++ sep :: b) = a :: split sep b.
Proof.
  induction a as [|c a IH]; simpl; intros H.
  - destruct (ascii_dec sep sep); [reflexivity | congruence].
  - destruct (ascii_dec c sep) as [->|Hc]; [exfalso; auto|].
    rewrite IH by auto. reflexivity.
Qed.

Lemma split_no_sep sep a : ~ In sep a -> split sep a = [a].
Proof.
  induction a as [|c a IH]; simpl; intros H; [reflexivity|].
  destruct (ascii_dec c sep) as [->|Hc]; [exfalso; auto|].
  rewrite IH by auto. reflexivity.
Qed.

Lemma rstrip_keeps_end s c : is_space c = false -> rstrip (s ++ [c]) = s ++ [c].
Proof.
  intros Hc. unfold rstrip. rewrite rev_app_distr. simpl. rewrite Hc.
  simpl. now rewrite rev_involutive.
Qed.

Lemma stripped_line_shape key value :
  stripped_line key value =
  (QUOTE :: key ++ QUOTE :: TAB :: TAB :: QUOTE :: value) ++ [QUOTE].
Proof.
  unfold stripped_line, quoted. simpl. f_equal.
  rewrite <- !app_assoc. reflexivity.
Qed.

Lemma strip_acf_line key value :
  strip (TAB :: stripped_line key value) = stripped_line key value.
Proof.
  rewrite stripped_line_shape. unfold strip.
  change (lstrip (TAB :: (QUOTE :: key ++ QUOTE :: TAB :: TAB :: QUOTE :: value) ++ [QUOTE]))
    with ((QUOTE :: key ++ QUOTE :: TAB :: TAB :: QUOTE :: value) ++ [QUOTE]).
  now apply rstrip_keeps_end.
Qed.

Lemma quoted_value_stripped key value :
  ~ In QUOTE key -> ~ In QUOTE value ->
  quoted_value (stripped_line key value) = Some value.
Proof.
  intros Hk Hv. unfold quoted_value.
  replace (stripped_line key value)
    with ([] ++ QUOTE :: (key ++ QUOTE :: ([TAB; TAB] ++ QUOTE :: (value ++ QUOTE :: [])))).
  - rewrite split_at_sep by (intros []).
    rewrite split_at_sep by exact Hk.
    rewrite split_at_sep by (intros [H|[H|[]]]; discriminate).
    rewrite split_at_sep by exact Hv.
    reflexivity.
  - unfold stripped_line, quoted. simpl. f_equal.
    rewrite <- !app_assoc. reflexivity.
Qed.

Lemma scan_other_line raw rest found :
  startswith (quoted (lit "appid")) (strip raw) = false ->
  startswith (quoted (lit "name")) (strip raw) = false ->
  startswith (quoted (lit "installdir")) (strip raw) = false ->
  scan_manifest (raw :: rest) found = scan_manifest rest found.
Proof.
  intros H1 H2 H3. destruct found as [[id nm] dir].
  cbn [scan_manifest]. now rewrite H1, H2, H3.
Qed.

Lemma startswith_own_key key value :
  startswith (quoted key) (stripped_line key value) = true.
Proof. unfold stripped_line. apply startswith_app. Qed.

Lemma scan_appid_line value rest id nm dir :
  ~ In QUOTE value ->
  scan_manifest ((TAB :: stripped_line (lit "appid") value) :: rest) (id, nm, dir)
  = scan_manifest rest (Some value, nm, dir).
Proof.
  intros Hv. cbn [scan_manifest]. rewrite strip_acf_line.
  rewrite startswith_own_key.
  rewrite quoted_value_stripped; [reflexivity | | exact Hv].
  intros H. vm_compute in H. intuition discriminate.
Qed.

Lemma scan_name_line value rest id nm dir :
  ~ In QUOTE value ->
  scan_manifest ((TAB :: stripped_line (lit "name") value) :: rest) (id, nm, dir)
  = scan_manifest rest (id, Some value, dir).
Proof.
  intros Hv. cbn [scan_manifest]. rewrite strip_acf_line.
  change (startswith (quoted (lit "appid")) (stripped_line (lit "name") value))
    with false.
  rewrite startswith_own_key.
  rewrite quoted_value_stripped; [reflexivity | | exact Hv].
  intros H. vm_compute in H. intuition discriminate.
Qed.

Lemma scan_installdir_line value rest id nm dir :
  ~ In QUOTE value ->
  scan_manifest ((TAB :: stripped_line (lit "installdir") value) :: rest) (id, nm, dir)
  = scan_manifest rest (id, nm, Some value).
Proof.
  intros Hv. cbn [scan_manifest]. rewrite strip_acf_line.
  change (startswith (quoted (lit "appid")) (stripped_line (lit "installdir") value))
    with false.
  change (startswith (quoted (lit "name")) (stripped_line (lit "installdir") value))
    with false.
  rewrite startswith_own_key.
  rewrite quoted_value_stripped; [reflexivity | | exact Hv].
  intros H. vm_compute in H. intuition discriminate.
Qed.

Lemma acf_manifest_text id nm dir :
  acf_manifest id nm dir =
  quoted (lit "AppState") ++ LF ::
  (lit "{" ++ LF ::
  ((TAB :: stripped_line (lit "appid") id) ++ LF ::
  ((TAB :: stripped_line (lit "name") nm) ++ LF ::
  ((TAB :: stripped_line (lit "installdir") dir) ++ LF ::
  (lit "}" ++ LF :: []))))).
Proof.
  unfold acf_manifest, acf_line, stripped_line.
  repeat (rewrite <- ?app_assoc; cbn [app]; f_equal).
Qed.

Lemma stripped_line_without c key value :
  c <> QUOTE -> c <> TAB -> ~ In c key -> ~ In c value ->
  ~ In c (TAB :: stripped_line key value).
Proof.
  intros Hq Ht Hk Hv. unfold stripped_line, quoted.
  intros [H|H]; [congruence|].
  repeat (apply in_app_or in H as [H|H] || destruct H as [H|H]);
    try congruence; auto.
Qed.

Lemma acf_manifest_lines id nm dir :
  plain id -> plain nm -> plain dir ->
  split LF (universal_newlines (acf_manifest id nm dir)) =
  [quoted (lit "AppState"); lit "{";
   TAB :: stripped_line (lit "appid") id;
   TAB :: stripped_line (lit "name") nm;
   TAB :: stripped_line (lit "installdir") dir;
   lit "}"; []].
Proof.
  intros (_ & _ & Hil & Hic) (_ & _ & Hnl & Hnc) (_ & _ & Hdl & Hdc).
  assert (Hconst : forall c (k : str), c = LF \/ c = CR ->
            In k [quoted (lit "AppState"); lit "{"; lit "}";
                  lit "appid"; lit "name"; lit "installdir"] -> ~ In c k).
  { intros c k Hc Hk Hin.
    destruct Hc as [-> | ->];
      repeat (destruct Hk as [<-|Hk]; [vm_compute in Hin; intuition discriminate|]);
      destruct Hk. }
  assert (Hline : forall c key value, c = LF \/ c = CR ->
            In key [lit "appid"; lit "name"; lit "installdir"] ->
            ~ In c value -> ~ In c (TAB :: stripped_line key value)).
  { intros c key value Hc Hk Hv. apply stripped_line_without; auto.
    - destruct Hc as [-> | ->]; discriminate.
    - destruct Hc as [-> | ->]; discriminate.
    - apply Hconst; [exact Hc|]. simpl in *. intuition. }
  unfold universal_newlines. rewrite decode_newlines_id.
  - rewrite acf_manifest_text.
    rewrite split_at_sep by (apply Hconst; simpl; auto).
    rewrite split_at_sep by (apply Hconst; simpl; auto).
    rewrite split_at_sep by (apply Hline; simpl; auto).
    rewrite split_at_sep by (apply Hline; simpl; auto).
    rewrite split_at_sep by (apply Hline; simpl; auto).
    rewrite split_at_sep by (apply Hconst; simpl; auto).
    reflexivity.
  - rewrite acf_manifest_text. intros H.
    apply in_app_or in H as [H|[H|H]];
      [revert H; apply Hconst; simpl; auto | discriminate H |].
    apply in_app_or in H as [H|[H|H]];
      [revert H; apply Hconst; simpl; auto | discriminate H |].
    apply in_app_or in H as [H|[H|H]];
      [revert H; apply (Hline CR (lit "appid") id); simpl; auto | discriminate H |].
    apply in_app_or in H as [H|[H|H]];
      [revert H; apply (Hline CR (lit "name") nm); simpl; auto | discriminate H |].
    apply in_app_or in H as [H|[H|H]];
      [revert H; apply (Hline CR (lit "installdir") dir); simpl; auto | discriminate H |].
    apply in_app_or in H as [H|[H|[]]];
      [revert H; apply Hconst; simpl; auto | discriminate H].
Qed.

(** X9.  A manifest in the layout Steam writes, with plain values, is read
    back: the record has exactly the id, the name and the install directory
    of the file, provided the install path exists. *)
Theorem manifest_round_trip (library manifest_file id nm dir : str) :
  plain id -> plain nm -> plain dir ->
  read_text d manifest_file = Some (acf_manifest id nm dir) ->
  disk_exists d
    (truediv (truediv (truediv library (lit "steamapps")) (lit "common")) dir) = true ->
  manifest_game d library manifest_file =
    Some {| app_id := id; name := nm; install_dir := dir;
            game_path :=
              truediv (truediv (truediv library (lit "steamapps")) (lit "common")) dir;
            library_path := library |}.
Proof.
  intros Hi Hn Hd Hr He. unfold manifest_game. rewrite Hr.
  rewrite acf_manifest_lines by assumption.
  destruct Hi as (Hi0 & Hiq & _), Hn as (Hn0 & Hnq & _), Hd as (Hd0 & Hdq & _).
  rewrite scan_other_line by reflexivity.
  rewrite scan_other_line by reflexivity.
  rewrite scan_appid_line by exact Hiq.
  rewrite scan_name_line by exact Hnq.
  rewrite scan_installdir_line by exact Hdq.
  rewrite scan_other_line by reflexivity.
  rewrite scan_other_line by reflexivity.
  cbn [scan_manifest].
  destruct id as [|? ?]; [congruence|].
  destruct nm as [|? ?]; [congruence|].
  destruct dir as [|? ?]; [congruence|].
  cbn [truthy]. now rewrite He.
Qed.

End GamesMore.

(** ** The libraries *)

Section LibrariesFacts.

Import SteamUtils Libraries.

Variable d : Disk.

(** *** The pattern *)

Lemma until_quote_spec s v :
  until_quote s = Some v -> exists after, s = v ++ QUOTE :: after /\ ~ In QUOTE v.
Proof.
  revert v. induction s as [|c s IH]; simpl; intros v H; [discriminate|].
  destruct (ascii_dec c QUOTE) as [->|Hc].
  - injection H as <-. exists s. split; [reflexivity | intros []].
  - destruct (until_quote s) as [w|]; [|discriminate].
    injection H as <-. destruct (IH w eq_refl) as (after & -> & Hw).
    exists after. split; [reflexivity|]. intros [E|E]; [congruence | auto].
Qed.

Lemma until_quote_app v after :
  ~ In QUOTE v -> until_quote (v ++ QUOTE :: after) = Some v.
Proof.
  induction v as [|c v IH]; simpl; intros H.
  - destruct (ascii_dec QUOTE QUOTE); [reflexivity | congruence].
  - destruct (ascii_dec c QUOTE) as [->|Hc]; [exfalso; auto|].
    rewrite IH by auto. reflexivity.
Qed.

Lemma lstrip_blanks s :
  exists blanks, s = blanks ++ lstrip s /\ forallb is_space blanks = true.
Proof.
  induction s as [|c s (blanks & Hs & Hb)]; simpl.
  - now exists [].
  - destruct (is_space c) eqn:E.
    + exists (c :: blanks). simpl. rewrite E, Hb. split; [congruence | reflexivity].
    + now exists [].
Qed.

Lemma startswith_skipn p s :
  startswith p s = true -> s = p ++ skipn (length p) s.
Proof.
  revert s. induction p as [|a p IH]; intros s; simpl; [reflexivity|].
  destruct s as [|b s]; [discriminate|].
  destruct (ascii_dec a b) as [->|]; [|discriminate].
  intros H. f_equal. auto.
Qed.

Lemma match_path_spec s value n :
  match_path s = Some (value, n) ->
  value <> [] /\ ~ In QUOTE value /\
  exists blanks after,
    s = quoted (lit "path") ++ blanks ++ quoted value ++ after /\
    forallb is_space blanks = true.
Proof.
  unfold match_path.
  destruct (startswith (quoted (lit "path")) s) eqn:Hk; [|discriminate].
  apply startswith_skipn in Hk.
  change (length (quoted (lit "path"))) with 6 in Hk.
  destruct (lstrip_blanks (skipn 6 s)) as (blanks & Hs & Hb).
  destruct (lstrip (skipn 6 s)) as [|c rest]; [discriminate|].
  destruct (ascii_dec c QUOTE) as [->|]; [|discriminate].
  destruct (until_quote rest) as [[|v w]|] eqn:Hu; try discriminate.
  intros H. injection H as <- _.
  apply until_quote_spec in Hu as (after & -> & Hq).
  split; [discriminate|]. split; [exact Hq|].
  exists blanks, after. split; [|exact Hb].
  rewrite Hk at 1. rewrite Hs. unfold quoted.
  repeat (rewrite <- ?app_assoc; cbn [app]). reflexivity.
Qed.

Lemma registers_cons c s value : registers s value -> registers (c :: s) value.
Proof.
  intros (before & blanks & after & -> & Hb).
  exists (c :: before), blanks, after. split; [reflexivity | exact Hb].
Qed.

Lemma findall_from_sound s : forall skip value,
  In value (findall_from s skip) ->
  value <> [] /\ ~ In QUOTE value /\ registers s value.
Proof.
  induction s as [|c s IH]; intros skip value; [intros []|].
  cbn [findall_from]. destruct skip as [|k].
  - destruct (match_path (c :: s)) as [[v n]|] eqn:Hm.
    + intros [<-|Hin].
      * destruct (match_path_spec _ _ _ Hm) as (H1 & H2 & blanks & after & Hs & Hb).
        repeat split; auto. exists [], blanks, after. auto.
      * destruct (IH _ _ Hin) as (H1 & H2 & H3).
        repeat split; auto using registers_cons.
    + intros Hin. destruct (IH _ _ Hin) as (H1 & H2 & H3).
      repeat split; auto using registers_cons.
  - intros Hin. destruct (IH _ _ Hin) as (H1 & H2 & H3).
    repeat split; auto using registers_cons.
Qed.

(** X10.  Whatever the pattern extracts from a text is written in it: the value
    is not empty, has no double quote, and stands in the text between double
    quotes after the key "path" and white space only. *)
Theorem findall_paths_sound (content value : str) :
  In value (findall_paths content) ->
  value <> [] /\ ~ In QUOTE value /\ registers content value.
Proof. apply findall_from_sound. Qed.

Lemma findall_from_skip passed : forall s,
  findall_from (passed ++ s) (length passed) = findall_from s 0.
Proof.
  induction passed as [|c passed IH]; intros s; [reflexivity|].
  simpl. apply IH.
Qed.

Lemma match_path_entry value after :
  value <> [] -> ~ In QUOTE value ->
  match_path (quoted (lit "path") ++ [ascii_of_nat 9; ascii_of_nat 9] ++
              quoted value ++ after)
  = Some (value, 6 + 2 + 1 + length value + 1).
Proof.
  intros Hne Hq. unfold match_path.
  rewrite startswith_app.
  set (entry := quoted value ++ after).
  change (skipn 6 (quoted (lit "path") ++ [ascii_of_nat 9; ascii_of_nat 9] ++ entry))
    with (ascii_of_nat 9 :: ascii_of_nat 9 :: entry).
  assert (Hl : lstrip (ascii_of_nat 9 :: ascii_of_nat 9 :: entry) = entry)
    by reflexivity.
  rewrite Hl.
  replace (length (ascii_of_nat 9 :: ascii_of_nat 9 :: entry) - length entry)
    with 2 by (cbn [length]; lia).
  unfold entry, quoted. cbn [app].
  destruct (ascii_dec QUOTE QUOTE); [|congruence].
  rewrite <- app_assoc. cbn [app]. rewrite until_quote_app by exact Hq.
  destruct value as [|v w]; [congruence | reflexivity].
Qed.

Lemma match_path_not_quote c s : c <> QUOTE -> match_path (c :: s) = None.
Proof.
  intros Hc. unfold match_path, quoted. cbn [startswith].
  destruct (ascii_dec QUOTE c); [congruence | reflexivity].
Qed.

Lemma findall_from_other c s :
  c <> QUOTE -> findall_from (c :: s) 0 = findall_from s 0.
Proof. intros Hc. cbn [findall_from]. now rewrite match_path_not_quote. Qed.

Lemma findall_from_match value after :
  value <> [] -> ~ In QUOTE value ->
  findall_from (quoted (lit "path") ++ [ascii_of_nat 9; ascii_of_nat 9] ++
                quoted value ++ after) 0
  = value :: findall_from after 0.
Proof.
  intros Hne Hq.
  pose proof (match_path_entry value after Hne Hq) as Hm.
  set (passed := lit "path" ++ [QUOTE] ++ [ascii_of_nat 9; ascii_of_nat 9] ++
                 quoted value).
  assert (Hs : quoted (lit "path") ++ [ascii_of_nat 9; ascii_of_nat 9] ++
               quoted value ++ after = QUOTE :: passed ++ after).
  { unfold passed, quoted. repeat (rewrite <- ?app_assoc; cbn [app]). reflexivity. }
  rewrite Hs in *. cbn [findall_from]. rewrite Hm. f_equal.
  replace (6 + 2 + 1 + length value + 1 - 1) with (length passed).
  - apply findall_from_skip.
  - unfold passed, quoted. rewrite !length_app. cbn [length].
    rewrite length_app. change (length (lit "path")) with 4. cbn [length]. lia.
Qed.

Lemma findall_from_entry value rest :
  value <> [] -> ~ In QUOTE value ->
  findall_from (vdf_entry value ++ rest) 0 = value :: findall_from rest 0.
Proof.
  intros Hne Hq. unfold vdf_entry.
  repeat rewrite <- app_assoc. cbn [app].
  rewrite findall_from_other by discriminate.
  rewrite findall_from_other by discriminate.
  change (ascii_of_nat 9 :: ascii_of_nat 9 :: quoted value ++ LF :: rest)
    with ([ascii_of_nat 9; ascii_of_nat 9] ++ quoted value ++ LF :: rest).
  rewrite findall_from_match by assumption.
  now rewrite findall_from_other by discriminate.
Qed.

(** X11.  A library folders file made of one entry per library, in the layout
    Steam writes, gives back the paths of its entries, in order. *)
Theorem findall_paths_round_trip (values : list str) :
  Forall (fun v => v <> [] /\ ~ In QUOTE v) values ->
  findall_paths (concat (map vdf_entry values)) = values.
Proof.
  unfold findall_paths. induction 1 as [|v values [Hne Hq] _ IH]; [reflexivity|].
  cbn [map concat]. rewrite findall_from_entry by assumption. now rewrite IH.
Qed.

(** *** The list of libraries *)

Lemma listed_in_spec libraries lib : listed_in libraries lib = true <-> In lib libraries.
Proof.
  unfold listed_in. rewrite existsb_exists. split.
  - intros (x & Hx & E). apply eqb_eq in E. now subst.
  - intros H. exists lib. split; [exact H | apply eqb_refl].
Qed.

Lemma NoDup_snoc (l : list str) x : NoDup l -> ~ In x l -> NoDup (l ++ [x]).
Proof.
  intros Hnd Hx. apply NoDup_app; [exact Hnd | repeat constructor; easy |].
  intros y Hy [<-|[]]. contradiction.
Qed.

(** What the two loops maintain: no duplicate, the same head, and nothing
    but what was there or what the loop was given. *)
Lemma add_scanned_fold additional : forall libraries,
  NoDup libraries ->
  let result := fold_left add_scanned additional libraries in
  NoDup result /\
  (forall lib, In lib result <-> In lib libraries \/ In lib additional) /\
  (forall x, hd_error libraries = Some x -> hd_error result = Some x).
Proof.
  induction additional as [|a additional IH]; intros libraries Hnd; simpl.
  - repeat split; auto. intros [H|[]]. exact H.
  - destruct (listed_in libraries a) eqn:E.
    + replace (add_scanned libraries a) with libraries
        by (unfold add_scanned; now rewrite E).
      apply listed_in_spec in E. destruct (IH libraries Hnd) as (H1 & H2 & H3).
      repeat split; auto.
      * intros H. apply H2 in H. tauto.
      * intros [H|[<-|H]]; apply H2; auto.
    + replace (add_scanned libraries a) with (libraries ++ [a])
        by (unfold add_scanned; now rewrite E).
      assert (Ha : ~ In a libraries).
      { intros H. apply listed_in_spec in H. congruence. }
      destruct (IH (libraries ++ [a]) (NoDup_snoc _ _ Hnd Ha)) as (H1 & H2 & H3).
      repeat split; auto.
      * intros H. apply H2 in H. rewrite in_app_iff in H. simpl in *. tauto.
      * intros H. apply H2. rewrite in_app_iff. simpl in *. tauto.
      * intros x Hx. apply H3. destruct libraries; [discriminate | exact Hx].
Qed.

Lemma add_registered_fold paths : forall libraries,
  NoDup libraries ->
  let result := fold_left (add_registered d) paths libraries in
  NoDup result /\
  (forall lib, In lib result <->
     In lib libraries \/
     exists p, In p paths /\ lib = Path p /\ disk_exists d lib = true) /\
  (forall x, hd_error libraries = Some x -> hd_error result = Some x).
Proof.
  induction paths as [|a paths IH]; intros libraries Hnd; simpl.
  - repeat split; auto. intros [H|(p & [] & _)]. exact H.
  - destruct (disk_exists d (Path a)) eqn:Ex.
    2:{ replace (add_registered d libraries a) with libraries
          by (unfold add_registered; now rewrite Ex).
        destruct (IH libraries Hnd) as (H1 & H2 & H3). repeat split; auto.
        - intros H. apply H2 in H as [H|(p & Hp & Hl & He)]; [now left|].
          right. exists p. auto.
        - intros [H|(p & [<-|Hp] & Hl & He)]; apply H2; [now left | congruence |].
          right. exists p. auto. }
    destruct (listed_in libraries (Path a)) eqn:E.
    + replace (add_registered d libraries a) with libraries
        by (unfold add_registered; now rewrite Ex, E).
      apply listed_in_spec in E. destruct (IH libraries Hnd) as (H1 & H2 & H3).
      repeat split; auto.
      * intros H. apply H2 in H as [H|(p & Hp & Hl & He)]; [now left|].
        right. exists p. auto.
      * intros [H|(p & [<-|Hp] & Hl & He)]; apply H2; [now left | left; congruence |].
        right. exists p. auto.
    + replace (add_registered d libraries a) with (libraries ++ [Path a])
        by (unfold add_registered; now rewrite Ex, E).
      assert (Ha : ~ In (Path a) libraries).
      { intros H. apply listed_in_spec in H. congruence. }
      destruct (IH (libraries ++ [Path a]) (NoDup_snoc _ _ Hnd Ha)) as (H1 & H2 & H3).
      repeat split; auto.
      * intros H. apply H2 in H as [H|(p & Hp & Hl & He)].
        -- apply in_app_iff in H as [H|[<-|[]]]; [now left|].
           right. exists a. auto.
        -- right. exists p. auto.
      * intros [H|(p & [<-|Hp] & Hl & He)]; apply H2.
        -- left. apply in_app_iff. now left.
        -- left. apply in_app_iff. right. left. congruence.
        -- right. exists p. auto.
      * intros x Hx. apply H3. destruct libraries; [discriminate | exact Hx].
Qed.

(** X12.  No library is listed twice, and the Steam root, when there is one, comes
    first. *)
Theorem libraries_without_duplicates (steam_path : option str)
  (additional_libraries : list str) :
  NoDup (find_all_steam_libraries d steam_path additional_libraries) /\
  (forall steam, steam_path = Some steam ->
     hd_error (find_all_steam_libraries d steam_path additional_libraries)
     = Some steam).
Proof.
  unfold find_all_steam_libraries. destruct steam_path as [steam|].
  - destruct (add_registered_fold (registered_paths d steam) [steam])
      as (H1 & _ & H3); [repeat constructor; easy|].
    destruct (add_scanned_fold additional_libraries _ H1) as (H4 & _ & H6).
    split; [exact H4|]. intros x Hx. injection Hx as <-. apply H6, H3. reflexivity.
  - destruct (add_scanned_fold additional_libraries [] (NoDup_nil _)) as (H4 & _).
    split; [exact H4 | discriminate].
Qed.

(** X13.  Nothing else is listed than the Steam root, the paths that the
    library folders file of the root registers and that exist, once made
    into paths, and the libraries found on the drives; and the Steam root
    and every library found on the drives are listed. *)
Theorem libraries_listed (steam_path : option str) (additional_libraries : list str)
  (lib : str) :
  (In lib (find_all_steam_libraries d steam_path additional_libraries) ->
   steam_path = Some lib \/
   (exists steam p, steam_path = Some steam /\ In p (registered_paths d steam) /\
                    lib = Path p /\ disk_exists d lib = true) \/
   In lib additional_libraries) /\
  (steam_path = Some lib \/ In lib additional_libraries ->
   In lib (find_all_steam_libraries d steam_path additional_libraries)).
Proof.
  unfold find_all_steam_libraries. destruct steam_path as [steam|].
  - destruct (add_registered_fold (registered_paths d steam) [steam])
      as (H1 & H2 & _); [repeat constructor; easy|].
    destruct (add_scanned_fold additional_libraries _ H1) as (_ & H5 & _).
    cbn zeta in H5. rewrite H5, H2. simpl. split.
    + intros [[[->|[]]|(p & Hp & Hl & He)]|H]; auto.
      right. left. exists steam, p. auto.
    + intros [H|H]; auto. injection H as ->. auto.
  - destruct (add_scanned_fold additional_libraries [] (NoDup_nil _)) as (_ & H5 & _).
    cbn zeta in H5. rewrite H5. simpl. split.
    + intros [[]|H]. auto.
    + intros [H|H]; [discriminate | auto].
Qed.

End LibrariesFacts.

(** ** More on the auxiliary asset, on a store of regular files *)

Section AssetFlat.

Import FSRManager.

Lemma flat_set_same (fs : FlatFS) p v : flat_set fs p v p = v.
Proof. unfold flat_set. now rewrite eqb_refl. Qed.

Lemma flat_set_other (fs : FlatFS) p v q : q <> p -> flat_set fs p v q = fs q.
Proof. intros H. unfold flat_set. apply eqb_neq in H. now rewrite H. Qed.

(** The state after a copy of the file at [src] to [dst]. *)
Lemma flat_copy2_spec src dst (fs fs' : FlatFS) :
  fs_copy2 src dst fs = Some fs' ->
  fs src <> None /\ fs' dst = fs src /\ forall q, q <> dst -> fs' q = fs q.
Proof.
  simpl. unfold flat_copy2. destruct (eqb src dst); [discriminate|].
  destruct (fs src) as [content|] eqn:E; [|discriminate].
  intros H. injection H as <-. split; [discriminate|].
  split; [apply flat_set_same | intros q Hq; now apply flat_set_other].
Qed.

Lemma download_installs_asset sel m (fs : FlatFS) m1 fs1 :
  download_fsr4_dll sel m fs = (true, m1, fs1) ->
  config_dir m1 = config_dir m /\
  fsr4_dll_path m1 = Some (join (config_dir m) DLL_NAME) /\
  (exists src, fs src <> None /\ fs1 (join (config_dir m) DLL_NAME) = fs src) /\
  (forall q, q <> join (config_dir m) DLL_NAME -> fs1 q = fs q).
Proof.
  unfold download_fsr4_dll.
  destruct (eqb _ _); [|discriminate].
  destruct (fs_exists fs _); [|discriminate].
  destruct (fs_copy2 _ _ fs) as [fs2|] eqn:Hc; [|discriminate].
  intros H. injection H as <- <-. simpl.
  destruct (flat_copy2_spec _ _ _ _ Hc) as (H1 & H2 & H3).
  repeat split; auto. eauto.
Qed.

(** X14.  A selection that succeeds has copied the bytes of a file that existed
    to amdxcffx64.dll in the configuration directory, has changed no other
    file, and has made that copy the active asset, which is then no longer
    missing. *)
Theorem selection_installs_asset (sel : Selection) (m : Manager) (fs : FlatFS)
  (m1 : Manager) (fs1 : FlatFS) :
  select_fsr4_version sel m fs = Some (true, m1, fs1) ->
  config_dir m1 = config_dir m /\
  fsr4_dll_path m1 = Some (join (config_dir m) DLL_NAME) /\
  (exists src, fs src <> None /\ fs1 (join (config_dir m) DLL_NAME) = fs src) /\
  (forall q, q <> join (config_dir m) DLL_NAME -> fs1 q = fs q) /\
  asset_missing m1 fs1 = false.
Proof.
  intros H.
  assert (Hpost : config_dir m1 = config_dir m /\
                  fsr4_dll_path m1 = Some (join (config_dir m) DLL_NAME) /\
                  (exists src, fs src <> None /\
                               fs1 (join (config_dir m) DLL_NAME) = fs src) /\
                  (forall q, q <> join (config_dir m) DLL_NAME -> fs1 q = fs q)).
  { unfold select_fsr4_version in H.
    destruct (available_versions sel) as [|v vs].
    - injection H as H. now apply download_installs_asset in H.
    - destruct (version_choice sel) as [choice|]; [|discriminate].
      destruct (_ && _)%bool.
      + destruct (nth_error _ _) as [[? selected_path]|]; [|discriminate].
        destruct (fs_copy2 _ _ fs) as [fs2|] eqn:Hc; [|discriminate].
        injection H as <- <-. simpl.
        destruct (flat_copy2_spec _ _ _ _ Hc) as (H1 & H2 & H3).
        repeat split; auto. eauto.
      + destruct (_ =? _)%Z; [|discriminate].
        injection H as H. now apply download_installs_asset in H. }
  destruct Hpost as (H1 & H2 & (src & Hsrc & H3) & H4).
  repeat split; auto; [eauto|].
  unfold asset_missing. rewrite H2. simpl. unfold flat_exists.
  rewrite H3. destruct (fs src); [reflexivity | congruence].
Qed.

(** X15.  After a copy into the compatibility directory that succeeds, the file
    amdxcffx64.dll in its system32 directory holds the bytes of the active
    asset. *)
Theorem copy_to_compat_dir_installs_asset (sel : Selection) (m : Manager)
  (app compatdata_path : str) (fs : FlatFS) (m1 : Manager) (fs1 : FlatFS) :
  copy_fsr4_dll_to_compatdata sel m app compatdata_path fs = Some (true, m1, fs1) ->
  exists src,
    fsr4_dll_path m1 = Some src /\
    fs1 src <> None /\
    fs1 (join (system32_path compatdata_path) DLL_NAME) = fs1 src.
Proof.
  unfold copy_fsr4_dll_to_compatdata.
  destruct (if asset_missing m fs then select_fsr4_version sel m fs
            else Some (true, m, fs)) as [[[[] m2] fs2]|]; try discriminate.
  destruct (fs_mkdir_p _ fs2) as [fs3|]; [|discriminate].
  unfold copy_active_asset.
  destruct (fsr4_dll_path m2) as [src|] eqn:Hp; [|discriminate].
  destruct (fs_copy2 src _ fs3) as [fs4|] eqn:Hc; [|discriminate].
  intros H. injection H as <- <-.
  destruct (flat_copy2_spec _ _ _ _ Hc) as (H1 & H2 & H3).
  exists src. split; [exact Hp|].
  destruct (list_eq_dec ascii_dec src (join (system32_path compatdata_path) DLL_NAME))
    as [E|E].
  - rewrite <- E in *. split; congruence.
  - rewrite (H3 src E). split; congruence.
Qed.

(** X16.  The removal from the compatibility directory never fails on a store of
    regular files, whether the file is there or not: afterwards it is not
    there, and no other file has changed. *)
Theorem remove_from_compat_dir_clears (app compatdata_path : str) (fs : FlatFS) :
  exists fs',
    remove_fsr4_dll_from_compatdata app compatdata_path fs = Some (true, fs') /\
    fs' (join (system32_path compatdata_path) DLL_NAME) = None /\
    (forall q, q <> join (system32_path compatdata_path) DLL_NAME -> fs' q = fs q).
Proof.
  unfold remove_fsr4_dll_from_compatdata. simpl. unfold flat_exists, flat_unlink.
  destruct (fs (join (system32_path compatdata_path) DLL_NAME)) eqn:E.
  - eexists. split; [reflexivity|]. split.
    + apply flat_set_same.
    + intros q Hq. now apply flat_set_other.
  - exists fs. auto.
Qed.

End AssetFlat.

(** ** More on fetching the latest build *)

Section FetchMore.

Import OptiScalerInstaller.
Context {FS : Type} {HFS : FileSystem FS}.

Lemma endswith_app_r suffix a b :
  endswith suffix b = true -> endswith suffix (a ++ b) = true.
Proof.
  unfold endswith. rewrite rev_app_distr. apply startswith_app_l.
Qed.

Lemma startswith_spec (p s : str) : startswith p s = true -> exists t, s = p ++ t.
Proof.
  revert s. induction p as [|a p IH]; intros s H; [now exists s|].
  destruct s as [|b s]; [discriminate|]. simpl in H.
  destruct (ascii_dec a b) as [<-|]; [|discriminate].
  destruct (IH s H) as (t & ->). now exists t.
Qed.

Lemma endswith_spec (suffix s : str) :
  endswith suffix s = true -> exists x, s = x ++ suffix.
Proof.
  unfold endswith. intros H. apply startswith_spec in H as (t & H).
  exists (rev t). apply (f_equal (@rev ascii)) in H.
  now rewrite rev_involutive, rev_app_distr, rev_involutive in H.
Qed.

(** The last piece of a text takes what is appended without a separator. *)
Lemma split_app_last sep (x y : str) :
  ~ In sep y ->
  exists init l, split sep x = init ++ [l] /\ split sep (x ++ y) = init ++ [l ++ y].
Proof.
  intros Hy. induction x as [|c x (init & l & Hx & Hxy)]; cbn [app split].
  - exists [], []. split; [reflexivity|]. now apply split_no_sep.
  - destruct (ascii_dec c sep).
    + exists ([] :: init), l. now rewrite Hx, Hxy.
    + rewrite Hx, Hxy. destruct init as [|piece init]; cbn [app].
      * now exists [], (c :: l).
      * now exists ((c :: piece) :: init), l.
Qed.

(** A name that ends with a proper suffix keeps it as a path: its last part
    is neither empty nor the dot, so it is the last part of the path. *)
Lemma path_parts_last (name suffix : str) :
  suffix <> [] -> suffix <> lit "." -> ~ In SLASH suffix ->
  endswith suffix name = true ->
  exists init c, path_parts name = init ++ [c] /\ endswith suffix c = true.
Proof.
  intros Hne Hdot Hslash H. apply endswith_spec in H as (x & ->).
  destruct (split_app_last SLASH x suffix Hslash) as (init & l & _ & Hs).
  unfold path_parts. rewrite Hs, filter_app. cbn [filter].
  assert (E1 : eqb (l ++ suffix) [] = false).
  { apply eqb_neq. destruct l, suffix; try discriminate. congruence. }
  assert (E2 : eqb (l ++ suffix) (lit ".") = false).
  { apply eqb_neq. intros E. destruct l as [|a l]; [now apply Hdot|].
    destruct l, suffix; try discriminate. congruence. }
  rewrite E1, E2. cbn [negb andb]. eexists _, (l ++ suffix).
  split; [reflexivity | apply endswith_app].
Qed.

Lemma join_parts_last (suffix : str) (parts : list str) (c : str) :
  endswith suffix c = true -> endswith suffix (join_parts (parts ++ [c])) = true.
Proof.
  intros H. induction parts as [|a parts IH]; [exact H|].
  cbn [app join_parts]. destruct (parts ++ [c]) as [|b rest] eqn:E.
  - now destruct parts.
  - change (a ++ SLASH :: join_parts (b :: rest))
      with (a ++ [SLASH] ++ join_parts (b :: rest)).
    rewrite app_assoc. now apply endswith_app_r.
Qed.

(** [config_dir / name] ends the way [name] ends. *)
Lemma truediv_keeps_suffix (p name suffix : str) :
  suffix <> [] -> suffix <> lit "." -> ~ In SLASH suffix ->
  endswith suffix name = true -> endswith suffix (truediv p name) = true.
Proof.
  intros Hne Hdot Hslash H.
  destruct (path_parts_last name suffix Hne Hdot Hslash H) as (init & c & Hp & Hc).
  unfold truediv, Path. rewrite Hp.
  destruct (path_root name) as [|r root].
  - rewrite app_assoc. destruct (path_root p) as [|a root].
    + destruct ((path_parts p ++ init) ++ [c]) as [|b rest] eqn:E.
      * now destruct (path_parts p ++ init).
      * rewrite <- E. now apply join_parts_last.
    + now apply endswith_app_r, join_parts_last.
  - now apply endswith_app_r, join_parts_last.
Qed.

Lemma scan_assets_some l asset :
  scan_assets l = Some asset -> In asset l /\ is_archive asset = true.
Proof. rewrite scan_assets_find. apply find_some. Qed.

Lemma scan_releases_some releases asset :
  scan_releases releases = Some asset ->
  exists release, In release releases /\ is_nightly release = true /\
                  In asset (assets release) /\ is_archive asset = true.
Proof.
  induction releases as [|r rest IH]; simpl; [discriminate|].
  destruct (is_nightly r) eqn:En.
  - destruct (scan_assets (assets r)) as [a|] eqn:Ea.
    + intros H. injection H as <-. apply scan_assets_some in Ea as [? ?].
      exists r. auto.
    + intros H. destruct (IH H) as (x & ? & ? & ? & ?). exists x. auto.
  - intros H. destruct (IH H) as (x & ? & ? & ? & ?). exists x. auto.
Qed.

(** X17.  Whatever path comes back is the path [config_dir / name] for an
    asset of the listing whose name ends in .zip or .7z, and the path itself
    ends in .zip or .7z. *)
Theorem downloaded_path_is_an_archive (net : Network) (config_dir : str) (fs : FS)
  (path : str) (fs' : FS) :
  download_latest_nightly net config_dir fs = (Some path, fs') ->
  (endswith (lit ".zip") path || endswith (lit ".7z") path) = true /\
  exists releases release asset,
    get_releases net = Some releases /\ In release releases /\
    In asset (assets release) /\ path = truediv config_dir (asset_name asset).
Proof.
  unfold download_latest_nightly.
  destruct (get_releases net) as [releases|]; [|discriminate].
  assert (Hfinal : forall release asset,
            In release releases -> In asset (assets release) ->
            is_archive asset = true ->
            download_asset net config_dir asset fs = (Some path, fs') ->
            (endswith (lit ".zip") path || endswith (lit ".7z") path) = true /\
            exists releases0 release0 asset0,
              Some releases = Some releases0 /\ In release0 releases0 /\
              In asset0 (assets release0) /\
              path = truediv config_dir (asset_name asset0)).
  { intros release asset Hr Ha Harch Hd.
    apply download_asset_path in Hd as [-> _]. split.
    - unfold is_archive in Harch. apply orb_true_iff in Harch.
      apply orb_true_iff.
      destruct Harch as [H|H]; [left | right];
        (apply truediv_keeps_suffix;
         [discriminate | discriminate
          | intros Hin; vm_compute in Hin; intuition discriminate | exact H]).
    - exists releases, release, asset. auto. }
  destruct (scan_releases releases) as [asset|] eqn:Es.
  - apply scan_releases_some in Es as (release & Hr & _ & Ha & Harch).
    now apply Hfinal with (release := release).
  - destruct releases as [|latest rest]; [discriminate|].
    destruct (scan_assets (assets latest)) as [asset|] eqn:Ea; [|discriminate].
    apply scan_assets_some in Ea as [Ha Harch].
    apply Hfinal with (release := latest); auto. now left.
Qed.

End FetchMore.

Section FetchFlat.

Import OptiScalerInstaller.

Variable net : Network.
Variable config_dir : str.



End FetchFlat.

(** ** More on backups and on uninstalling, on a store of regular files *)

Section BackupMore.

Import OptiScalerInstaller.

Variable target_dir : str.
Variable fs0 : FlatFS.

#[local] Abbreviation original := (original_path target_dir).
#[local] Abbreviation backup := (backup_path target_dir).

#[local] Abbreviation present := (fun n => flat_exists fs0 (original n)).

Lemma dict_set_append d k v :
  ~ In k (map fst d) -> dict_set d k v = d ++ [(k, v)].
Proof.
  induction d as [|[a b] d IH]; simpl; intros H; [reflexivity|].
  destruct (eqb a k) eqn:E.
  - apply eqb_eq in E. exfalso. auto.
  - rewrite IH by auto. reflexivity.
Qed.

Lemma backup_loop_map names : forall (fs : FlatFS) backup_map,
  NoDup names ->
  (forall n, In n names -> ~ In n (map fst backup_map)) ->
  Forall (fun n => endswith BACKUP_SUFFIX n = false) names ->
  (forall q, (forall n, q <> backup n) -> fs q = fs0 q) ->
  exists fs' : FlatFS,
    backup_loop target_dir names backup_map fs =
    Some (backup_map ++ map (fun n => (n, backup n)) (filter present names), fs').
Proof.
  induction names as [|n names IH]; intros fs m Hnd Hkeys Hnames Hfs.
  - exists fs. simpl. now rewrite app_nil_r.
  - inversion Hnd as [|? ? Hnin Hnd']; subst.
    inversion Hnames as [|? ? Hn Hrest]; subst.
    assert (Horig : fs (original n) = fs0 (original n)).
    { apply Hfs. intros n'. now apply original_not_backup. }
    cbn [backup_loop filter].
    change (join target_dir n) with (original n).
    change (join target_dir (n ++ BACKUP_SUFFIX)) with (backup n).
    change (fs_exists fs (original n)) with (flat_exists fs (original n)).
    unfold flat_exists. rewrite Horig.
    destruct (fs0 (original n)) as [content|] eqn:E.
    + unfold bind, call. change (fs_copy2 (original n) (backup n) fs)
        with (flat_copy2 (original n) (backup n) fs).
      unfold flat_copy2.
      rewrite (proj2 (eqb_neq _ _) (original_not_backup target_dir n n Hn)), Horig.
      rewrite dict_set_append by (apply Hkeys; now left).
      assert (Hkeys' : forall x, In x names ->
                ~ In x (map fst (m ++ [(n, backup n)]))).
      { intros x Hx. rewrite map_app, in_app_iff. simpl.
        intros [H|[H|[]]]; [apply (Hkeys x); [now right | exact H] | subst; auto]. }
      assert (Hfs' : forall q, (forall n', q <> backup n') ->
                flat_set fs (backup n) (Some content) q = fs0 q).
      { intros q Hq. unfold flat_set.
        destruct (eqb q (backup n)) eqn:Eq; [|auto].
        apply eqb_eq in Eq. now apply Hq in Eq. }
      destruct (IH _ _ Hnd' Hkeys' Hrest Hfs') as (fs' & Hl).
      exists fs'. rewrite Hl. cbn [map]. now rewrite <- app_assoc.
    + apply IH; auto. intros x Hx. apply Hkeys. now right.
Qed.

Lemma files_to_backup_distinct : NoDup files_to_backup.
Proof.
  repeat (constructor; [intros H; vm_compute in H; intuition discriminate|]).
  constructor.
Qed.

(** X19.  The backup map lists the vendor DLLs found in the directory, in the
    order of the fixed list, each with the path of its backup; a DLL that is
    absent is not listed.  Every backup holds the bytes of its original,
    whatever a file of that name held before, and nothing but backup paths
    has changed. *)
Theorem backup_records_present_files :
  exists fs1,
    backup_original_files target_dir fs0 =
      Some (map (fun n => (n, backup n)) (filter present files_to_backup), fs1) /\
    (forall n, In n files_to_backup -> fs0 (original n) <> None ->
               fs1 (backup n) = fs0 (original n)) /\
    (forall q, (forall n, q <> backup n) -> fs1 q = fs0 q).
Proof.
  destruct (backup_loop_map files_to_backup fs0 [] files_to_backup_distinct)
    as (fs1 & Hmap); auto using files_to_backup_are_originals.
  destruct (backup_loop_backed_up target_dir fs0 files_to_backup fs0 []
              files_to_backup_are_originals) as (m & fs1' & Hb & [Ha Hm Hc]).
  { split; [auto | intros ? ? [] | auto]. }
  unfold backup_original_files. rewrite Hmap in Hb.
  change ([] ++ ?l) with l in Hb, Hmap.
  assert (Em : m = map (fun n => (n, backup n)) (filter present files_to_backup))
    by congruence.
  assert (Ef : fs1' = fs1) by congruence.
  subst fs1'. exists fs1. split; [exact Hmap|]. split; [|exact Ha].
  intros n Hn Hp.
  destruct (Hm n (backup n)) as (_ & Hbytes & _); [|exact Hbytes].
  rewrite Em. apply in_map_iff. exists n. split; [reflexivity|].
  apply filter_In. split; [exact Hn|]. unfold flat_exists.
  destruct (fs0 (original n)); [reflexivity | congruence].
Qed.

End BackupMore.

Section UninstallMore.

Import OptiScalerInstaller.

Variable dir : str.

#[local] Abbreviation original := (original_path dir).
#[local] Abbreviation backup := (backup_path dir).

(** The files of the first clean-up loop are gone, the others are as they
    were. *)
Lemma unlink_each_flat (l : list str) : forall fs : FlatFS,
  exists fs',
    for_each l (fun filename fs =>
      if fs_exists fs (join dir filename) then call (fs_unlink (join dir filename)) fs
      else ret tt fs) fs = Some (tt, fs') /\
    forall q, fs' q = if existsb (fun f => eqb q (join dir f)) l then None else fs q.
Proof.
  induction l as [|x l IH]; intros fs.
  - exists fs. split; reflexivity.
  - cbn [for_each]. unfold bind.
    change (fs_exists fs (join dir x)) with (flat_exists fs (join dir x)).
    change (fs_unlink (join dir x)) with (flat_unlink (join dir x)).
    unfold flat_exists, call, flat_unlink, ret.
    destruct (fs (join dir x)) eqn:E.
    + destruct (IH (flat_set fs (join dir x) None)) as (fs' & Hr & Hq).
      exists fs'. split; [exact Hr|]. intros q. rewrite Hq. cbn [existsb].
      unfold flat_set. destruct (eqb q (join dir x)); cbn [orb]; [|reflexivity].
      now destruct (existsb _ l).
    + destruct (IH fs) as (fs' & Hr & Hq).
      exists fs'. split; [exact Hr|]. intros q. rewrite Hq. cbn [existsb].
      destruct (eqb q (join dir x)) eqn:Eq; cbn [orb]; [|reflexivity].
      apply eqb_eq in Eq. subst q. rewrite E. now destruct (existsb _ l).
Qed.

Lemma existsb_join_false (l : list str) q :
  (forall f, In f l -> q <> join dir f) ->
  existsb (fun f => eqb q (join dir f)) l = false.
Proof.
  intros H. destruct (existsb _ l) eqn:E; [|reflexivity].
  apply existsb_exists in E as (f & Hf & Eq). apply eqb_eq in Eq.
  now apply H in Eq.
Qed.

Lemma existsb_join_true (l : list str) f :
  In f l -> existsb (fun x => eqb (join dir f) (join dir x)) l = true.
Proof.
  intros H. apply existsb_exists. exists f. split; [exact H | apply eqb_refl].
Qed.

(** What the restore loop does to the backups of distinct originals. *)
Lemma restore_backups_flat (m : list (str * str)) : forall fs : FlatFS,
  NoDup (map fst m) ->
  (forall n b, In (n, b) m -> b = backup n /\ endswith BACKUP_SUFFIX n = false) ->
  exists fs',
    restore_backups dir m fs = Some (tt, fs') /\
    (forall n b, In (n, b) m ->
       fs' b = None /\
       fs' (original n) = match fs b with
                          | Some content => Some content
                          | None => fs (original n)
                          end) /\
    (forall q, (forall n b, In (n, b) m -> q <> original n /\ q <> b) -> fs' q = fs q).
Proof.
  induction m as [|[n b] m IH]; intros fs Hnd Hm.
  - exists fs. split; [reflexivity|]. split; [intros ? ? [] | reflexivity].
  - inversion Hnd as [|? ? Hnin Hnd']; subst.
    destruct (Hm n b (or_introl eq_refl)) as (-> & Hn).
    assert (Hm' : forall n' b', In (n', b') m ->
                    b' = backup n' /\ endswith BACKUP_SUFFIX n' = false).
    { intros n' b' Hin. apply Hm. now right. }
    assert (Hsep : forall n' b', In (n', b') m ->
              n' <> n /\ b' <> backup n /\ b' <> original n /\
              original n' <> original n /\ original n' <> backup n).
    { intros n' b' Hin. destruct (Hm' _ _ Hin) as (-> & Hn').
      assert (n' <> n).
      { intros ->. apply Hnin. apply in_map_iff. now exists (n, backup n). }
      repeat split; auto.
      - intros E. now apply backup_inj in E.
      - intros E. symmetry in E. revert E. now apply original_not_backup.
      - intros E. now apply join_inj in E.
      - now apply original_not_backup. }
    assert (Hself : backup n <> original n).
    { intros E. symmetry in E. revert E. now apply original_not_backup. }
    unfold restore_backups in *. cbn [for_each]. unfold bind at 1.
    change (join dir n) with (original n).
    change (fs_exists fs (backup n)) with (flat_exists fs (backup n)).
    unfold flat_exists.
    destruct (fs (backup n)) as [content|] eqn:E.
    + unfold call. change (fs_move (backup n) (original n) fs)
        with (flat_move (backup n) (original n) fs).
      unfold flat_move. rewrite E.
      set (fs1 := flat_set (flat_set fs (backup n) None) (original n) (Some content)).
      destruct (IH fs1 Hnd' Hm') as (fs' & Hr & Hin & Hout).
      exists fs'. split; [exact Hr|]. split.
      * intros n' b' [H|H].
        -- injection H as <- <-.
           assert (Hfree : forall n1 b1, In (n1, b1) m ->
                     backup n <> original n1 /\ backup n <> b1).
           { intros n1 b1 H1. destruct (Hsep _ _ H1) as (? & ? & ? & ? & ?).
             split; congruence. }
           assert (Hfree' : forall n1 b1, In (n1, b1) m ->
                     original n <> original n1 /\ original n <> b1).
           { intros n1 b1 H1. destruct (Hsep _ _ H1) as (? & ? & ? & ? & ?).
             split; congruence. }
           rewrite (Hout _ Hfree), (Hout _ Hfree'). unfold fs1.
           rewrite flat_set_same, flat_set_other, flat_set_same by exact Hself.
           rewrite E. split; reflexivity.
        -- destruct (Hin _ _ H) as (Hb & Ho).
           destruct (Hsep _ _ H) as (? & ? & ? & ? & ?).
           split; [exact Hb|]. rewrite Ho. unfold fs1.
           rewrite !flat_set_other by assumption. reflexivity.
      * intros q Hq. destruct (Hq n (backup n) (or_introl eq_refl)) as (? & ?).
        rewrite Hout by (intros; apply Hq; now right).
        unfold fs1. now rewrite !flat_set_other.
    + unfold ret. destruct (IH fs Hnd' Hm') as (fs' & Hr & Hin & Hout).
      exists fs'. split; [exact Hr|]. split.
      * intros n' b' [H|H].
        -- injection H as <- <-.
           rewrite !Hout.
           ++ now rewrite E.
           ++ intros n1 b1 H1. destruct (Hsep _ _ H1) as (? & ? & ? & ? & ?).
              split; congruence.
           ++ intros n1 b1 H1. destruct (Hsep _ _ H1) as (? & ? & ? & ? & ?).
              split; congruence.
        -- now apply Hin.
      * intros q Hq. apply Hout. intros; apply Hq; now right.
Qed.

Lemma optiscaler_files_are_originals :
  Forall (fun f => endswith BACKUP_SUFFIX f = false) optiscaler_files.
Proof. repeat constructor. Qed.

Lemma files_to_backup_are_removed n : In n files_to_backup -> In n optiscaler_files.
Proof.
  intros H. repeat (destruct H as [<-|H]; [vm_compute; tauto|]). destruct H.
Qed.

End UninstallMore.

Section UninstallEndToEnd.

Import OptiScalerInstaller.

Variable launch : str -> FlatFS -> FlatFS.
Variable steam_path : option str.
Variable r : InstallationRecord.

#[local] Abbreviation dir := (install_path r).
#[local] Abbreviation original := (original_path dir).
#[local] Abbreviation backup := (backup_path dir).

(** X20.  Uninstalling an installation whose record lists backups made by
    [backup_original_files], and for which no auxiliary asset was copied.
    Counted from the state the removal script leaves behind: every recorded
    backup that is still there is moved back over its original and is itself
    gone; a file of the fixed clean-up list with no backup to restore is
    absent; and no other regular file is touched outside the three
    clean-up directories, which go with all they hold. *)
Theorem uninstall_cleans_and_restores (fs : FlatFS) :
  fsr4_dll_copied r = false ->
  NoDup (map fst (backup_files r)) ->
  (forall n b, In (n, b) (backup_files r) -> In n files_to_backup /\ b = backup n) ->
  let start := run_optiscaler_removal_script launch dir fs in
  exists fs' : FlatFS,
    uninstall_optiscaler launch steam_path r fs = Some (true, fs') /\
    (forall n b, In (n, b) (backup_files r) -> start b <> None ->
       fs' (original n) = start b /\ fs' b = None) /\
    (forall f, In f optiscaler_files ->
       (forall b, In (f, b) (backup_files r) -> start b = None) ->
       fs' (join dir f) = None) /\
    (forall q, (forall f, In f optiscaler_files -> q <> join dir f) ->
               (forall n b, In (n, b) (backup_files r) -> q <> b) ->
               (forall sub, In sub optiscaler_dirs ->
                            startswith (join dir sub ++ [SLASH]) q = false) ->
               fs' q = start q).
Proof.
  intros Hcopied Hnd Hrec start.
  assert (Hm : forall n b, In (n, b) (backup_files r) ->
                 b = backup n /\ endswith BACKUP_SUFFIX n = false).
  { intros n b H. destruct (Hrec _ _ H) as (Hn & ->). split; [reflexivity|].
    exact (proj1 (Forall_forall _ _) files_to_backup_are_originals n Hn). }
  assert (Hbk : forall n f, In f optiscaler_files -> backup n <> join dir f).
  { intros n f Hf E. apply join_inj in E.
    pose proof (proj1 (Forall_forall _ _) optiscaler_files_are_originals f Hf) as H.
    cbv beta in H. rewrite <- E in H.
    unfold BACKUP_SUFFIX in H. rewrite endswith_app in H. discriminate. }
  destruct (unlink_each_flat dir optiscaler_files start) as (fs1 & Hr1 & H1).
  destruct (restore_backups_flat dir (backup_files r) fs1 Hnd Hm)
    as (fs3 & Hr3 & Hin & Hout).
  exists fs3. split.
  - unfold uninstall_optiscaler. fold start. unfold bind at 1.
    unfold remove_files. rewrite Hr1.
    unfold bind at 1.
    assert (H2 : remove_dirs dir fs1 = Some (tt, fs1)).
    { unfold remove_dirs. generalize optiscaler_dirs as l.
      induction l as [|x l IH]; cbn [for_each]; [reflexivity|].
      unfold bind at 1. cbn [fs_is_dir FlatFileSystem].
      rewrite andb_false_r. unfold ret at 1. exact IH. }
    rewrite H2. unfold bind at 1. rewrite Hr3.
    unfold bind, remove_asset. rewrite Hcopied. reflexivity.
  - assert (Hkept : forall n b, In (n, b) (backup_files r) -> fs1 b = start b).
    { intros n b H. rewrite H1. destruct (Hm _ _ H) as (-> & _).
      rewrite existsb_join_false; [reflexivity|]. intros f Hf. now apply Hbk. }
    split; [|split].
    + intros n b H Hb. destruct (Hin _ _ H) as (Hgone & Ho).
      split; [|exact Hgone]. rewrite Ho, (Hkept _ _ H).
      destruct (start b); [reflexivity | congruence].
    + intros f Hf Hnone.
      assert (Hf1 : fs1 (join dir f) = None).
      { rewrite H1, existsb_join_true by exact Hf. reflexivity. }
      destruct (in_dec (list_eq_dec ascii_dec) f (map fst (backup_files r)))
        as [Hk|Hk].
      * apply in_map_iff in Hk as ([n b] & Hfst & Hk). simpl in Hfst. subst n.
        destruct (Hin _ _ Hk) as (_ & Ho).
        change (join dir f) with (original f). rewrite Ho, (Hkept _ _ Hk).
        rewrite (Hnone _ Hk). exact Hf1.
      * rewrite Hout; [exact Hf1|]. intros n b H.
        destruct (Hm _ _ H) as (-> & _). split.
        -- intros E. apply join_inj in E. subst n. apply Hk.
           apply in_map_iff. now exists (f, backup f).
        -- intros E. symmetry in E. revert E. now apply Hbk.
    + intros q Hq Hqb _. rewrite Hout.
      * rewrite H1, existsb_join_false by exact Hq. reflexivity.
      * intros n b H. split; [|now apply (Hqb n)].
        apply Hq. apply files_to_backup_are_removed. now apply (Hrec n b).
Qed.

End UninstallEndToEnd.

(** ** More on the config file *)

Section ConfigMore.

Import OptiScalerInstaller.

(** The second loop inserts the key line between two of the lines. *)
Lemma insert_key_shape lines : forall b lines',
  insert_key b lines = Some lines' ->
  exists pre post, lines = pre ++ post /\ lines' = pre ++ KEY_LINE :: post.
Proof.
  induction lines as [|line rest IH]; intros b lines' H; [discriminate|].
  cbn [insert_key] in H.
  assert (Hrec : forall b', option_map (cons line) (insert_key b' rest) = Some lines' ->
            exists pre post,
              line :: rest = pre ++ post /\ lines' = pre ++ KEY_LINE :: post).
  { intros b' Ho. destruct (insert_key b' rest) as [r|] eqn:E; [|discriminate].
    injection Ho as <-. destruct (IH _ _ E) as (pre & post & -> & ->).
    now exists (line :: pre), post. }
  destruct (eqb (strip line) SECTION_HEADER); [now apply (Hrec true)|].
  destruct (b && _); [|now apply (Hrec b)].
  destruct (startswith (lit "[") line); injection H as <-.
  - now exists [], (line :: rest).
  - now exists [line], rest.
Qed.

Lemma filter_nil_all (lines : list str) :
  filter is_key_line lines = [] -> forall l, In l lines -> is_key_line l = false.
Proof.
  induction lines as [|line rest IH]; intros H l; [intros []|].
  apply filter_nil_cons in H as [Hk Hf]. intros [<-|Hl]; auto.
Qed.

Lemma terminated_ok lines : Forall terminated lines -> lines_ok lines.
Proof. induction 1; constructor; auto. Qed.

Lemma set_first_key_fixed pre post :
  (forall l, In l pre -> is_key_line l = false) ->
  set_first_key (pre ++ KEY_LINE :: post) = Some (pre ++ KEY_LINE :: post).
Proof.
  induction pre as [|line pre IH]; intros H; cbn [app set_first_key].
  - now rewrite key_line_is_key.
  - rewrite (H line) by now left. rewrite IH; [reflexivity|].
    intros l Hl. apply H. now right.
Qed.

Lemma writelines_no_cr raw line :
  In line (update_lines (lines_of raw)) -> ~ In CR line.
Proof. apply update_lines_no_cr. intros l. apply lines_of_no_cr. Qed.

(** What the file reads as after one call, when a key line was there or
    every line was complete: the first key line is [KEY_LINE]. *)
Lemma update_lines_first_key lines :
  lines_ok lines ->
  filter is_key_line lines <> [] \/ Forall terminated lines ->
  exists pre post,
    readlines (concat (update_lines lines)) = pre ++ KEY_LINE :: post /\
    (forall l, In l pre -> is_key_line l = false).
Proof.
  intros Hok Hcase.
  destruct (filter is_key_line lines) as [|k ks] eqn:Hf.
  - destruct Hcase as [Hcase|Hall]; [congruence|].
    unfold update_lines. rewrite set_first_key_none by exact Hf.
    destruct (insert_key false lines) as [lines'|] eqn:Hi.
    + destruct (insert_key_shape _ _ _ Hi) as (pre & post & -> & ->).
      exists pre, post. split.
      * apply readlines_concat, terminated_ok.
        apply Forall_app in Hall as [Hpre Hpost].
        apply Forall_app. split; [exact Hpre|].
        constructor; [apply key_line_terminated | exact Hpost].
      * intros l Hl. apply (filter_nil_all _ Hf). apply in_or_app. now left.
    + exists (lines ++ [[LF]; SECTION_HEADER ++ [LF]]), []. split.
      * rewrite concat_app. cbn [concat]. rewrite app_nil_r.
        rewrite readlines_chunks by exact Hall.
        rewrite <- app_assoc. reflexivity.
      * intros l Hl. apply in_app_or in Hl as [Hl|Hl].
        -- now apply (filter_nil_all _ Hf).
        -- destruct Hl as [<-|[<-|[]]]; reflexivity.
  - destruct (set_first_key_split lines) as (pre & line & post & -> & _ & Hpre & Hs).
    { rewrite Hf. discriminate. }
    unfold update_lines. rewrite Hs. exists pre, post. split; [|exact Hpre].
    apply readlines_concat. eapply set_first_key_ok; eauto.
Qed.

(** First the lines that do not read [[OptiScaler]]: the flag stays down. *)
Lemma insert_key_outside pre rest :
  (forall l, In l pre -> strip l <> SECTION_HEADER) ->
  insert_key false (pre ++ rest) = option_map (app pre) (insert_key false rest).
Proof.
  induction pre as [|line pre IH]; intros H; cbn [app insert_key].
  - now destruct (insert_key false rest).
  - assert (E : eqb (strip line) SECTION_HEADER = false).
    { apply eqb_neq. apply H. now left. }
    rewrite E. cbn [andb]. rewrite IH by (intros l Hl; apply H; now right).
    now destruct (insert_key false rest).
Qed.

(** Inside the section, up to the next line that opens one. *)
Lemma insert_key_inside body nxt post :
  (forall l, In l body -> startswith (lit "[") l = false) ->
  startswith (lit "[") nxt = true ->
  strip nxt <> SECTION_HEADER ->
  insert_key true (body ++ nxt :: post) = Some (body ++ KEY_LINE :: nxt :: post).
Proof.
  intros Hbody Hn Hs. apply eqb_neq in Hs.
  induction body as [|line body IH]; cbn [app insert_key].
  - rewrite Hs, Hn. reflexivity.
  - assert (IH' : insert_key true (body ++ nxt :: post) =
                  Some (body ++ KEY_LINE :: nxt :: post)).
    { apply IH. intros l Hl. apply Hbody. now right. }
    destruct (eqb (strip line) SECTION_HEADER); [now rewrite IH'|].
    rewrite (Hbody line) by now left.
    assert (E : match body ++ nxt :: post with [] => true | _ :: _ => false end = false)
      by now destruct body.
    rewrite E. cbn [andb orb]. now rewrite IH'.
Qed.

(** Lines that all read [[OptiScaler]] end the loop without a [break]. *)
Lemma insert_key_headers hdrs : forall b,
  (forall l, In l hdrs -> strip l = SECTION_HEADER) -> insert_key b hdrs = None.
Proof.
  induction hdrs as [|line hdrs IH]; intros b H; [reflexivity|].
  cbn [insert_key]. rewrite (H line) by now left. rewrite eqb_refl.
  rewrite IH by (intros l Hl; apply H; now right). reflexivity.
Qed.

(** X21.  One call is enough when the file has a key line or when each of its
    lines ends with a newline: afterwards the first key line of the file is
    [Fsr4Update=true], and the later key lines, if any, are the ones that
    were there. *)
Theorem one_call_sets_first_key (raw : str) :
  key_lines raw <> [] \/ Forall terminated (lines_of raw) ->
  key_lines (configure_optiscaler_ini (Some raw)) = KEY_LINE :: tl (key_lines raw).
Proof.
  intros Hcase. unfold configure_optiscaler_ini. fold (lines_of raw).
  unfold key_lines at 1. rewrite lines_of_writelines by apply writelines_no_cr.
  fold (key_lines raw).
  destruct (key_lines raw) as [|k ks] eqn:Hf.
  - destruct Hcase as [Hcase|Hall]; [congruence|]. unfold key_lines in Hf.
    destruct (update_lines_once (lines_of raw) (readlines_ok _)) as (_ & _ & H3).
    { rewrite Hf. simpl. lia. }
    apply H3. auto.
  - unfold key_lines in Hf.
    destruct (set_first_key_split (lines_of raw)) as (pre & line & post & Hl & _ & _ & Hs).
    { rewrite Hf. discriminate. }
    unfold update_lines. rewrite Hs.
    rewrite readlines_concat.
    + rewrite (set_first_key_filter _ _ Hs), Hf. reflexivity.
    + eapply set_first_key_ok; [apply readlines_ok | exact Hs].
Qed.

(** X22.  The step is idempotent from a missing file, from a file with a key line
    and from a file whose lines all end with a newline: a second call writes
    back what the first call wrote. *)
Theorem configure_is_idempotent (ini : option str) :
  (forall raw, ini = Some raw ->
     key_lines raw <> [] \/ Forall terminated (lines_of raw)) ->
  configure_twice ini = configure_optiscaler_ini ini.
Proof.
  intros Hcase. destruct ini as [raw|]; [|reflexivity].
  specialize (Hcase raw eq_refl).
  destruct (update_lines_first_key (lines_of raw) (readlines_ok _) Hcase)
    as (pre & post & Hread & Hpre).
  unfold configure_twice.
  set (first := configure_optiscaler_ini (Some raw)).
  assert (Hfirst : lines_of first = pre ++ KEY_LINE :: post).
  { unfold first, configure_optiscaler_ini. fold (lines_of raw).
    rewrite lines_of_writelines by apply writelines_no_cr. exact Hread. }
  unfold configure_optiscaler_ini at 1. fold (lines_of first).
  unfold update_lines. rewrite Hfirst, set_first_key_fixed by exact Hpre.
  rewrite <- Hread. unfold writelines. rewrite concat_readlines. reflexivity.
Qed.

(** X23.  On a file without a key line the step only adds text: what is written
    is the text as it was read with the key line inserted at one place, or
    with the new section appended at its end. *)
Theorem configure_only_adds_text (raw : str) :
  key_lines raw = [] ->
  exists before after inserted,
    universal_newlines raw = before ++ after /\
    configure_optiscaler_ini (Some raw) = before ++ inserted ++ after /\
    (inserted = KEY_LINE \/ inserted = NEW_SECTION /\ after = []).
Proof.
  intros Hf. unfold key_lines in Hf.
  unfold configure_optiscaler_ini, update_lines. fold (lines_of raw).
  rewrite set_first_key_none by exact Hf.
  destruct (insert_key false (lines_of raw)) as [lines'|] eqn:Hi.
  - destruct (insert_key_shape _ _ _ Hi) as (pre & post & Hl & ->).
    exists (concat pre), (concat post), KEY_LINE. repeat split; [| |now left].
    + transitivity (concat (lines_of raw)).
      * unfold lines_of. now rewrite concat_readlines.
      * now rewrite Hl, concat_app.
    + unfold writelines. now rewrite concat_app.
  - exists (universal_newlines raw), [], NEW_SECTION. repeat split; [| |now right].
    + now rewrite app_nil_r.
    + unfold writelines. rewrite concat_app. unfold lines_of.
      rewrite concat_readlines. reflexivity.
Qed.

(** X24.  On a file without a key line whose [[OptiScaler]] section is followed by
    another section, the key line goes at the end of the [[OptiScaler]]
    section: right before the first line after the header that starts with
    an opening bracket. *)
Theorem key_inserted_before_next_section (raw : str) (pre : list str) (hdr : str)
  (body : list str) (nxt : str) (post : list str) :
  key_lines raw = [] ->
  lines_of raw = pre ++ hdr :: body ++ nxt :: post ->
  (forall l, In l pre -> strip l <> SECTION_HEADER) ->
  strip hdr = SECTION_HEADER ->
  (forall l, In l body -> startswith (lit "[") l = false) ->
  startswith (lit "[") nxt = true ->
  strip nxt <> SECTION_HEADER ->
  configure_optiscaler_ini (Some raw) =
  writelines (pre ++ hdr :: body ++ KEY_LINE :: nxt :: post).
Proof.
  intros Hf Hl Hpre Hhdr Hbody Hn Hs. unfold key_lines in Hf.
  unfold configure_optiscaler_ini, update_lines. fold (lines_of raw).
  rewrite set_first_key_none by exact Hf.
  rewrite Hl, insert_key_outside by exact Hpre.
  cbn [insert_key]. rewrite Hhdr, eqb_refl.
  rewrite insert_key_inside by assumption. reflexivity.
Qed.

(** X25.  On a file without a key line in which no [[OptiScaler]] section is open
    (no line reads [[OptiScaler]], or such lines come last with nothing
    after them) the new section is appended to the text, header included. *)
Theorem section_appended_when_none_is_open (raw : str) (pre hdrs : list str) :
  key_lines raw = [] ->
  lines_of raw = pre ++ hdrs ->
  (forall l, In l pre -> strip l <> SECTION_HEADER) ->
  (forall l, In l hdrs -> strip l = SECTION_HEADER) ->
  configure_optiscaler_ini (Some raw) = universal_newlines raw ++ NEW_SECTION.
Proof.
  intros Hf Hl Hpre Hhdrs. unfold key_lines in Hf.
  unfold configure_optiscaler_ini, update_lines. fold (lines_of raw).
  rewrite set_first_key_none by exact Hf.
  rewrite Hl, insert_key_outside by exact Hpre.
  rewrite insert_key_headers by exact Hhdrs. cbn [option_map].
  rewrite <- Hl. unfold writelines, lines_of.
  rewrite concat_app, concat_readlines. cbn [concat]. now rewrite app_nil_r.
Qed.

End ConfigMore.

(** ** More on the ledger and on the uninstall menu *)

Section Menu.

Import OptiScalerInstaller Cli Ledger.
Context {FS : Type} {HFS : FileSystem FS}.

Variable launch : str -> FS -> FS.
Variable steam_path : option str.

Lemma py_index_bound (A : Type) (l : list A) i k :
  py_index l i = Some k -> k < length l.
Proof.
  unfold py_index.
  destruct (Z.leb_spec 0 i), (Z.ltb_spec i (Z.of_nat (length l))),
    (Z.leb_spec (- Z.of_nat (length l)) i), (Z.ltb_spec i 0);
    cbn [andb]; intros Hk; try discriminate; injection Hk as <-; lia.
Qed.

Lemma py_index_none (A : Type) (l : list A) i :
  py_index l i = None <->
  (i < - Z.of_nat (length l) \/ Z.of_nat (length l) <= i)%Z.
Proof.
  unfold py_index.
  destruct (Z.leb_spec 0 i), (Z.ltb_spec i (Z.of_nat (length l))),
    (Z.leb_spec (- Z.of_nat (length l)) i), (Z.ltb_spec i 0);
    cbn [andb]; split; intros Hk; try discriminate; try reflexivity; lia.
Qed.

Lemma py_index_at (A : Type) (before : list A) x after i :
  (i = Z.of_nat (length before) \/ i = - Z.of_nat (length after) - 1)%Z ->
  py_index (before ++ x :: after) i = Some (length before).
Proof.
  intros Hi. unfold py_index. rewrite length_app. cbn [length].
  destruct (Z.leb_spec 0 i),
    (Z.ltb_spec i (Z.of_nat (length before + S (length after)))),
    (Z.leb_spec (- Z.of_nat (length before + S (length after))) i),
    (Z.ltb_spec i 0);
    cbn [andb]; try (f_equal; lia); lia.
Qed.

Lemma nth_error_middle (A : Type) (before : list A) x after :
  nth_error (before ++ x :: after) (length before) = Some x.
Proof. induction before; simpl; auto. Qed.

(** The menu, once the typed number stands for the position of [r]. *)
Lemma choice_at (number : Z) (w : World FS)
  (before after : list InstallationRecord) (r : InstallationRecord) (fs' : FS) :
  load_installations w = before ++ r :: after ->
  py_index (before ++ r :: after) (number - 1) = Some (length before) ->
  uninstall_optiscaler launch steam_path r (disk w) = Some (true, fs') ->
  uninstall_choice launch steam_path (Some number) (lit "y") w =
    Some (Uninstalled, {| disk := fs'; ledger := Some (before ++ after) |}).
Proof.
  intros Hl Hi Hun.
  unfold uninstall_choice. rewrite Hl. unfold py_get, py_pop. rewrite Hi.
  rewrite nth_error_middle, remove_nth_split, Hun.
  destruct before; reflexivity.
Qed.

(** X26.  Without the operator's confirmation the uninstall menu changes nothing:
    whatever was typed as the number, the disk and the ledger are as they
    were and nothing is reported as uninstalled. *)
Theorem unconfirmed_uninstall_changes_nothing (typed_number : option Z)
  (confirmation : str) (w : World FS) :
  lower confirmation <> lit "y" ->
  exists outcome,
    uninstall_choice launch steam_path typed_number confirmation w = Some (outcome, w) /\
    outcome <> Uninstalled /\ outcome <> UninstallFailed.
Proof.
  intros Hc. apply eqb_neq in Hc. unfold uninstall_choice.
  destruct (load_installations w) as [|r0 rest].
  { exists NoInstallations. repeat split; discriminate. }
  destruct typed_number as [number|].
  2: { exists InvalidSelection. repeat split; discriminate. }
  destruct (py_get (r0 :: rest) (number - 1)) as [r|].
  2: { exists InvalidSelection. repeat split; discriminate. }
  rewrite Hc. exists UninstallCancelled. repeat split; discriminate.
Qed.

(** X27.  Which number selects which entry: the entry at position [p] of the
    ledger (counted from 1) is selected by the number [p], and also by the
    number that counts back from the end with 0 for the last entry.  The
    uninstall then runs on that entry, and exactly that position is taken
    out of the ledger. *)
Theorem number_selects_entry (number : Z) (w : World FS)
  (before after : list InstallationRecord) (r : InstallationRecord)
  (b : bool) (fs' : FS) :
  load_installations w = before ++ r :: after ->
  (number = Z.of_nat (length before) + 1 \/ number = - Z.of_nat (length after))%Z ->
  uninstall_optiscaler launch steam_path r (disk w) = Some (b, fs') ->
  uninstall_choice launch steam_path (Some number) (lit "y") w =
    Some (Uninstalled, {| disk := fs'; ledger := Some (before ++ after) |}).
Proof.
  intros Hl Hn Hun.
  pose proof (uninstall_returns_true _ _ _ _ _ _ Hun) as ->.
  apply (choice_at number w before after r fs' Hl); [|exact Hun].
  apply py_index_at. lia.
Qed.

(** X28.  With a ledger of [n] entries, the menu answers "Invalid selection" to a
    number exactly when the number is above [n] or not above [-n]; every
    number from [-n + 1] to [n] selects an entry. *)
Theorem invalid_selection_range (number : Z) (confirmation : str) (w : World FS) :
  load_installations w <> [] ->
  uninstall_choice launch steam_path (Some number) confirmation w =
    Some (InvalidSelection, w) <->
  (number <= - Z.of_nat (length (load_installations w)) \/
   Z.of_nat (length (load_installations w)) < number)%Z.
Proof.
  intros Hne. unfold uninstall_choice.
  destruct (load_installations w) as [|r0 rest] eqn:Hl; [congruence|].
  unfold py_get, py_pop.
  destruct (py_index (r0 :: rest) (number - 1)) as [k|] eqn:Hi.
  - assert (Hin : ~ (number - 1 < - Z.of_nat (length (r0 :: rest)) \/
                     Z.of_nat (length (r0 :: rest)) <= number - 1)%Z).
    { intros H. apply py_index_none in H. congruence. }
    split; [|lia]. intros H. exfalso.
    pose proof (py_index_bound _ _ _ _ Hi) as Hk.
    apply nth_error_Some in Hk.
    destruct (nth_error (r0 :: rest) k) as [r|]; [|congruence].
    destruct (negb _); [discriminate|].
    destruct (uninstall_optiscaler _ _ _ _) as [[[|] fs']|]; discriminate.
  - apply py_index_none in Hi. split; [lia | reflexivity].
Qed.

End Menu.

Section LedgerFlat.

Import OptiScalerInstaller Cli Ledger.

(** X29.  Recording an installation and then uninstalling the entry just
    recorded, by its number, gives back the ledger as it was loaded before;
    on a store of regular files the uninstall always gets that far. *)
Theorem save_then_uninstall_restores_ledger (launch : str -> FlatFS -> FlatFS)
  (steam_path : option str) (r : InstallationRecord) (w : World FlatFS) :
  exists fs' : FlatFS,
    uninstall_choice launch steam_path
      (Some (Z.of_nat (length (load_installations w)) + 1)%Z) (lit "y")
      (save_installation r w) =
    Some (Uninstalled, {| disk := fs'; ledger := Some (load_installations w) |}).
Proof.
  destruct (uninstall_flat_total launch steam_path r (disk w)) as (fs' & Hun).
  exists fs'.
  rewrite <- (app_nil_r (load_installations w)) at 2.
  apply (choice_at launch steam_path _ (save_installation r w)
           (load_installations w) [] r fs' eq_refl); [|exact Hun].
  apply py_index_at. cbn [length]. lia.
Qed.

End LedgerFlat.

(** ** The further properties at concrete inputs *)

Section WorkedMore.

Import SteamUtils FSRManager OptiScalerInstaller Cli Ledger Manifests Libraries.

(** A walk with one executable in the root and one in a sub-directory. *)
Lemma rank_candidates_covers_witness :
  exists loc,
    In loc (find_game_executable_paths Examples.game_dir
              [Examples.root_game; Examples.sub_tool]) /\
    path loc = parent_str Examples.game_dir Examples.sub_tool /\
    priority loc <= 3.
Proof.
  apply (rank_candidates_covers_every_directory Examples.game_dir
           [Examples.root_game; Examples.sub_tool] Examples.sub_tool OtherExe 3).
  - right. now left.
  - reflexivity.
  - reflexivity.
Defined.

Lemma rank_candidates_only_accepted_witness :
  exists e,
    In e [Examples.root_game; Examples.sub_tool] /\
    path (location_info Examples.game_dir Examples.root_game MainGameDirectory 1)
      = parent_str Examples.game_dir e /\
    exe_name (location_info Examples.game_dir Examples.root_game MainGameDirectory 1)
      = entry_name e /\
    relative_path (location_info Examples.game_dir Examples.root_game MainGameDirectory 1)
      = relative_str e /\
    is_file e = true /\
    endswith (lit ".exe")
      (exe_name (location_info Examples.game_dir Examples.root_game MainGameDirectory 1))
      = true /\
    any_in skip_paths
      (lower (path (location_info Examples.game_dir Examples.root_game MainGameDirectory 1)))
      = false /\
    any_in skip_names
      (lower (exe_name (location_info Examples.game_dir Examples.root_game MainGameDirectory 1)))
      = false.
Proof.
  apply (rank_candidates_only_accepted_files Examples.game_dir
           [Examples.root_game; Examples.sub_tool]
           (location_info Examples.game_dir Examples.root_game MainGameDirectory 1)).
  vm_compute. left. reflexivity.
Defined.

Lemma rank_candidates_type_and_priority_witness :
  In (exe_type (location_info Examples.game_dir Examples.sub_tool OtherExe 3),
      priority (location_info Examples.game_dir Examples.sub_tool OtherExe 3))
     [(MainGameDirectory, 1); (ShippingExecutable, 1);
      (CommonGameFolder, 2); (OtherExe, 3)] /\
  (exe_type (location_info Examples.game_dir Examples.sub_tool OtherExe 3)
     = MainGameDirectory <->
   path (location_info Examples.game_dir Examples.sub_tool OtherExe 3)
     = Examples.game_dir).
Proof.
  apply (rank_candidates_type_and_priority Examples.game_dir
           [Examples.root_game; Examples.sub_tool]
           (location_info Examples.game_dir Examples.sub_tool OtherExe 3)).
  vm_compute. right. left. reflexivity.
Defined.

Lemma rank_candidates_empty_witness :
  find_game_executable_paths Inputs.marked_game_dir
    [Examples.root_game; Examples.sub_tool] = [].
Proof.
  apply (rank_candidates_empty_under_marked_root Inputs.marked_game_dir).
  reflexivity.
Defined.

Lemma enumerate_games_records_witness :
  app_id Examples.tf2 <> [] /\ name Examples.tf2 <> [] /\
  install_dir Examples.tf2 <> [] /\
  In (library_path Examples.tf2) [lit "/steam"] /\
  disk_exists Inputs.steam_disk (join (library_path Examples.tf2) (lit "steamapps"))
    = true /\
  game_path Examples.tf2 =
    truediv (truediv (truediv (library_path Examples.tf2) (lit "steamapps")) (lit "common"))
         (install_dir Examples.tf2) /\
  disk_exists Inputs.steam_disk (game_path Examples.tf2) = true.
Proof.
  apply (enumerate_games_records_well_formed Inputs.steam_disk
           (Some (lit "/steam")) [lit "/steam"] Examples.tf2).
  vm_compute. left. reflexivity.
Defined.

Lemma malformed_manifest_witness :
  manifest_game Inputs.broken_disk (lit "/steam") Inputs.tf2_manifest_file = None.
Proof.
  apply (malformed_manifest_is_skipped Inputs.broken_disk (lit "/steam")
           Inputs.tf2_manifest_file Inputs.cut_manifest).
  - reflexivity.
  - apply Exists_cons_hd. split; reflexivity.
Defined.

Lemma manifest_round_trip_witness :
  manifest_game Inputs.steam_disk (lit "/steam") Inputs.tf2_manifest_file =
    Some {| app_id := lit "440";
            name := lit "Team Fortress 2";
            install_dir := lit "Team Fortress 2";
            game_path :=
              truediv (truediv (truediv (lit "/steam") (lit "steamapps")) (lit "common"))
                   (lit "Team Fortress 2");
            library_path := lit "/steam" |}.
Proof.
  apply (manifest_round_trip Inputs.steam_disk (lit "/steam")
           Inputs.tf2_manifest_file (lit "440") (lit "Team Fortress 2")
           (lit "Team Fortress 2")).
  - repeat split; [discriminate | | |];
      intros H; vm_compute in H; intuition discriminate.
  - repeat split; [discriminate | | |];
      intros H; vm_compute in H; intuition discriminate.
  - repeat split; [discriminate | | |];
      intros H; vm_compute in H; intuition discriminate.
  - reflexivity.
  - reflexivity.
Defined.

Lemma findall_paths_sound_witness :
  Inputs.mnt_games <> [] /\ ~ In QUOTE Inputs.mnt_games /\
  registers (vdf_entry Inputs.mnt_games) Inputs.mnt_games.
Proof.
  apply (findall_paths_sound (vdf_entry Inputs.mnt_games) Inputs.mnt_games).
  vm_compute. left. reflexivity.
Defined.

Lemma findall_paths_round_trip_witness :
  findall_paths (concat (map vdf_entry [Inputs.mnt_games; Inputs.data_library])) =
  [Inputs.mnt_games; Inputs.data_library].
Proof.
  apply (findall_paths_round_trip [Inputs.mnt_games; Inputs.data_library]).
  repeat constructor; try discriminate;
    intros H; vm_compute in H; intuition discriminate.
Defined.

Lemma selection_installs_asset_witness :
  config_dir Inputs.manager_with_asset = config_dir Examples.manager_without_asset /\
  fsr4_dll_path Inputs.manager_with_asset
    = Some (join (config_dir Examples.manager_without_asset) DLL_NAME) /\
  (exists src, Inputs.downloads src <> None /\
     Inputs.after_selection (join (config_dir Examples.manager_without_asset) DLL_NAME)
       = Inputs.downloads src) /\
  (forall q, q <> join (config_dir Examples.manager_without_asset) DLL_NAME ->
     Inputs.after_selection q = Inputs.downloads q) /\
  asset_missing Inputs.manager_with_asset Inputs.after_selection = false.
Proof.
  apply (selection_installs_asset Inputs.picking_operator
           Examples.manager_without_asset Inputs.downloads).
  reflexivity.
Defined.

Lemma copy_to_compat_dir_installs_witness :
  exists src,
    fsr4_dll_path Inputs.manager_with_asset = Some src /\
    Inputs.after_copy src <> None /\
    Inputs.after_copy (join (system32_path Inputs.tf2_compatdata) DLL_NAME)
      = Inputs.after_copy src.
Proof.
  apply (copy_to_compat_dir_installs_asset Inputs.picking_operator
           Examples.manager_without_asset (lit "440") Inputs.tf2_compatdata
           Inputs.downloads).
  reflexivity.
Defined.

Lemma downloaded_path_witness :
  (endswith (lit ".zip") Inputs.stable_archive ||
   endswith (lit ".7z") Inputs.stable_archive) = true /\
  exists releases release asset,
    get_releases Examples.network = Some releases /\ In release releases /\
    In asset (assets release) /\
    Inputs.stable_archive = truediv Examples.user_config_dir (asset_name asset).
Proof.
  apply (downloaded_path_is_an_archive (FS := FlatFS) Examples.network
           Examples.user_config_dir empty_fs Inputs.stable_archive
           Inputs.after_fetch).
  reflexivity.
Defined.

(** The shim under the vendor's name goes, and the vendor DLL comes back
    from its backup. *)
Lemma uninstall_cleans_and_restores_witness :
  let start :=
    run_optiscaler_removal_script Examples.idle_terminal
      (install_path Inputs.foo_record) Inputs.installed_dir in
  exists fs' : FlatFS,
    uninstall_optiscaler Examples.idle_terminal None Inputs.foo_record
      Inputs.installed_dir = Some (true, fs') /\
    (forall n b, In (n, b) (backup_files Inputs.foo_record) -> start b <> None ->
       fs' (original_path (install_path Inputs.foo_record) n) = start b /\
       fs' b = None) /\
    (forall f, In f optiscaler_files ->
       (forall b, In (f, b) (backup_files Inputs.foo_record) -> start b = None) ->
       fs' (join (install_path Inputs.foo_record) f) = None) /\
    (forall q,
       (forall f, In f optiscaler_files ->
                  q <> join (install_path Inputs.foo_record) f) ->
       (forall n b, In (n, b) (backup_files Inputs.foo_record) -> q <> b) ->
       (forall sub, In sub optiscaler_dirs ->
          startswith (join (install_path Inputs.foo_record) sub ++ [SLASH]) q
            = false) ->
       fs' q = start q).
Proof.
  apply (uninstall_cleans_and_restores Examples.idle_terminal None
           Inputs.foo_record Inputs.installed_dir).
  - reflexivity.
  - constructor; [intros [] | constructor].
  - intros n b [H|[]]. injection H as <- <-.
    split; [vm_compute; tauto | reflexivity].
Defined.

Lemma one_call_sets_first_key_witness :
  key_lines (configure_optiscaler_ini (Some Examples.ini_key_in_other_section)) =
  KEY_LINE :: tl (key_lines Examples.ini_key_in_other_section).
Proof.
  apply (one_call_sets_first_key Examples.ini_key_in_other_section).
  left. vm_compute. discriminate.
Defined.

Lemma configure_is_idempotent_witness :
  configure_twice (Some Examples.ini_key_in_other_section) =
  configure_optiscaler_ini (Some Examples.ini_key_in_other_section).
Proof.
  apply (configure_is_idempotent (Some Examples.ini_key_in_other_section)).
  intros raw H. injection H as <-. left. vm_compute. discriminate.
Defined.

Lemma configure_only_adds_text_witness :
  exists before after inserted,
    universal_newlines Examples.ini_open_last_line = before ++ after /\
    configure_optiscaler_ini (Some Examples.ini_open_last_line)
      = before ++ inserted ++ after /\
    (inserted = KEY_LINE \/ inserted = NEW_SECTION /\ after = []).
Proof.
  apply (configure_only_adds_text Examples.ini_open_last_line). reflexivity.
Defined.

Lemma key_inserted_before_next_section_witness :
  configure_optiscaler_ini (Some Inputs.ini_two_sections) =
  writelines ([] ++ (lit "[OptiScaler]" ++ [LF]) ::
              [lit "Dx12Upscaler=auto" ++ [LF]] ++
              KEY_LINE :: (lit "[Other]" ++ [LF]) :: [lit "Foo=1" ++ [LF]]).
Proof.
  apply (key_inserted_before_next_section Inputs.ini_two_sections []
           (lit "[OptiScaler]" ++ [LF]) [lit "Dx12Upscaler=auto" ++ [LF]]
           (lit "[Other]" ++ [LF]) [lit "Foo=1" ++ [LF]]).
  - reflexivity.
  - reflexivity.
  - intros l [].
  - reflexivity.
  - intros l [<-|[]]. reflexivity.
  - reflexivity.
  - vm_compute. discriminate.
Defined.

(** The header is on the last line: it is written a second time. *)
Lemma section_appended_witness :
  configure_optiscaler_ini (Some Inputs.ini_header_last) =
  universal_newlines Inputs.ini_header_last ++ NEW_SECTION.
Proof.
  apply (section_appended_when_none_is_open Inputs.ini_header_last
           [lit "[Other]" ++ [LF]; lit "Foo=1" ++ [LF]]
           [lit "[OptiScaler]" ++ [LF]]).
  - reflexivity.
  - reflexivity.
  - intros l [<-|[<-|[]]]; vm_compute; discriminate.
  - intros l [<-|[]]. reflexivity.
Defined.

Lemma unconfirmed_uninstall_witness :
  exists outcome,
    uninstall_choice Examples.idle_terminal None (Some 1%Z) (lit "n")
      Inputs.one_entry = Some (outcome, Inputs.one_entry) /\
    outcome <> Uninstalled /\ outcome <> UninstallFailed.
Proof.
  apply (unconfirmed_uninstall_changes_nothing (FS := FlatFS)
           Examples.idle_terminal None (Some 1%Z) (lit "n") Inputs.one_entry).
  vm_compute. discriminate.
Defined.

(** The number 0 selects the last entry of the ledger. *)
Lemma number_selects_entry_witness :
  uninstall_choice Examples.idle_terminal None (Some 0%Z) (lit "y")
    Inputs.two_entries =
  Some (Uninstalled,
        {| disk := empty_fs; ledger := Some ([Examples.tf2_record] ++ []) |}).
Proof.
  apply (number_selects_entry (FS := FlatFS) Examples.idle_terminal None 0%Z
           Inputs.two_entries [Examples.tf2_record] [] Inputs.foo_entry true
           empty_fs).
  - reflexivity.
  - right. reflexivity.
  - reflexivity.
Defined.

Lemma invalid_selection_range_witness :
  uninstall_choice Examples.idle_terminal None (Some 2%Z) (lit "y")
    Inputs.one_entry = Some (InvalidSelection, Inputs.one_entry) <->
  (2 <= - Z.of_nat (length (load_installations Inputs.one_entry)) \/
   Z.of_nat (length (load_installations Inputs.one_entry)) < 2)%Z.
Proof.
  apply (invalid_selection_range (FS := FlatFS) Examples.idle_terminal None
           2%Z (lit "y") Inputs.one_entry).
  vm_compute. discriminate.
Defined.

End WorkedMore.
